(** * proletarian: a worker pool with retries and graceful shutdown

    A shallow embedding of [pool.go] and the properties of its
    task header, configuration, retry routing and lifecycle.

    Layout: the data of the package and its methods as functions, then the
    pool as a transition system over goroutines, then the theorems. *)

From stdpp Require Import base numbers list strings.

Local Open Scope Z_scope.

(** ** Machine integers

    Go's [int] is taken at 64 bits (the platform of the package's tests);
    [atomic.Int32] is 32 bits.  Arithmetic wraps around in two's complement. *)

Definition min_int : Z := - 2 ^ 63.
Definition max_int : Z := 2 ^ 63 - 1.
Definition wrap_int (z : Z) : Z := (z + 2 ^ 63) `mod` 2 ^ 64 - 2 ^ 63.
Definition wrap_int32 (z : Z) : Z := (z + 2 ^ 31) `mod` 2 ^ 32 - 2 ^ 31.
Definition is_int (z : Z) : Prop := min_int ≤ z ≤ max_int.

(** ** Outcomes of an operation

    An operation of the Go program either completes, cannot proceed now
    (a blocked goroutine), or panics. *)

Inductive outcome (A : Type) : Type :=
| Next (a : A)
| Blocked
| Panic (msg : string).
Arguments Next {A} a.
Arguments Blocked {A}.
Arguments Panic {A} msg.

Definition obind {A B} (m : outcome A) (k : A → outcome B) : outcome B :=
  match m with
  | Next a => k a
  | Blocked => Blocked
  | Panic msg => Panic msg
  end.

Notation "x ←! m ; k" := (obind m (λ x, k))
  (at level 20, m at level 100, k at level 200, right associativity,
   format "x  ←!  m ;  '/' k").

(** ** Task and TaskHeader (pool.go 16-61) *)

(** Go's [error]: [None] is the nil error, [Some msg] a non-nil one. *)
Definition error : Type := string.

Record TaskHeader : Type := mkTaskHeader {
  retries : Z;
  err : option error
}.

(** The zero value [TaskHeader{}]. *)
Definition zeroTaskHeader : TaskHeader := {| retries := 0; err := None |}.

Definition set_err (e : option error) (t : TaskHeader) : TaskHeader :=
  {| retries := retries t; err := e |}.
Definition incr_retries (t : TaskHeader) : TaskHeader :=
  {| retries := wrap_int (retries t + 1); err := err t |}.

(** [func (t *TaskHeader) SetError(err error)] *)
Definition SetError (e : option error) (t : TaskHeader) : TaskHeader :=
  let t := set_err e t in
  match e with
  | Some _ => incr_retries t
  | None => t
  end.

(** [func (t *TaskHeader) ErrorCount() int] *)
Definition ErrorCount (t : TaskHeader) : Z := retries t.

(** [func (t *TaskHeader) Err() error] *)
Definition Err (t : TaskHeader) : option error := err t.

(** [func (t *TaskHeader) Unwrap() error] *)
Definition Unwrap (t : TaskHeader) : option error := err t.

(** A sequence of [SetError] calls on one header, first call first. *)
Definition record_all (es : list (option error)) (t : TaskHeader) : TaskHeader :=
  foldl (λ t e, SetError e t) t es.

(** The number of non-nil errors in a sequence of recordings. *)
Definition non_nil (es : list (option error)) : Z :=
  Z.of_nat (length (filter (λ e, is_Some e) es)).

(** The last error of a sequence of recordings, [d] when there is none. *)
Definition last_recorded (d : option error) (es : list (option error)) : option error :=
  default d (last es).

(** ** Tasks, configuration and construction (pool.go 63-148) *)

Section Pool.

(** The user's task type embeds [TaskHeader]; [U] is the rest of its fields. *)
Context {U : Type}.

Record task : Type := mkTask {
  header : TaskHeader;
  body : U
}.

(** A task as the caller creates it. *)
Definition newTask (u : U) : task := {| header := zeroTaskHeader; body := u |}.

(** [PoolConfig].  [Func] receives the task and returns an error; the header's
    fields are unexported, so it acts on the user's fields. *)
Record PoolConfig : Type := mkPoolConfig {
  LobbySize : Z;
  Size : Z;
  Retries : Z;
  Func : U → U * option error
}.

Definition with_Size (n : Z) (c : PoolConfig) : PoolConfig :=
  {| LobbySize := LobbySize c; Size := n; Retries := Retries c; Func := Func c |}.
Definition with_Retries (n : Z) (c : PoolConfig) : PoolConfig :=
  {| LobbySize := LobbySize c; Size := Size c; Retries := n; Func := Func c |}.

(** What the Go runtime contributes to construction: [runtime.GOMAXPROCS(0)]
    and the largest capacity [make(chan Task, n)] accepts. *)
Record Runtime : Type := mkRuntime {
  GOMAXPROCS : Z;
  chanCapLimit : Z
}.

(** A channel of task references ([nat] is the identity of a task). *)
Record chan : Type := mkChan {
  buf : list nat;
  cap : Z;
  closed : bool
}.

(** [make(chan Task, n)]: panics on a negative or oversized capacity. *)
Definition make_chan (rt : Runtime) (n : Z) : outcome chan :=
  if (n <? 0) || (chanCapLimit rt <? n)
  then Panic "makechan: size out of range"
  else Next {| buf := []; cap := n; closed := false |}.

(** [sync.Once]: not yet run, running its function, or done. *)
Inductive once : Type := OnceIdle | OnceRunning | OnceDone.

(** The [pool] struct together with the channels its fields point to.
    [inputQ_nil] and [workersQ_nil] say that the field holds [nil]; the
    channel made in [NewPool] lives on as [inputQ] / [workersQ] for the
    goroutines that still range over it.  [ctx_done] is the state of the
    pool's context. *)
Record pool : Type := mkPool {
  inputQ : chan;
  inputQ_nil : bool;
  workersQ : chan;
  workersQ_nil : bool;
  errCh : chan;
  workersWG : Z;
  inflightWG : Z;
  inputLock : bool;
  shutdownOnce : once;
  ctx_done : bool;
  inQ : Z;
  inWork : Z;
  inFlight : Z;
  cfg : PoolConfig
}.

(** [func NewPool(ctx context.Context, cfg PoolConfig) Pooler] *)
Definition NewPool (rt : Runtime) (cfg : PoolConfig) : outcome pool :=
  let cfg := if Size cfg <? 1 then with_Size 1 cfg else cfg in
  let cfg := if wrap_int (GOMAXPROCS rt * 32) <? Size cfg
             then with_Size (wrap_int (GOMAXPROCS rt * 32)) cfg else cfg in
  let cfg := if Retries cfg <? -1 then with_Retries (-1) cfg else cfg in
  inputQ ←! make_chan rt (LobbySize cfg);
  workersQ ←! make_chan rt 0;
  errCh ←! make_chan rt 0;
  Next {| inputQ := inputQ; inputQ_nil := false;
          workersQ := workersQ; workersQ_nil := false;
          errCh := errCh;
          workersWG := 0; inflightWG := 0;
          inputLock := false;
          shutdownOnce := OnceIdle;
          ctx_done := false;
          inQ := 0; inWork := 0; inFlight := 0;
          cfg := cfg |}.

(** ** The worker's treatment of one task (pool.go 217-251) *)

(** Lines 220-221: [err := p.f(task); task.SetError(err)]. *)
Definition execute (c : PoolConfig) (t : task) : task * option error :=
  let '(u, e) := Func c (body t) in
  ({| header := SetError e (header t); body := u |}, e).

(** Where the worker sends a task after an execution. *)
Inductive routing : Type :=
| Finished     (* err == nil: the task is done *)
| Abandoned    (* err != nil and the context is done *)
| ToErrCh      (* handed to the error queue *)
| Retry.       (* handed back to the workers' queue *)

(** Lines 222-249: the branch on [err], the [select] on [ctx.Done()] and the
    comparison of the error count with the retry ceiling. *)
Definition route (c : PoolConfig) (cancelled : bool) (t : task) (e : option error)
  : routing :=
  match e with
  | Some _ =>
      if cancelled then Abandoned
      else if Retries c <=? ErrorCount (header t) then ToErrCh
      else Retry
  | None => Finished
  end.

(** One iteration of the worker's loop on a task. *)
Definition attempt (c : PoolConfig) (cancelled : bool) (t : task) : task * routing :=
  let '(t', e) := execute c t in (t', route c cancelled t' e).

(** The iterations a task goes through when the context is never cancelled
    and every hand-off is accepted: each [Retry] puts the task back on the
    workers' queue, from which a worker takes it again.  The list holds, per
    iteration, the task after it and where it was routed; it ends with the
    first routing other than [Retry].  That the pool, under any schedule,
    takes a task through these iterations and no others is
    [pool_refines_task_life] below. *)
Fixpoint task_life (c : PoolConfig) (fuel : nat) (t : task) : list (task * routing) :=
  match fuel with
  | O => []
  | S fuel =>
      let '(t', r) := attempt c false t in
      match r with
      | Retry => (t', r) :: task_life c fuel t'
      | _ => [(t', r)]
      end
  end.

(** The deliveries to the error queue in a task's life. *)
Definition deliveries (l : list (task * routing)) : list task :=
  omap (λ x, match snd x with ToErrCh => Some (fst x) | _ => None end) l.

(** The successful completions in a task's life. *)
Definition completions (l : list (task * routing)) : list task :=
  omap (λ x, match snd x with Finished => Some (fst x) | _ => None end) l.

(** The result of the [n]-th call (from 0) of the user function on a task
    whose user fields start as [u]. *)
Fixpoint nth_call (c : PoolConfig) (n : nat) (u : U) : option error :=
  match n with
  | O => snd (Func c u)
  | S n => nth_call c n (fst (Func c u))
  end.

Definition always_fails (c : PoolConfig) : Prop :=
  ∀ u, snd (Func c u) ≠ None.

Definition fails_then_succeeds (c : PoolConfig) (K : nat) (u : U) : Prop :=
  (∀ n, (n < K)%nat → nth_call c n u ≠ None) ∧ nth_call c K u = None.

End Pool.

Arguments task : clear implicits.
Arguments PoolConfig : clear implicits.
Arguments pool : clear implicits.

(** ** The pool as a transition system

    Every goroutine of the program is a thread with a program point; a step
    runs one statement (or a run of adjacent statements that touch only one
    thread's data and the counters) of one goroutine, or lets a sender and a
    receiver meet on an unbuffered channel.  The caller's goroutines are the
    calls of the [Pooler] methods. *)

(** What happened so far, oldest first.  The history is not part of the Go
    program; it records the statements of interest as they execute. *)
Inductive event : Type :=
| EvCloseInput                         (* close(p.inputQ) *)
| EvDrained                            (* p.inflightWG.Wait() returned in Shutdown *)
| EvCloseWorkers                       (* close(p.workersQ) *)
| EvCloseErr                           (* close(p.errCh) *)
| EvExecuted (t : nat) (e : option error)   (* p.f(task) returned e *)
| EvFinished (t : nat) (n : Z)         (* success, with the error count *)
| EvAbandoned (t : nat)                (* failure seen with the context done *)
| EvDelivered (t : nat) (n : Z).       (* received from p.errCh, with the error count *)

(** The methods of [Pooler]. *)
Inductive method : Type :=
| MRun | MQueue (t : nat) | MShutdown | MCancel | MErroredTask | MWait.

(** Program points.  A task is carried by its identity. *)
Inductive pc : Type :=
(* Run, lines 163-170 *)
| RunLock | RunSpawn | RunDone
(* the goroutine of lobby, lines 151-158 *)
| LobbyStart | LobbyRecv | LobbySend (t : nat) | LobbyNil | LobbyUnlock
(* worker, lines 214-252 *)
| WorkerStart | WorkerRecv | WorkerExec (t : nat) | WorkerRoute (t : nat) (e : option error)
(* the goroutine of lines 227-234 *)
| ErrSend (t : nat) | ErrSent (t : nat)
(* the goroutine of lines 237-243 *)
| RetrySend (t : nat) | RetrySent (t : nat)
(* Queue, lines 173-181 *)
| QueueCheck (t : nat) | QueueCount (t : nat) | QueueSend (t : nat) | QueueDone
(* Shutdown, lines 184-194 *)
| SdOnce | SdClose | SdNil | SdWait | SdCloseW | SdNilW | SdCloseErr | SdEnd | SdDone
(* Wait, lines 207-212 *)
| WaitLock | WaitWG | WaitUnlock | WaitDone
(* Cancel, lines 197-199 *)
| CancelCall | CancelDone
(* ErroredTask, lines 202-204 *)
| ErrRecv | ErrDone (r : option nat)
(* a goroutine that has ended *)
| Exit.

Definition entry (m : method) : pc :=
  match m with
  | MRun => RunLock
  | MQueue t => QueueCheck t
  | MShutdown => SdOnce
  | MCancel => CancelCall
  | MErroredTask => ErrRecv
  | MWait => WaitLock
  end.

(** [atomic.Int32.Add] *)
Definition add32 (x d : Z) : Z := wrap_int32 (x + d).

(** [sync.WaitGroup.Add]; [Done] is [Add(-1)]. *)
Definition wg_add (n d : Z) : outcome Z :=
  if n + d <? 0 then Panic "sync: negative WaitGroup counter" else Next (n + d).

(** [close(c)] on a non-nil channel. *)
Definition close_chan (c : chan) : outcome chan :=
  if closed c then Panic "close of closed channel"
  else Next {| buf := buf c; cap := cap c; closed := true |}.

Definition with_buf (l : list nat) (c : chan) : chan :=
  {| buf := l; cap := cap c; closed := closed c |}.

Section Machine.

Context {U : Type}.

Definition set_inputQ (x : chan) (p : pool U) : pool U :=
  {| inputQ := x; inputQ_nil := inputQ_nil p; workersQ := workersQ p;
     workersQ_nil := workersQ_nil p; errCh := errCh p; workersWG := workersWG p;
     inflightWG := inflightWG p; inputLock := inputLock p;
     shutdownOnce := shutdownOnce p; ctx_done := ctx_done p; inQ := inQ p;
     inWork := inWork p; inFlight := inFlight p; cfg := cfg p |}.
Definition set_inputQ_nil (x : bool) (p : pool U) : pool U :=
  {| inputQ := inputQ p; inputQ_nil := x; workersQ := workersQ p;
     workersQ_nil := workersQ_nil p; errCh := errCh p; workersWG := workersWG p;
     inflightWG := inflightWG p; inputLock := inputLock p;
     shutdownOnce := shutdownOnce p; ctx_done := ctx_done p; inQ := inQ p;
     inWork := inWork p; inFlight := inFlight p; cfg := cfg p |}.
Definition set_workersQ (x : chan) (p : pool U) : pool U :=
  {| inputQ := inputQ p; inputQ_nil := inputQ_nil p; workersQ := x;
     workersQ_nil := workersQ_nil p; errCh := errCh p; workersWG := workersWG p;
     inflightWG := inflightWG p; inputLock := inputLock p;
     shutdownOnce := shutdownOnce p; ctx_done := ctx_done p; inQ := inQ p;
     inWork := inWork p; inFlight := inFlight p; cfg := cfg p |}.
Definition set_workersQ_nil (x : bool) (p : pool U) : pool U :=
  {| inputQ := inputQ p; inputQ_nil := inputQ_nil p; workersQ := workersQ p;
     workersQ_nil := x; errCh := errCh p; workersWG := workersWG p;
     inflightWG := inflightWG p; inputLock := inputLock p;
     shutdownOnce := shutdownOnce p; ctx_done := ctx_done p; inQ := inQ p;
     inWork := inWork p; inFlight := inFlight p; cfg := cfg p |}.
Definition set_errCh (x : chan) (p : pool U) : pool U :=
  {| inputQ := inputQ p; inputQ_nil := inputQ_nil p; workersQ := workersQ p;
     workersQ_nil := workersQ_nil p; errCh := x; workersWG := workersWG p;
     inflightWG := inflightWG p; inputLock := inputLock p;
     shutdownOnce := shutdownOnce p; ctx_done := ctx_done p; inQ := inQ p;
     inWork := inWork p; inFlight := inFlight p; cfg := cfg p |}.
Definition set_workersWG (x : Z) (p : pool U) : pool U :=
  {| inputQ := inputQ p; inputQ_nil := inputQ_nil p; workersQ := workersQ p;
     workersQ_nil := workersQ_nil p; errCh := errCh p; workersWG := x;
     inflightWG := inflightWG p; inputLock := inputLock p;
     shutdownOnce := shutdownOnce p; ctx_done := ctx_done p; inQ := inQ p;
     inWork := inWork p; inFlight := inFlight p; cfg := cfg p |}.
Definition set_inflightWG (x : Z) (p : pool U) : pool U :=
  {| inputQ := inputQ p; inputQ_nil := inputQ_nil p; workersQ := workersQ p;
     workersQ_nil := workersQ_nil p; errCh := errCh p; workersWG := workersWG p;
     inflightWG := x; inputLock := inputLock p;
     shutdownOnce := shutdownOnce p; ctx_done := ctx_done p; inQ := inQ p;
     inWork := inWork p; inFlight := inFlight p; cfg := cfg p |}.
Definition set_inputLock (x : bool) (p : pool U) : pool U :=
  {| inputQ := inputQ p; inputQ_nil := inputQ_nil p; workersQ := workersQ p;
     workersQ_nil := workersQ_nil p; errCh := errCh p; workersWG := workersWG p;
     inflightWG := inflightWG p; inputLock := x;
     shutdownOnce := shutdownOnce p; ctx_done := ctx_done p; inQ := inQ p;
     inWork := inWork p; inFlight := inFlight p; cfg := cfg p |}.
Definition set_shutdownOnce (x : once) (p : pool U) : pool U :=
  {| inputQ := inputQ p; inputQ_nil := inputQ_nil p; workersQ := workersQ p;
     workersQ_nil := workersQ_nil p; errCh := errCh p; workersWG := workersWG p;
     inflightWG := inflightWG p; inputLock := inputLock p;
     shutdownOnce := x; ctx_done := ctx_done p; inQ := inQ p;
     inWork := inWork p; inFlight := inFlight p; cfg := cfg p |}.
Definition set_ctx_done (x : bool) (p : pool U) : pool U :=
  {| inputQ := inputQ p; inputQ_nil := inputQ_nil p; workersQ := workersQ p;
     workersQ_nil := workersQ_nil p; errCh := errCh p; workersWG := workersWG p;
     inflightWG := inflightWG p; inputLock := inputLock p;
     shutdownOnce := shutdownOnce p; ctx_done := x; inQ := inQ p;
     inWork := inWork p; inFlight := inFlight p; cfg := cfg p |}.
Definition set_inQ (x : Z) (p : pool U) : pool U :=
  {| inputQ := inputQ p; inputQ_nil := inputQ_nil p; workersQ := workersQ p;
     workersQ_nil := workersQ_nil p; errCh := errCh p; workersWG := workersWG p;
     inflightWG := inflightWG p; inputLock := inputLock p;
     shutdownOnce := shutdownOnce p; ctx_done := ctx_done p; inQ := x;
     inWork := inWork p; inFlight := inFlight p; cfg := cfg p |}.
Definition set_inWork (x : Z) (p : pool U) : pool U :=
  {| inputQ := inputQ p; inputQ_nil := inputQ_nil p; workersQ := workersQ p;
     workersQ_nil := workersQ_nil p; errCh := errCh p; workersWG := workersWG p;
     inflightWG := inflightWG p; inputLock := inputLock p;
     shutdownOnce := shutdownOnce p; ctx_done := ctx_done p; inQ := inQ p;
     inWork := x; inFlight := inFlight p; cfg := cfg p |}.
Definition set_inFlight (x : Z) (p : pool U) : pool U :=
  {| inputQ := inputQ p; inputQ_nil := inputQ_nil p; workersQ := workersQ p;
     workersQ_nil := workersQ_nil p; errCh := errCh p; workersWG := workersWG p;
     inflightWG := inflightWG p; inputLock := inputLock p;
     shutdownOnce := shutdownOnce p; ctx_done := ctx_done p; inQ := inQ p;
     inWork := inWork p; inFlight := x; cfg := cfg p |}.

(** Everything the goroutines share: the pool, the tasks the caller has
    allocated (a task's identity is its index) and the history. *)
Record world : Type := mkWorld {
  pl : pool U;
  tasks : list (task U);
  history : list event
}.

Definition on_pool (f : pool U → pool U) (w : world) : world :=
  {| pl := f (pl w); tasks := tasks w; history := history w |}.
Definition log (ev : event) (w : world) : world :=
  {| pl := pl w; tasks := tasks w; history := history w ++ [ev] |}.
Definition store (t : nat) (tk : task U) (w : world) : world :=
  {| pl := pl w; tasks := <[t := tk]> (tasks w); history := history w |}.
Definition alloc (tk : task U) (w : world) : world :=
  {| pl := pl w; tasks := tasks w ++ [tk]; history := history w |}.

(** The configuration of the goroutines: thread [i] is at [threads !! i]. *)
Record state : Type := mkState {
  wd : world;
  threads : list pc
}.

(** [inflightWG.Done(); inFlight.Add(-1)] (lines 231-232 and 247-248). *)
Definition task_done (p : pool U) : outcome (pool U) :=
  n ←! wg_add (inflightWG p) (-1);
  Next (set_inFlight (add32 (inFlight p) (-1)) (set_inflightWG n p)).

(** The step of one goroutine on its own: the new program point, the new
    world and the goroutines it starts. *)
Definition thread_step (th : pc) (w : world) : outcome (pc * world * list pc) :=
  let p := pl w in
  match th with
  (* Run *)
  | RunLock =>                          (* p.inputLock.Lock() *)
      if inputLock p then Blocked
      else Next (RunSpawn, on_pool (set_inputLock true) w, [])
  | RunSpawn =>                         (* go p.lobby(); the loop of Add(1); go p.worker(i) *)
      let n := Z.to_nat (Size (cfg p)) in
      Next (RunDone, on_pool (set_workersWG (workersWG p + Z.of_nat n)) w,
            LobbyStart :: replicate n WorkerStart)
  (* lobby *)
  | LobbyStart =>                       (* range p.inputQ: over nil it blocks for ever *)
      if inputQ_nil p then Blocked else Next (LobbyRecv, w, [])
  | LobbyRecv =>                        (* task := <-inputQ; p.inQ.Add(-1) *)
      match buf (inputQ p) with
      | t :: rest =>
          Next (LobbySend t,
                on_pool (λ p, set_inQ (add32 (inQ p) (-1))
                                (set_inputQ (with_buf rest (inputQ p)) p)) w, [])
      | [] => if closed (inputQ p) then Next (LobbyNil, w, []) else Blocked
      end
  | LobbySend t =>                      (* p.workersQ <- task, unbuffered *)
      if workersQ_nil p then Blocked
      else if closed (workersQ p) then Panic "send on closed channel"
      else Blocked
  | LobbyNil =>                         (* p.inputQ = nil *)
      Next (LobbyUnlock, on_pool (set_inputQ_nil true) w, [])
  | LobbyUnlock =>                      (* p.inputLock.Unlock() *)
      if inputLock p then Next (Exit, on_pool (set_inputLock false) w, [])
      else Panic "sync: unlock of unlocked mutex"
  (* worker *)
  | WorkerStart =>                      (* range p.workersQ *)
      if workersQ_nil p then Blocked else Next (WorkerRecv, w, [])
  | WorkerRecv =>                       (* the channel is closed: defer workersWG.Done() *)
      if closed (workersQ p) then
        n ←! wg_add (workersWG p) (-1);
        Next (Exit, on_pool (set_workersWG n) w, [])
      else Blocked
  | WorkerExec t =>                     (* inWork.Add(1); inQ.Add(-1); err := p.f(task); task.SetError(err) *)
      match tasks w !! t with
      | Some tk =>
          let '(tk', e) := execute (cfg p) tk in
          Next (WorkerRoute t e,
                log (EvExecuted t e)
                  (store t tk'
                     (on_pool (λ p, set_inQ (add32 (inQ p) (-1))
                                      (set_inWork (add32 (inWork p) 1) p)) w)),
                [])
      | None => Blocked
      end
  | WorkerRoute t e =>                  (* lines 222-250 *)
      match tasks w !! t with
      | Some tk =>
          let back (w : world) := on_pool (λ p, set_inWork (add32 (inWork p) (-1)) p) w in
          match route (cfg p) (ctx_done p) tk e with
          | Finished =>
              p' ←! task_done p;
              Next (WorkerRecv,
                    back (log (EvFinished t (ErrorCount (header tk))) (on_pool (λ _, p') w)), [])
          | Abandoned => Next (WorkerRecv, back (log (EvAbandoned t) w), [])
          | ToErrCh => Next (WorkerRecv, back w, [ErrSend t])
          | Retry => Next (WorkerRecv, back w, [RetrySend t])
          end
      | None => Blocked
      end
  (* select { case <-p.ctx.Done(): case p.errCh <- task: ... } *)
  | ErrSend t =>
      if ctx_done p then Next (Exit, w, [])
      else if closed (errCh p) then Panic "send on closed channel"
      else Blocked
  | ErrSent t =>                        (* p.inflightWG.Done(); p.inFlight.Add(-1) *)
      p' ←! task_done p; Next (Exit, on_pool (λ _, p') w, [])
  (* select { case <-p.ctx.Done(): case p.workersQ <- task: ... } *)
  | RetrySend t =>
      if ctx_done p then Next (Exit, w, [])
      else if workersQ_nil p then Blocked
      else if closed (workersQ p) then Panic "send on closed channel"
      else Blocked
  | RetrySent t =>                      (* p.inQ.Add(1) *)
      Next (Exit, on_pool (λ p, set_inQ (add32 (inQ p) 1) p) w, [])
  (* Queue *)
  | QueueCheck t =>                     (* if p.inputQ != nil *)
      if inputQ_nil p then Next (QueueDone, w, []) else Next (QueueCount t, w, [])
  | QueueCount t =>                     (* inQ.Add(1); inFlight.Add(1); inflightWG.Add(1) *)
      n ←! wg_add (inflightWG p) 1;
      Next (QueueSend t,
            on_pool (λ p, set_inflightWG n
                            (set_inFlight (add32 (inFlight p) 1)
                               (set_inQ (add32 (inQ p) 1) p))) w, [])
  | QueueSend t =>                      (* p.inputQ <- t *)
      if inputQ_nil p then Blocked
      else if closed (inputQ p) then Panic "send on closed channel"
      else if Z.of_nat (length (buf (inputQ p))) <? cap (inputQ p)
      then Next (QueueDone,
                 on_pool (set_inputQ (with_buf (buf (inputQ p) ++ [t]) (inputQ p))) w, [])
      else Blocked
  (* Shutdown *)
  | SdOnce =>                           (* p.shutdownOnce.Do(...) *)
      match shutdownOnce p with
      | OnceIdle => Next (SdClose, on_pool (set_shutdownOnce OnceRunning) w, [])
      | OnceRunning => Blocked
      | OnceDone => Next (SdDone, w, [])
      end
  | SdClose =>                          (* close(p.inputQ) *)
      if inputQ_nil p then Panic "close of nil channel"
      else c ←! close_chan (inputQ p);
           Next (SdNil, log EvCloseInput (on_pool (set_inputQ c) w), [])
  | SdNil =>                            (* p.inputQ = nil *)
      Next (SdWait, on_pool (set_inputQ_nil true) w, [])
  | SdWait =>                           (* p.inflightWG.Wait() *)
      if inflightWG p =? 0 then Next (SdCloseW, log EvDrained w, []) else Blocked
  | SdCloseW =>                         (* close(p.workersQ) *)
      if workersQ_nil p then Panic "close of nil channel"
      else c ←! close_chan (workersQ p);
           Next (SdNilW, log EvCloseWorkers (on_pool (set_workersQ c) w), [])
  | SdNilW =>                           (* p.workersQ = nil *)
      Next (SdCloseErr, on_pool (set_workersQ_nil true) w, [])
  | SdCloseErr =>                       (* close(p.errCh) *)
      c ←! close_chan (errCh p);
      Next (SdEnd, log EvCloseErr (on_pool (set_errCh c) w), [])
  | SdEnd =>                            (* the function of Do returns *)
      Next (SdDone, on_pool (set_shutdownOnce OnceDone) w, [])
  (* Wait *)
  | WaitLock =>                         (* p.inputLock.Lock() *)
      if inputLock p then Blocked
      else Next (WaitWG, on_pool (set_inputLock true) w, [])
  | WaitWG =>                           (* p.inflightWG.Wait() *)
      if inflightWG p =? 0 then Next (WaitUnlock, w, []) else Blocked
  | WaitUnlock =>                       (* the deferred p.inputLock.Unlock() *)
      if inputLock p then Next (WaitDone, on_pool (set_inputLock false) w, [])
      else Panic "sync: unlock of unlocked mutex"
  (* Cancel *)
  | CancelCall => Next (CancelDone, on_pool (set_ctx_done true) w, [])
  (* ErroredTask: <-p.errCh on a closed channel yields nil *)
  | ErrRecv => if closed (errCh p) then Next (ErrDone None, w, []) else Blocked
  (* ended *)
  | RunDone | QueueDone | SdDone | WaitDone | CancelDone | ErrDone _ | Exit => Blocked
  end.

(** A sender and a receiver meeting on a channel with nothing buffered. *)
Definition sync_step (snd rcv : pc) (w : world) : outcome (pc * pc * world) :=
  let p := pl w in
  match snd, rcv with
  | QueueSend t, LobbyRecv =>           (* p.inputQ <- t  meets  range p.inputQ *)
      if inputQ_nil p || closed (inputQ p) then Blocked
      else match buf (inputQ p) with
           | [] => Next (QueueDone, LobbySend t,
                         on_pool (λ p, set_inQ (add32 (inQ p) (-1)) p) w)
           | _ :: _ => Blocked
           end
  | LobbySend t, WorkerRecv =>          (* p.workersQ <- task  meets  range p.workersQ *)
      if workersQ_nil p || closed (workersQ p) then Blocked
      else Next (LobbyRecv, WorkerExec t, w)
  | RetrySend t, WorkerRecv =>
      if workersQ_nil p || closed (workersQ p) then Blocked
      else Next (RetrySent t, WorkerExec t, w)
  | ErrSend t, ErrRecv =>               (* p.errCh <- task  meets  <-p.errCh *)
      if closed (errCh p) then Blocked
      else match tasks w !! t with
           | Some tk => Next (ErrSent t, ErrDone (Some t),
                              log (EvDelivered t (ErrorCount (header tk))) w)
           | None => Blocked
           end
  | _, _ => Blocked
  end.

(** What can happen next. *)
Inductive action : Type :=
| Call (m : method)          (* the caller starts a call in a goroutine of its own *)
| NewTask (u : U)            (* the caller allocates a task *)
| ParentDone                 (* the context given to NewPool is cancelled *)
| Go (i : nat)               (* goroutine i takes its step *)
| Sync (i j : nat).          (* sender i and receiver j meet *)

Definition step (a : action) (s : state) : outcome state :=
  match a with
  | Call m =>
      match m with
      | MQueue t =>
          if decide (t < length (tasks (wd s)))%nat
          then Next {| wd := wd s; threads := threads s ++ [entry m] |}
          else Blocked
      | _ => Next {| wd := wd s; threads := threads s ++ [entry m] |}
      end
  | NewTask u => Next {| wd := alloc (newTask u) (wd s); threads := threads s |}
  | ParentDone => Next {| wd := on_pool (set_ctx_done true) (wd s); threads := threads s |}
  | Go i =>
      match threads s !! i with
      | Some th =>
          r ←! thread_step th (wd s);
          Next {| wd := r.1.2; threads := <[i := r.1.1]> (threads s) ++ r.2 |}
      | None => Blocked
      end
  | Sync i j =>
      if decide (i = j) then Blocked
      else match threads s !! i, threads s !! j with
           | Some a, Some b =>
               r ←! sync_step a b (wd s);
               Next {| wd := r.2; threads := <[j := r.1.2]> (<[i := r.1.1]> (threads s)) |}
           | _, _ => Blocked
           end
  end.

(** Running a schedule. *)
Fixpoint run (acts : list action) (s : state) : outcome state :=
  match acts with
  | [] => Next s
  | a :: acts => s' ←! step a s; run acts s'
  end.

(** The state right after [NewPool] returned [p]. *)
Definition init (p : pool U) : state :=
  {| wd := {| pl := p; tasks := []; history := [] |}; threads := [] |}.

Inductive reachable (p : pool U) : state → Prop :=
| reach_init : reachable p (init p)
| reach_step a s s' : reachable p s → step a s = Next s' → reachable p s'.

End Machine.

Arguments world : clear implicits.
Arguments state : clear implicits.
Arguments action : clear implicits.

(** ** Classifying program points and histories *)

(** The goroutines that hold [inputLock]: [Run] between its [Lock] and the
    start of the lobby, the lobby until its [Unlock], [Wait] between its
    [Lock] and its deferred [Unlock]. *)
Definition holds_lock (th : pc) : bool :=
  match th with
  | RunSpawn | LobbyStart | LobbyRecv | LobbySend _ | LobbyNil | LobbyUnlock
  | WaitWG | WaitUnlock => true
  | _ => false
  end.

(** Inside the function given to [shutdownOnce.Do]. *)
Definition in_body (th : pc) : bool :=
  match th with
  | SdClose | SdNil | SdWait | SdCloseW | SdNilW | SdCloseErr | SdEnd => true
  | _ => false
  end.

(** The lobby before it has seen its channel closed. *)
Definition lobby_live (th : pc) : bool :=
  match th with
  | LobbyStart | LobbyRecv | LobbySend _ => true
  | _ => false
  end.

(** Program points that are only reached once [p.inputQ] has been closed. *)
Definition after_close (th : pc) : bool :=
  match th with
  | SdNil | SdWait | SdCloseW | SdNilW | SdCloseErr | SdEnd
  | LobbyNil | LobbyUnlock => true
  | _ => false
  end.

(** [Shutdown] past its line 187, [p.inputQ = nil]. *)
Definition after_nil (th : pc) : bool :=
  match th with
  | SdWait | SdCloseW | SdNilW | SdCloseErr | SdEnd => true
  | _ => false
  end.

(** A call of [Wait]. *)
Definition is_wait (th : pc) : bool :=
  match th with
  | WaitLock | WaitWG | WaitUnlock | WaitDone => true
  | _ => false
  end.

(** The number of threads of a kind. *)
Fixpoint weight (f : pc → bool) (l : list pc) : nat :=
  match l with
  | [] => 0
  | th :: l => Nat.b2n (f th) + weight f l
  end.

Definition running (o : once) : bool :=
  match o with OnceRunning => true | _ => false end.

(** The drain-and-close sequence of [Shutdown], and its part in a history. *)
Definition shutdown_body : list event :=
  [EvCloseInput; EvDrained; EvCloseWorkers; EvCloseErr].

Definition is_sd_event (e : event) : bool :=
  match e with
  | EvCloseInput | EvDrained | EvCloseWorkers | EvCloseErr => true
  | _ => false
  end.

Definition sd_events (h : list event) : list event :=
  filter (λ e, is_sd_event e = true) h.

(** What of the sequence has executed when [Shutdown] is at a program point. *)
Definition progress (th : pc) : list event :=
  match th with
  | SdNil | SdWait => [EvCloseInput]
  | SdCloseW => [EvCloseInput; EvDrained]
  | SdNilW | SdCloseErr => [EvCloseInput; EvDrained; EvCloseWorkers]
  | SdEnd => shutdown_body
  | _ => []
  end.

Section Invariant.

Context {U : Type}.

(** What a thread's program point says about the shared state. *)
Definition local_ok (th : pc) (w : world U) : Prop :=
  (in_body th = true →
     shutdownOnce (pl w) = OnceRunning ∧ sd_events (history w) = progress th)
  ∧ (th = SdDone → shutdownOnce (pl w) = OnceDone)
  ∧ (after_close th = true → closed (inputQ (pl w)) = true)
  ∧ (after_nil th = true → inputQ_nil (pl w) = true).

(** What the state of [shutdownOnce] says about the shared state. *)
Definition once_ok (w : world U) : Prop :=
  (shutdownOnce (pl w) = OnceIdle →
     sd_events (history w) = [] ∧ closed (inputQ (pl w)) = false)
  ∧ (shutdownOnce (pl w) = OnceDone →
     sd_events (history w) = shutdown_body
     ∧ closed (inputQ (pl w)) = true ∧ inputQ_nil (pl w) = true).

(** The invariant of the reachable states. *)
Record inv (s : state U) : Prop := mkInv {
  inv_lock : weight holds_lock (threads s) = Nat.b2n (inputLock (pl (wd s)));
  inv_body : weight in_body (threads s) = Nat.b2n (running (shutdownOnce (pl (wd s))));
  inv_local : ∀ i th, threads s !! i = Some th → local_ok th (wd s);
  inv_once : once_ok (wd s);
  inv_lobby :
    (∃ r, threads s !! r = Some RunDone) →
    closed (inputQ (pl (wd s))) = false →
    ∃ j th, threads s !! j = Some th ∧ lobby_live th = true
}.

(** The flags that only ever go up: a closed channel stays closed, a field
    set to nil stays nil, and [shutdownOnce] does not go back. *)
Definition flags_le (w w' : world U) : Prop :=
  (closed (inputQ (pl w)) = true → closed (inputQ (pl w')) = true)
  ∧ (inputQ_nil (pl w) = true → inputQ_nil (pl w') = true)
  ∧ (shutdownOnce (pl w) = OnceDone → shutdownOnce (pl w') = OnceDone)
  ∧ (shutdownOnce (pl w') = OnceIdle → shutdownOnce (pl w) = OnceIdle).

(** Some call of [Shutdown] has gone past [p.inputQ = nil], or [Shutdown]
    has completed. *)
Definition admission_shut (s : state U) : Prop :=
  shutdownOnce (pl (wd s)) = OnceDone
  ∨ ∃ j th, threads s !! j = Some th ∧ after_nil th = true.

End Invariant.

(** ** The life of one task in the pool *)

(** The threads that hold a task on its way through the pool. *)
Definition carries (t : nat) (th : pc) : bool :=
  match th with
  | QueueCheck t' | QueueCount t' | QueueSend t' | LobbySend t' | WorkerExec t'
  | WorkerRoute t' _ | RetrySend t' | ErrSend t' => bool_decide (t' = t)
  | _ => false
  end.

(** The events of a task: its executions, and its terminal events. *)
Definition ev_executed (t : nat) (e : event) : bool :=
  match e with EvExecuted t' _ => bool_decide (t' = t) | _ => false end.
Definition ev_ended (t : nat) (e : event) : bool :=
  match e with
  | EvFinished t' _ | EvDelivered t' _ => bool_decide (t' = t)
  | _ => false
  end.
(** The number of events of a kind in a history, and the number of times a
    task is buffered in a channel. *)
Definition count_ev (f : event → bool) (h : list event) : nat :=
  length (filter (λ e, f e = true) h).
Definition in_chan (t : nat) (c : chan) : nat :=
  length (filter (λ x, x = t) (buf c)).

Section LifeDefs.

Context {U : Type}.

(** The task after [n] executions, the routing of its execution number [n]
    (from 0) when the context is not done, and "the first [n] executions
    were all routed to a retry". *)
Definition iter_task (c : PoolConfig U) (u : U) (n : nat) : task U :=
  Nat.iter n (λ tk, (execute c tk).1) (newTask u).
Definition nth_route (c : PoolConfig U) (u : U) (n : nat) : routing :=
  (attempt c false (iter_task c u n)).2.
Definition retried (c : PoolConfig U) (u : U) (n : nat) : Prop :=
  ∀ j, (j < n)%nat → nth_route c u j = Retry.

(** The places a task is in: a thread that holds it, the buffer of the
    admission queue, or a terminal event of the history. *)
Definition wtok (t : nat) (w : world U) : nat :=
  (in_chan t (inputQ (pl w)) + count_ev (ev_ended t) (history w))%nat.
Definition tokens (t : nat) (s : state U) : nat :=
  (weight (carries t) (threads s) + wtok t (wd s))%nat.
Definition executions (t : nat) (w : world U) : nat :=
  count_ev (ev_executed t) (history w).

(** What the program point of the thread that holds the task says about
    the [n] executions so far. *)
Definition stage_ok (c : PoolConfig U) (u : U) (n : nat) (th : pc) : Prop :=
  match th with
  | QueueCheck _ | QueueCount _ | QueueSend _ | LobbySend _ => n = O
  | WorkerExec _ | RetrySend _ => retried c u n
  | WorkerRoute _ e =>
      ∃ m, n = S m ∧ retried c u m ∧ e = (execute c (iter_task c u m)).2
  | ErrSend _ => ∃ m, n = S m ∧ retried c u m ∧ nth_route c u m = ToErrCh
  | _ => True
  end.

(** What a terminal event says about them. *)
Definition ended_ok (c : PoolConfig U) (u : U) (n : nat) (e : event) : Prop :=
  ∃ m, n = S m ∧ retried c u m
       ∧ match e with
         | EvDelivered _ x =>
             nth_route c u m = ToErrCh ∧ x = ErrorCount (header (iter_task c u n))
         | EvFinished _ x =>
             nth_route c u m = Finished ∧ x = ErrorCount (header (iter_task c u n))
         | _ => True
         end.

(** The invariant of the life of task [t], created with user fields [u] and
    passed to [Queue] [k] times so far. *)
Record life_inv (c : PoolConfig U) (u : U) (t : nat) (k : nat) (s : state U) : Prop := {
  li_cfg : cfg (pl (wd s)) = c;
  li_tokens : (tokens t s ≤ k)%nat;
  li_task : tasks (wd s) !! t = Some (iter_task c u (executions t (wd s)));
  li_fresh : k = O → executions t (wd s) = O;
  li_local : ∀ i th, threads s !! i = Some th → carries t th = true →
             stage_ok c u (executions t (wd s)) th;
  li_buf : (1 ≤ in_chan t (inputQ (pl (wd s))))%nat → executions t (wd s) = O;
  li_hist : ∀ e, e ∈ history (wd s) → ev_ended t e = true →
            ended_ok c u (executions t (wd s)) e;
  li_retried : retried c u (pred (executions t (wd s)))
}.

(** The calls of [Queue] on a task in a schedule. *)
Definition is_call (t : nat) (a : action U) : bool :=
  match a with Call (MQueue t') => bool_decide (t' = t) | _ => false end.
Definition calls (t : nat) (acts : list (action U)) : nat :=
  length (filter (λ a, is_call t a = true) acts).
End LifeDefs.


(** ** Accounting of the tasks and goroutines of the pool *)

(** The threads that hold a task that [inflightWG] counts: from line 178 of
    [Queue] to the [Done] of lines 231 and 247. *)
Definition counted (th : pc) : bool :=
  match th with
  | QueueSend _ | LobbySend _ | WorkerExec _ | WorkerRoute _ _
  | RetrySend _ | ErrSend _ | ErrSent _ => true
  | _ => false
  end.

(** Those of them past the send of [Queue]. *)
Definition inner (th : pc) : bool :=
  match th with
  | LobbySend _ | WorkerExec _ | WorkerRoute _ _
  | RetrySend _ | ErrSend _ | ErrSent _ => true
  | _ => false
  end.

(** The goroutines of [worker] that have not returned. *)
Definition is_worker (th : pc) : bool :=
  match th with
  | WorkerStart | WorkerRecv | WorkerExec _ | WorkerRoute _ _ => true
  | _ => false
  end.

(** The calls of [Run] that have returned. *)
Definition run_done (th : pc) : bool :=
  match th with RunDone => true | _ => false end.

Definition ev_abandoned (e : event) : bool :=
  match e with EvAbandoned _ => true | _ => false end.

Section AcctDefs.

Context {U : Type}.

(** The tasks admitted and not yet at a terminal outcome: held by a thread
    or buffered in the admission queue; and those of them past the send of
    [Queue]. *)
Definition pending (s : state U) : nat :=
  (weight counted (threads s) + length (buf (inputQ (pl (wd s)))))%nat.
Definition inside (s : state U) : nat :=
  (weight inner (threads s) + length (buf (inputQ (pl (wd s)))))%nat.

(** The failed executions that a worker dropped because the context was
    done. *)
Definition abandoned (w : world U) : nat := count_ev ev_abandoned (history w).

(** How far the sequence of [Shutdown] has got. *)
Definition sd_len (w : world U) : nat := length (sd_events (history w)).

(** The channels and the fields set to nil follow the sequence of
    [Shutdown]. *)
Record flags_ok (w : world U) : Prop := {
  fo_closed_input : closed (inputQ (pl w)) = true ↔ (1 ≤ sd_len w)%nat;
  fo_closed_workers : closed (workersQ (pl w)) = true ↔ (3 ≤ sd_len w)%nat;
  fo_closed_err : closed (errCh (pl w)) = true ↔ (4 ≤ sd_len w)%nat;
  fo_nil_input : inputQ_nil (pl w) = true → (1 ≤ sd_len w)%nat;
  fo_nil_workers : workersQ_nil (pl w) = true → (3 ≤ sd_len w)%nat;
  fo_drained_nil : (2 ≤ sd_len w)%nat → inputQ_nil (pl w) = true
}.

(** The invariant of the counters. *)
Record acct (s : state U) : Prop := {
  ac_inflight :
    Z.of_nat (pending s) + Z.of_nat (abandoned (wd s)) ≤ inflightWG (pl (wd s));
  ac_exact :
    ctx_done (pl (wd s)) = false → inflightWG (pl (wd s)) = Z.of_nat (pending s);
  ac_workers : workersWG (pl (wd s)) = Z.of_nat (weight is_worker (threads s));
  ac_size :
    closed (workersQ (pl (wd s))) = false →
    weight is_worker (threads s)
    = (weight run_done (threads s) * Z.to_nat (Size (cfg (pl (wd s)))))%nat;
  ac_flags : flags_ok (wd s);
  ac_drained : (2 ≤ sd_len (wd s))%nat → inside s = O ∧ abandoned (wd s) = O;
  ac_nil_result :
    ∀ i, threads s !! i = Some (ErrDone None) → (4 ≤ sd_len (wd s))%nat
}.

(** A task that has been executed is somewhere in the pool or at a terminal
    outcome, as long as the context is not done. *)
Definition kept (t : nat) (s : state U) : Prop :=
  ctx_done (pl (wd s)) = false →
  (1 ≤ executions t (wd s))%nat → (1 ≤ tokens t s)%nat.

End AcctDefs.

(** ** Concrete configurations and schedules for the examples *)

(** An error value. *)
Definition boom : error := "boom".

(** A 64-bit runtime with four processors. *)
Definition rt64 : Runtime := {| GOMAXPROCS := 4; chanCapLimit := 2 ^ 44 |}.

(** A user function that fails as many times as its task says and then
    succeeds, and one that always fails (the tasks of pool_test.go carry
    such a counter in their own fields). *)
Definition countdown (u : nat) : nat * option error :=
  match u with
  | O => (O, None)
  | S n => (n, Some "retry"%string)
  end.
Definition failing (u : nat) : nat * option error := (S u, Some "failed"%string).

(** The configuration of both tests: [{LobbySize: 0, Size: 2, Retries: 2}]. *)
Definition cfg_test (f : nat → nat * option error) : PoolConfig nat :=
  {| LobbySize := 0; Size := 2; Retries := 2; Func := f |}.

(** The pool [NewPool] builds from it. *)
Definition pool_test (f : nat → nat * option error) : pool nat :=
  {| inputQ := {| buf := []; cap := 0; closed := false |}; inputQ_nil := false;
     workersQ := {| buf := []; cap := 0; closed := false |}; workersQ_nil := false;
     errCh := {| buf := []; cap := 0; closed := false |};
     workersWG := 0; inflightWG := 0; inputLock := false;
     shutdownOnce := OnceIdle; ctx_done := false;
     inQ := 0; inWork := 0; inFlight := 0;
     cfg := cfg_test f |}.

(** The configuration [{LobbySize: 0, Size: 2, Retries: -5}] with the
    always-failing function, and the pool [NewPool] builds from it. *)
Definition cfg_negative : PoolConfig nat :=
  {| LobbySize := 0; Size := 2; Retries := -5; Func := failing |}.
Definition pool_negative : pool nat :=
  {| inputQ := {| buf := []; cap := 0; closed := false |}; inputQ_nil := false;
     workersQ := {| buf := []; cap := 0; closed := false |}; workersQ_nil := false;
     errCh := {| buf := []; cap := 0; closed := false |};
     workersWG := 0; inflightWG := 0; inputLock := false;
     shutdownOnce := OnceIdle; ctx_done := false;
     inQ := 0; inWork := 0; inFlight := 0;
     cfg := {| LobbySize := 0; Size := 2; Retries := -1; Func := failing |} |}.

(** [Run]: goroutine 0 is the call, 1 the lobby, 2 and 3 the workers, which
    all take their first step. *)
Definition sched_setup : list (action nat) :=
  [ Call MRun; Go 0; Go 0; Go 1; Go 2; Go 3 ]%nat.

(** [Queue] of task 0 (goroutine 4), which the lobby forwards to worker 2. *)
Definition sched_queue_task : list (action nat) :=
  [ Call (MQueue 0); Go 4; Go 4; Sync 4 1; Sync 1 2 ]%nat.

(** Then worker 2 executes and routes the task, starting the resubmission
    (goroutine 5), which worker 3 receives, executes and routes. *)
Definition sched_two_executions : list (action nat) :=
  sched_queue_task ++ [ Go 2; Go 2; Sync 5 3; Go 5; Go 3; Go 3 ]%nat.

(** Then the hand-off to the error queue (goroutine 6) meets a call of
    [ErroredTask] (goroutine 7). *)
Definition sched_delivery : list (action nat) :=
  sched_two_executions ++ [ Call MErroredTask; Sync 6 7; Go 6 ]%nat.

(** One task that fails once and then succeeds, worked off. *)
Definition sched_one_task : list (action nat) :=
  sched_setup ++ NewTask 1%nat :: sched_two_executions.

(** After that, a call of [Wait] (goroutine 6). *)
Definition sched_wait : list (action nat) :=
  sched_one_task ++ [ Call MWait ].

(** One always-failing task, worked off and received from the error queue. *)
Definition sched_failing : list (action nat) :=
  sched_setup ++ NewTask 0%nat :: sched_delivery.

(** One task that fails twice before it would succeed, under the same
    schedule. *)
Definition sched_retry2 : list (action nat) :=
  sched_setup ++ NewTask 2%nat :: sched_delivery.

(** One always-failing task under the ceiling -1: after its first execution
    worker 2 starts the hand-off to the error queue (goroutine 5), which
    meets a call of [ErroredTask] (goroutine 6). *)
Definition sched_negative_task : list (action nat) :=
  sched_queue_task ++ [ Go 2; Go 2; Call MErroredTask; Sync 5 6; Go 5 ]%nat.
Definition sched_negative : list (action nat) :=
  sched_setup ++ NewTask 0%nat :: sched_negative_task.

(** [Run], then two calls of [Shutdown] (goroutines 4 and 5) that both
    return. *)
Definition sched_shutdown_twice : list (action nat) :=
  sched_setup ++
  [ Call MShutdown; Call MShutdown;
    Go 4; Go 4; Go 4; Go 4; Go 4; Go 4; Go 4; Go 4; Go 5 ]%nat.

(** [Run], then a [Shutdown] (goroutine 4) that has closed the admission
    queue and set the field to nil, then a call of [Queue] (goroutine 5). *)
Definition sched_queue_late : list (action nat) :=
  sched_setup ++
  [ NewTask 0%nat; Call MShutdown; Go 4; Go 4; Go 4; Call (MQueue 0) ]%nat.

(** The states the example schedules lead to. *)
Definition state_of (p : pool nat) (acts : list (action nat)) : state nat :=
  match run acts (init p) with
  | Next s => s
  | _ => init p
  end.
Definition state_setup (f : nat → nat * option error) : state nat :=
  Eval vm_compute in state_of (pool_test f) sched_setup.
Definition state_setup_negative : state nat :=
  Eval vm_compute in state_of pool_negative sched_setup.
Definition state_wait : state nat :=
  Eval vm_compute in state_of (pool_test countdown) sched_wait.
Definition state_failing : state nat :=
  Eval vm_compute in state_of (pool_test failing) sched_failing.
Definition state_retry2 : state nat :=
  Eval vm_compute in state_of (pool_test countdown) sched_retry2.
Definition state_negative : state nat :=
  Eval vm_compute in state_of pool_negative sched_negative.
Definition state_shutdown_twice : state nat :=
  Eval vm_compute in state_of (pool_test countdown) sched_shutdown_twice.
Definition state_queue_late : state nat :=
  Eval vm_compute in state_of (pool_test countdown) sched_queue_late.

(** One task queued and handed to worker 2, which has not executed it yet. *)
Definition sched_queued : list (action nat) :=
  sched_setup ++ NewTask 1%nat :: sched_queue_task.


(** Worker 2 executes a task that fails; [Cancel] (goroutine 5) runs before
    the worker looks at the context; then [Shutdown] (goroutine 6) goes up to
    its wait. *)
Definition sched_abandoned : list (action nat) :=
  sched_queued ++
  [ Go 2; Call MCancel; Go 5; Go 2; Call MShutdown; Go 6; Go 6; Go 6 ]%nat.

(** A complete [Shutdown] (goroutine 4), then a call of [ErroredTask]
    (goroutine 5). *)
Definition sched_nil_result : list (action nat) :=
  sched_setup ++
  [ Call MShutdown; Go 4; Go 4; Go 4; Go 4; Go 4; Go 4; Go 4; Go 4;
    Call MErroredTask; Go 5 ]%nat.

(** One task worked off, then [Shutdown] (goroutine 6) up to the end of its
    wait. *)
Definition sched_drain : list (action nat) :=
  sched_two_executions ++ [ Call MShutdown; Go 6; Go 6; Go 6; Go 6 ]%nat.
Definition sched_graceful : list (action nat) :=
  sched_setup ++ NewTask 1%nat :: sched_drain.

(** [Run], then a second call of [Run] (goroutine 4). *)
Definition sched_run_twice : list (action nat) := sched_setup ++ [ Call MRun ].

Definition state_queued : state nat :=
  Eval vm_compute in state_of (pool_test countdown) sched_queued.
Definition state_abandoned : state nat :=
  Eval vm_compute in state_of (pool_test countdown) sched_abandoned.
Definition state_nil_result : state nat :=
  Eval vm_compute in state_of (pool_test countdown) sched_nil_result.
Definition state_graceful : state nat :=
  Eval vm_compute in state_of (pool_test countdown) sched_graceful.
Definition state_run_twice : state nat :=
  Eval vm_compute in state_of (pool_test countdown) sched_run_twice.

(** A configuration that asks for too many workers and a ceiling below -1,
    and the pool [NewPool] builds from it. *)
Definition cfg_big : PoolConfig nat :=
  {| LobbySize := 0; Size := 1000; Retries := -7; Func := countdown |}.
Definition pool_clamped : pool nat :=
  {| inputQ := {| buf := []; cap := 0; closed := false |}; inputQ_nil := false;
     workersQ := {| buf := []; cap := 0; closed := false |}; workersQ_nil := false;
     errCh := {| buf := []; cap := 0; closed := false |};
     workersWG := 0; inflightWG := 0; inputLock := false;
     shutdownOnce := OnceIdle; ctx_done := false;
     inQ := 0; inWork := 0; inFlight := 0;
     cfg := {| LobbySize := 0; Size := 128; Retries := -1; Func := countdown |} |}.

(** * Theorems *)

(** ** Machine integers *)

Ltac int_lia :=
  unfold is_int, min_int, max_int, ErrorCount in *; simpl in *; lia.

Lemma wrap_int_id z : is_int z → wrap_int z = z.
Proof.
  unfold is_int, wrap_int, min_int, max_int. intros H.
  rewrite Z.mod_small; lia.
Qed.

Lemma wrap_int_succ z : min_int ≤ z < max_int → wrap_int (z + 1) = z + 1.
Proof. intros H. apply wrap_int_id. unfold is_int. lia. Qed.

(** ** TaskHeader *)

Lemma record_all_snoc es e t :
  record_all (es ++ [e]) t = SetError e (record_all es t).
Proof. unfold record_all. by rewrite foldl_snoc. Qed.

Lemma record_all_app es1 es2 t :
  record_all (es1 ++ es2) t = record_all es2 (record_all es1 t).
Proof. unfold record_all. by rewrite foldl_app. Qed.

Lemma non_nil_nonneg es : 0 ≤ non_nil es.
Proof. unfold non_nil. lia. Qed.

Lemma non_nil_cons e es :
  non_nil (e :: es) = (if e is Some _ then 1 else 0) + non_nil es.
Proof.
  unfold non_nil. destruct e.
  - rewrite filter_cons_True by eauto. simpl. lia.
  - rewrite filter_cons_False by (by intros [??]). lia.
Qed.

Lemma non_nil_app es1 es2 : non_nil (es1 ++ es2) = non_nil es1 + non_nil es2.
Proof. unfold non_nil. rewrite filter_app, length_app. lia. Qed.

Lemma SetError_Err e t : Err (SetError e t) = e.
Proof. by destruct e. Qed.

Lemma SetError_count_nil t : ErrorCount (SetError None t) = ErrorCount t.
Proof. done. Qed.

Lemma SetError_count_wrap e t :
  ErrorCount (SetError (Some e) t) = wrap_int (ErrorCount t + 1).
Proof. done. Qed.

Lemma SetError_count_succ e t :
  min_int ≤ ErrorCount t < max_int →
  ErrorCount (SetError (Some e) t) = ErrorCount t + 1.
Proof. intros H. rewrite SetError_count_wrap. by apply wrap_int_succ. Qed.

(** Without overflow the counter after a sequence of recordings is the
    counter before plus the number of non-nil errors. *)
Lemma record_all_count es : ∀ t,
  min_int ≤ ErrorCount t → ErrorCount t + non_nil es ≤ max_int →
  ErrorCount (record_all es t) = ErrorCount t + non_nil es.
Proof.
  induction es as [|e es IH]; intros t Hlo Hhi.
  - unfold non_nil. simpl. lia.
  - rewrite non_nil_cons in Hhi |- *. pose proof (non_nil_nonneg es).
    change (record_all (e :: es) t) with (record_all es (SetError e t)).
    destruct e as [x|].
    + rewrite IH; rewrite ?SetError_count_succ; lia.
    + rewrite IH; rewrite ?SetError_count_nil; lia.
Qed.

Lemma record_all_Err es : ∀ t, Err (record_all es t) = last_recorded (Err t) es.
Proof.
  induction es as [|e es IH] using rev_ind; intros t; [done|].
  rewrite record_all_snoc, SetError_Err. unfold last_recorded.
  by rewrite last_snoc.
Qed.

(** The header with the largest counter is what [max_int] failed recordings
    leave behind. *)
Lemma record_all_replicate (n : nat) (x : error) :
  Z.of_nat n ≤ max_int →
  ErrorCount (record_all (replicate n (Some x)) zeroTaskHeader) = Z.of_nat n.
Proof.
  intros Hn. rewrite record_all_count.
  - unfold non_nil. simpl.
    assert (filter (λ e : option error, is_Some e) (replicate n (Some x))
            = replicate n (Some x)) as ->.
    { clear Hn. induction n as [|n IH]; [done|]. simpl.
      rewrite filter_cons_True by eauto. by rewrite IH. }
    rewrite length_replicate. lia.
  - unfold min_int. simpl. lia.
  - unfold non_nil. simpl.
    pose proof (length_filter (λ e : option error, is_Some e) (replicate n (Some x))) as Hl.
    rewrite length_replicate in Hl. lia.
Qed.

(** C6 (as amended).  Recording a non-nil error makes it the last error and
    adds one to the counter in Go's [int] arithmetic, which is a true
    increment when the counter is below the largest [int]; recording nil sets
    the last error to nil and leaves the counter alone; the counter never
    decreases along a sequence of recordings that does not overflow it. *)
Theorem SetError_counter (t : TaskHeader) :
  is_int (ErrorCount t) →
  (∀ e, Err (SetError (Some e) t) = Some e
        ∧ ErrorCount (SetError (Some e) t) = wrap_int (ErrorCount t + 1)
        ∧ (ErrorCount t < max_int →
           ErrorCount (SetError (Some e) t) = ErrorCount t + 1))
  ∧ (Err (SetError None t) = None
     ∧ ErrorCount (SetError None t) = ErrorCount t)
  ∧ (∀ es1 es2, ErrorCount t + non_nil (es1 ++ es2) ≤ max_int →
       ErrorCount (record_all es1 t) ≤ ErrorCount (record_all (es1 ++ es2) t)).
Proof.
  intros [Hlo Hhi]. split; [|split].
  - intros e. repeat split. intros Hlt. apply SetError_count_succ. lia.
  - done.
  - intros es1 es2 Hsum. rewrite non_nil_app in Hsum.
    pose proof (non_nil_nonneg es1). pose proof (non_nil_nonneg es2).
    rewrite record_all_app.
    rewrite (record_all_count es2); rewrite ?record_all_count; lia.
Qed.

Lemma SetError_counter_witness :
  is_int (ErrorCount zeroTaskHeader)
  ∧ ErrorCount (SetError (Some boom) zeroTaskHeader) = 1
  ∧ ErrorCount (record_all [Some boom; None] zeroTaskHeader)
    ≤ ErrorCount (record_all ([Some boom; None] ++ [Some boom]) zeroTaskHeader).
Proof.
  assert (is_int (ErrorCount zeroTaskHeader)) as H0
    by (unfold is_int, min_int, max_int; simpl; lia).
  split; [exact H0|].
  destruct (SetError_counter zeroTaskHeader H0) as (Hs & _ & Hm).
  split.
  - destruct (Hs boom) as (_ & _ & Hc). apply Hc.
    unfold max_int. simpl. lia.
  - apply Hm. vm_compute. discriminate.
Defined.

(** C6, as stated, fails at the largest counter: one more failed recording
    wraps it around to the least [int], so the counter decreases.  That
    counter is what [max_int] failed recordings on the zero header leave. *)
Lemma SetError_counter_overflows :
  (let t := {| retries := max_int; err := Some boom |} in
   ErrorCount (SetError (Some boom) t) = min_int
   ∧ ErrorCount (SetError (Some boom) t) < ErrorCount t)
  ∧ (let es := replicate (Z.to_nat max_int) (Some boom) in
     ErrorCount (record_all es zeroTaskHeader) = max_int
     ∧ ErrorCount (record_all (es ++ [Some boom]) zeroTaskHeader)
       < ErrorCount (record_all es zeroTaskHeader)).
Proof.
  split; [split; [reflexivity | vm_compute; reflexivity]|].
  intros es.
  assert (Z.of_nat (Z.to_nat max_int) = max_int) as Hn
      by (apply Z2Nat.id; unfold max_int; lia).
  assert (ErrorCount (record_all es zeroTaskHeader) = max_int) as Hc.
  { unfold es. rewrite record_all_replicate; lia. }
  split; [exact Hc|].
  rewrite record_all_snoc, SetError_count_wrap, Hc.
  change (wrap_int (max_int + 1)) with min_int.
  unfold min_int, max_int. lia.
Qed.

(** C9.  [Unwrap] returns what [Err] returns: after any sequence of
    [SetError] calls both are the error set last, and nil on a header on
    which none was set. *)
Theorem Unwrap_is_Err (t : TaskHeader) (es : list (option error)) :
  Unwrap (record_all es t) = Err (record_all es t)
  ∧ Err (record_all es t) = last_recorded (Err t) es
  ∧ Unwrap zeroTaskHeader = None ∧ Err zeroTaskHeader = None.
Proof. split; [done|]. split; [apply record_all_Err | done]. Qed.

(** ** Construction *)

Section Construction.

Context {U : Type}.
Implicit Types (c : PoolConfig U) (p : pool U) (rt : Runtime).

(** The three conditions of lines 125-133, in the order of the code. *)
Ltac norm_cases c :=
  destruct (Size c <? 1) eqn:HS; simpl;
  destruct (wrap_int (GOMAXPROCS _ * 32) <? _) eqn:HW; simpl;
  destruct (Retries c <? -1) eqn:HR; simpl.

(** The configuration [NewPool] stores, whenever it returns a pool. *)
Lemma NewPool_inv rt c p :
  NewPool rt c = Next p →
  LobbySize (cfg p) = LobbySize c
  ∧ Func (cfg p) = Func c
  ∧ Retries (cfg p) = (if Retries c <? -1 then -1 else Retries c)
  ∧ Size (cfg p) =
      (let n := if Size c <? 1 then 1 else Size c in
       if wrap_int (GOMAXPROCS rt * 32) <? n then wrap_int (GOMAXPROCS rt * 32) else n)
  ∧ inputQ p = {| buf := []; cap := LobbySize c; closed := false |}
  ∧ workersQ p = {| buf := []; cap := 0; closed := false |}
  ∧ errCh p = {| buf := []; cap := 0; closed := false |}
  ∧ inputQ_nil p = false ∧ workersQ_nil p = false
  ∧ inputLock p = false ∧ shutdownOnce p = OnceIdle ∧ ctx_done p = false
  ∧ inflightWG p = 0 ∧ workersWG p = 0
  ∧ inQ p = 0 ∧ inWork p = 0 ∧ inFlight p = 0.
Proof.
  unfold NewPool, make_chan. norm_cases c; intros H;
    repeat match type of H with
           | context [if ?b then Panic _ else _] =>
               destruct b eqn:?; simpl in H; [discriminate|]
           end;
    injection H as <-; simpl; rewrite ?HS, ?HW; done.
Qed.

(** C8.  [NewPool] returns a pool and no error: a worker count below 1
    becomes 1, one above 32 times [GOMAXPROCS] becomes that ceiling, one in
    between is kept; a retry ceiling below -1 becomes -1 and any other is
    kept; the capacity of the admission queue is the [LobbySize] given. *)
Theorem NewPool_normalizes rt c :
  1 ≤ GOMAXPROCS rt → GOMAXPROCS rt * 32 ≤ max_int →
  0 ≤ LobbySize c ≤ chanCapLimit rt →
  ∃ p, NewPool rt c = Next p
    ∧ (Size c < 1 → Size (cfg p) = 1)
    ∧ (GOMAXPROCS rt * 32 < Size c → Size (cfg p) = GOMAXPROCS rt * 32)
    ∧ (1 ≤ Size c ≤ GOMAXPROCS rt * 32 → Size (cfg p) = Size c)
    ∧ (Retries c < -1 → Retries (cfg p) = -1)
    ∧ (-1 ≤ Retries c → Retries (cfg p) = Retries c)
    ∧ LobbySize (cfg p) = LobbySize c
    ∧ cap (inputQ p) = LobbySize c
    ∧ Func (cfg p) = Func c.
Proof.
  intros Hp1 Hp2 Hl.
  assert (wrap_int (GOMAXPROCS rt * 32) = GOMAXPROCS rt * 32) as Hw.
  { apply wrap_int_id. unfold is_int, min_int. lia. }
  assert (∃ p, NewPool rt c = Next p) as [p Hp].
  { unfold NewPool, make_chan.
    norm_cases c;
      (replace (LobbySize c <? 0) with false by (symmetry; apply Z.ltb_ge; lia));
      (replace (chanCapLimit rt <? LobbySize c) with false
         by (symmetry; apply Z.ltb_ge; lia));
      (replace (chanCapLimit rt <? 0) with false by (symmetry; apply Z.ltb_ge; lia));
      simpl; eauto. }
  exists p. split; [done|].
  destruct (NewPool_inv _ _ _ Hp) as (HL & HF & HR & HS & HQ & _).
  rewrite Hw in HS. rewrite HQ. simpl in *.
  repeat split; try done; intros; rewrite ?HR, ?HS;
    repeat case_match; lia.
Qed.

(** C10.  A negative [LobbySize] is neither rejected nor clamped:
    [make(chan Task, cfg.LobbySize)] panics and no pool is returned. *)
Theorem NewPool_negative_LobbySize rt c :
  LobbySize c < 0 →
  NewPool rt c = Panic "makechan: size out of range".
Proof.
  intros H. unfold NewPool, make_chan.
  norm_cases c;
    (replace (LobbySize c <? 0) with true by (symmetry; apply Z.ltb_lt; lia));
    done.
Qed.

End Construction.

Lemma NewPool_test f : NewPool rt64 (cfg_test f) = Next (pool_test f).
Proof. reflexivity. Qed.

Lemma NewPool_normalizes_witness :
  ∃ p, NewPool rt64 {| LobbySize := 3; Size := 0; Retries := -7; Func := countdown |} = Next p
       ∧ Size (cfg p) = 1 ∧ Retries (cfg p) = -1 ∧ cap (inputQ p) = 3.
Proof.
  pose proof (NewPool_normalizes rt64
                {| LobbySize := 3; Size := 0; Retries := -7; Func := countdown |}) as H.
  simpl in H.
  destruct H as (p & Hp & Hs & _ & _ & Hr & _ & _ & Hc & _);
    [lia | unfold max_int; lia | lia |].
  exists p. split; [exact Hp|]. split; [apply Hs; lia|].
  split; [apply Hr; lia | exact Hc].
Defined.

Lemma NewPool_negative_LobbySize_witness :
  NewPool rt64 {| LobbySize := -1; Size := 2; Retries := 2; Func := countdown |}
  = Panic "makechan: size out of range".
Proof. apply NewPool_negative_LobbySize. simpl. lia. Defined.

(** ** Retry routing *)

Section Routing.

Context {U : Type}.
Implicit Types (c : PoolConfig U) (t : task U) (l : list (task U * routing)).

Lemma attempt_failure c t u x :
  Func c (body t) = (u, Some x) →
  attempt c false t =
    ({| header := SetError (Some x) (header t); body := u |},
     if Retries c <=? wrap_int (ErrorCount (header t) + 1) then ToErrCh else Retry).
Proof. intros H. unfold attempt, execute. by rewrite H. Qed.

Lemma attempt_success c t u :
  Func c (body t) = (u, None) →
  attempt c false t = ({| header := SetError None (header t); body := u |}, Finished).
Proof. intros H. unfold attempt, execute. by rewrite H. Qed.

Lemma deliveries_retries l : Forall (λ x, snd x = Retry) l → deliveries l = [].
Proof.
  unfold deliveries. induction 1 as [|[t r] l Hr _ IH]; [done|].
  simpl in *. by rewrite Hr.
Qed.

Lemma completions_retries l : Forall (λ x, snd x = Retry) l → completions l = [].
Proof.
  unfold completions. induction 1 as [|[t r] l Hr _ IH]; [done|].
  simpl in *. by rewrite Hr.
Qed.

(** A task that keeps failing is retried until its error count reaches the
    larger of 1 and the retry ceiling, and is then handed to the error
    queue. *)
Lemma failing_life c :
  always_fails c → Retries c ≤ max_int →
  ∀ (d : nat) t (fuel : nat),
    0 ≤ ErrorCount (header t) →
    ErrorCount (header t) + Z.of_nat (S d) = Z.max 1 (Retries c) →
    (S d ≤ fuel)%nat →
    ∃ l t', task_life c fuel t = l ++ [(t', ToErrCh)]
            ∧ length l = d ∧ Forall (λ x, snd x = Retry) l
            ∧ ErrorCount (header t') = Z.max 1 (Retries c).
Proof.
  intros Hf Hmax d. induction d as [|d IH]; intros t fuel H0 Hsum Hfuel.
  all: destruct fuel as [|fuel]; [lia|]; simpl.
  all: destruct (Func c (body t)) as [u [x|]] eqn:HF;
    [|by specialize (Hf (body t)); rewrite HF in Hf].
  all: rewrite (attempt_failure _ _ _ _ HF).
  all: assert (wrap_int (ErrorCount (header t) + 1) = ErrorCount (header t) + 1)
    as -> by (apply wrap_int_succ; int_lia).
  - rewrite (proj2 (Z.leb_le _ _)) by lia.
    eexists [], _. repeat split; [done|]. simpl.
    rewrite wrap_int_succ by int_lia. int_lia.
  - rewrite (proj2 (Z.leb_gt _ _)) by lia.
    set (t1 := {| header := _; body := u |}).
    destruct (IH t1 fuel) as (l & t' & Hl & Hlen & Hall & Hc).
    + subst t1. simpl. rewrite wrap_int_succ by int_lia. int_lia.
    + subst t1. simpl. rewrite wrap_int_succ by int_lia. int_lia.
    + lia.
    + exists ((t1, Retry) :: l), t'. rewrite Hl. simpl.
      repeat split; [by rewrite Hlen | by constructor | done].
Qed.

(** The life of a fresh task whose function always fails, under a retry
    ceiling R with 0 <= R: max(1, R) executions, one hand-off to the error
    queue, at the last of them and with error count max(1, R), and no
    completion. *)
Lemma failing_task_life c (u : U) (fuel : nat) :
  always_fails c → 0 ≤ Retries c ≤ max_int →
  (Z.to_nat (Z.max 1 (Retries c)) ≤ fuel)%nat →
  ∃ t', deliveries (task_life c fuel (newTask u)) = [t']
        ∧ last (task_life c fuel (newTask u)) = Some (t', ToErrCh)
        ∧ ErrorCount (header t') = Z.max 1 (Retries c)
        ∧ Z.of_nat (length (task_life c fuel (newTask u))) = Z.max 1 (Retries c)
        ∧ completions (task_life c fuel (newTask u)) = [].
Proof.
  intros Hf [HR0 HRmax] Hfuel.
  destruct (failing_life c Hf HRmax (Z.to_nat (Z.max 1 (Retries c)) - 1)
              (newTask u) fuel) as (l & t' & Hl & Hlen & Hall & Hc);
    [simpl; lia | simpl; lia | lia |].
  exists t'. rewrite Hl. unfold deliveries, completions.
  rewrite !omap_app, last_snoc, length_app.
  fold (deliveries l) (completions l).
  rewrite deliveries_retries, completions_retries by done.
  simpl. repeat split; [done | lia].
Qed.

Lemma fails_then_succeeds_S c K u u' x :
  Func c u = (u', x) → fails_then_succeeds c (S K) u →
  x ≠ None ∧ fails_then_succeeds c K u'.
Proof.
  intros HF [Hn HK]. split.
  - specialize (Hn O ltac:(lia)). simpl in Hn. by rewrite HF in Hn.
  - split.
    + intros n Hlt. specialize (Hn (S n) ltac:(lia)). simpl in Hn.
      by rewrite HF in Hn.
    + simpl in HK. by rewrite HF in HK.
Qed.

(** A task that fails K times and then succeeds is retried K times and
    completes, as long as its error count stays below the ceiling. *)
Lemma retried_life c :
  Retries c ≤ max_int →
  ∀ (K : nat) t (fuel : nat),
    fails_then_succeeds c K (body t) →
    0 ≤ ErrorCount (header t) →
    K = O ∨ ErrorCount (header t) + Z.of_nat K < Retries c →
    (K < fuel)%nat →
    ∃ l t', task_life c fuel t = l ++ [(t', Finished)]
            ∧ length l = K ∧ Forall (λ x, snd x = Retry) l
            ∧ ErrorCount (header t') = ErrorCount (header t) + Z.of_nat K.
Proof.
  intros Hmax K. induction K as [|K IH]; intros t fuel HK H0 HR Hfuel.
  all: destruct fuel as [|fuel]; [lia|]; simpl.
  all: destruct (Func c (body t)) as [u x] eqn:HF.
  - destruct HK as [_ HK]. simpl in HK. rewrite HF in HK. simpl in HK. subst x.
    rewrite (attempt_success _ _ _ HF).
    eexists [], _. repeat split; [done|]. int_lia.
  - destruct (fails_then_succeeds_S _ _ _ _ _ HF HK) as [Hx HK'].
    destruct x as [x|]; [|done]. destruct HR as [|HR]; [done|].
    rewrite (attempt_failure _ _ _ _ HF).
    rewrite wrap_int_succ by int_lia.
    rewrite (proj2 (Z.leb_gt _ _)) by lia.
    set (t1 := {| header := _; body := u |}).
    assert (ErrorCount (header t1) = ErrorCount (header t) + 1) as Hc1.
    { subst t1. cbn [header]. apply SetError_count_succ. int_lia. }
    destruct (IH t1 fuel) as (l & t' & Hl & Hlen & Hall & Hc);
      [done | lia | right; lia | lia |].
    exists ((t1, Retry) :: l), t'. rewrite Hl. simpl.
    repeat split; [by rewrite Hlen | by constructor | rewrite Hc, Hc1; lia].
Qed.

(** The life of a fresh task whose function fails exactly K times and then
    succeeds, under a retry ceiling above K (or any ceiling when K = 0): no
    hand-off to the error queue, and completion at the (K+1)-th execution
    with error count K. *)
Lemma retried_task_life c (K : nat) (u : U) (fuel : nat) :
  fails_then_succeeds c K u →
  K = O ∨ Z.of_nat K < Retries c →
  Retries c ≤ max_int →
  (K < fuel)%nat →
  deliveries (task_life c fuel (newTask u)) = []
  ∧ ∃ t', completions (task_life c fuel (newTask u)) = [t']
          ∧ last (task_life c fuel (newTask u)) = Some (t', Finished)
          ∧ ErrorCount (header t') = Z.of_nat K
          ∧ length (task_life c fuel (newTask u)) = S K.
Proof.
  intros HK HR Hmax Hfuel.
  destruct (retried_life c Hmax K (newTask u) fuel) as (l & t' & Hl & Hlen & Hall & Hc);
    [done | simpl; lia | simpl; destruct HR; [by left | right; lia] | done |].
  rewrite Hl. unfold deliveries, completions.
  rewrite !omap_app, last_snoc, length_app.
  fold (deliveries l) (completions l).
  rewrite deliveries_retries, completions_retries by done.
  split; [done|]. exists t'. simpl in *. repeat split; [lia | lia].
Qed.

(** A retry ceiling of -1 or below is stored as -1, and under it a failed
    execution (the context not being done) hands the task to the error queue
    at once; its life is that one execution. *)
Lemma negative_ceiling_attempt (rt : Runtime) c (p : pool U) t (fuel : nat) :
  Retries c ≤ -1 →
  NewPool rt c = Next p →
  0 ≤ ErrorCount (header t) < max_int →
  snd (Func c (body t)) ≠ None →
  Retries (cfg p) = -1
  ∧ snd (attempt (cfg p) false t) = ToErrCh
  ∧ ErrorCount (header (fst (attempt (cfg p) false t))) = ErrorCount (header t) + 1
  ∧ task_life (cfg p) (S fuel) t = [(fst (attempt (cfg p) false t), ToErrCh)].
Proof.
  intros HR Hp Hc Hfail.
  destruct (NewPool_inv _ _ _ Hp) as (_ & HF & HR' & _).
  assert (Retries (cfg p) = -1) as HRp.
  { rewrite HR'. case_match eqn:E; [done|]. apply Z.ltb_ge in E. lia. }
  split; [done|].
  destruct (Func (cfg p) (body t)) as [u [x|]] eqn:HFt;
    [|by rewrite HF in HFt; rewrite HFt in Hfail].
  simpl. rewrite (attempt_failure _ _ _ _ HFt). simpl.
  rewrite HRp, wrap_int_succ by int_lia.
  rewrite (proj2 (Z.leb_le _ _)) by lia.
  repeat split. unfold ErrorCount. apply wrap_int_succ. int_lia.
Qed.

End Routing.

(** ** The pool as a transition system: lists of threads *)

Lemma weight_app f l1 l2 : weight f (l1 ++ l2) = (weight f l1 + weight f l2)%nat.
Proof. induction l1 as [|x l1 IH]; simpl; [done | lia]. Qed.

Lemma weight_insert f l i x y :
  l !! i = Some x →
  (weight f (<[i := y]> l) + Nat.b2n (f x) = weight f l + Nat.b2n (f y))%nat.
Proof.
  revert i. induction l as [|z l IH]; intros [|i] H; simplify_eq/=; [lia|].
  specialize (IH _ H). lia.
Qed.

Lemma weight_lookup f l i x : l !! i = Some x → f x = true → (1 ≤ weight f l)%nat.
Proof.
  revert i. induction l as [|z l IH]; intros [|i] H Hf; simplify_eq/=.
  - rewrite Hf. simpl. lia.
  - specialize (IH _ H Hf). lia.
Qed.

Lemma weight_two f l i j x y :
  i ≠ j → l !! i = Some x → l !! j = Some y → f x = true → f y = true →
  (2 ≤ weight f l)%nat.
Proof.
  revert i j. induction l as [|z l IH]; intros [|i] [|j] Hij Hi Hj Hx Hy;
    simplify_eq/=.
  - rewrite Hx. pose proof (weight_lookup _ _ _ _ Hj Hy). simpl. lia.
  - rewrite Hy. pose proof (weight_lookup _ _ _ _ Hi Hx). simpl. lia.
  - assert (i ≠ j) as Hne by congruence.
    specialize (IH _ _ Hne Hi Hj Hx Hy). lia.
Qed.

Lemma weight_pos f l : (1 ≤ weight f l)%nat → ∃ i x, l !! i = Some x ∧ f x = true.
Proof.
  induction l as [|z l IH]; simpl; [lia|]. intros H.
  destruct (f z) eqn:Hz.
  - by exists O, z.
  - destruct IH as (i & x & Hi & Hx); [simpl in H; lia|]. by exists (S i), x.
Qed.

Lemma weight_replicate f n x : f x = false → weight f (replicate n x) = O.
Proof. intros H. induction n as [|n IH]; simpl; [done|]. by rewrite H, IH. Qed.

(** Where a thread of the next state comes from, for a step of thread [i]
    that starts the threads [new]. *)
Lemma lookup_go (l new : list pc) i k y x :
  (<[i := y]> l ++ new) !! k = Some x →
  (k = i ∧ x = y) ∨ (k ≠ i ∧ l !! k = Some x) ∨ x ∈ new.
Proof.
  intros H. apply lookup_app_Some in H as [H|[_ H]].
  - destruct (decide (k = i)) as [->|Hne].
    + left. split; [done|].
      apply lookup_lt_Some in H as Hlt. rewrite length_insert in Hlt.
      rewrite list_lookup_insert_eq in H by done. congruence.
    + right. left. by rewrite list_lookup_insert_ne in H.
  - right. right. by eapply list_elem_of_lookup_2.
Qed.

Lemma lookup_sync (l : list pc) i j k a b x :
  (<[j := b]> (<[i := a]> l)) !! k = Some x →
  (k = j ∧ x = b) ∨ (k = i ∧ x = a) ∨ (k ≠ i ∧ k ≠ j ∧ l !! k = Some x).
Proof.
  intros H. destruct (decide (k = j)) as [->|Hj].
  - left. split; [done|]. apply lookup_lt_Some in H as Hlt.
    rewrite length_insert in Hlt. rewrite list_lookup_insert_eq in H by done.
    congruence.
  - rewrite list_lookup_insert_ne in H by done.
    destruct (decide (k = i)) as [->|Hi].
    + right. left. split; [done|]. apply lookup_lt_Some in H as Hlt.
      rewrite length_insert in Hlt. rewrite list_lookup_insert_eq in H by done.
      congruence.
    + right. right. by rewrite list_lookup_insert_ne in H.
Qed.

Lemma lookup_go_old (l new : list pc) i k y x :
  l !! k = Some x → k ≠ i → (<[i := y]> l ++ new) !! k = Some x.
Proof.
  intros H Hne. apply lookup_app_l_Some. by rewrite list_lookup_insert_ne.
Qed.

Lemma lookup_go_self (l new : list pc) i y x :
  l !! i = Some x → (<[i := y]> l ++ new) !! i = Some y.
Proof.
  intros H. apply lookup_app_l_Some. apply list_lookup_insert_eq.
  by eapply lookup_lt_Some.
Qed.

Lemma lookup_sync_old (l : list pc) i j k a b x :
  l !! k = Some x → k ≠ i → k ≠ j → (<[j := b]> (<[i := a]> l)) !! k = Some x.
Proof. intros H Hi Hj. by rewrite !list_lookup_insert_ne. Qed.

Lemma lookup_sync_snd (l : list pc) i j a b x :
  l !! i = Some x → i ≠ j → (<[j := b]> (<[i := a]> l)) !! i = Some a.
Proof.
  intros H Hne. rewrite list_lookup_insert_ne by done.
  apply list_lookup_insert_eq. by eapply lookup_lt_Some.
Qed.

Lemma lookup_sync_rcv (l : list pc) i j a b x :
  l !! j = Some x → (<[j := b]> (<[i := a]> l)) !! j = Some b.
Proof.
  intros H. apply list_lookup_insert_eq. rewrite length_insert.
  by eapply lookup_lt_Some.
Qed.

Lemma sd_events_snoc h e :
  sd_events (h ++ [e]) = sd_events h ++ (if is_sd_event e then [e] else []).
Proof.
  unfold sd_events. rewrite filter_app. f_equal.
  destruct (is_sd_event e) eqn:E.
  - by rewrite filter_cons_True.
  - rewrite filter_cons_False; [done | congruence].
Qed.

Section Steps.

Context {U : Type}.
Implicit Types (w : world U) (s : state U) (th : pc).

Lemma step_Go_inv i s s' :
  step (Go i) s = Next s' →
  ∃ th th' w' new,
    threads s !! i = Some th
    ∧ thread_step th (wd s) = Next (th', w', new)
    ∧ s' = {| wd := w'; threads := <[i := th']> (threads s) ++ new |}.
Proof.
  simpl. destruct (threads s !! i) as [th|]; [|done].
  destruct (thread_step th (wd s)) as [[[th' w'] new]| |] eqn:E; [|done..].
  simpl. intros [= <-]. by exists th, th', w', new.
Qed.

Lemma step_Sync_inv i j s s' :
  step (Sync i j) s = Next s' →
  i ≠ j ∧ ∃ a b a' b' w',
    threads s !! i = Some a ∧ threads s !! j = Some b
    ∧ sync_step a b (wd s) = Next (a', b', w')
    ∧ s' = {| wd := w'; threads := <[j := b']> (<[i := a']> (threads s)) |}.
Proof.
  simpl. destruct (decide (i = j)); [done|].
  destruct (threads s !! i) as [a|]; [|done].
  destruct (threads s !! j) as [b|]; [|done].
  destruct (sync_step a b (wd s)) as [[[a' b'] w']| |] eqn:E; [|done..].
  simpl. intros [= <-]. split; [done|]. by exists a, b, a', b', w'.
Qed.

Lemma step_Call_inv m s s' :
  step (Call m) s = Next s' →
  s' = {| wd := wd s; threads := threads s ++ [entry m] |}.
Proof. simpl. destruct m; repeat case_match; congruence. Qed.

Ltac thread_cases H :=
  match type of H with thread_step ?th _ = _ => destruct th end;
  simpl in H; unfold task_done, wg_add, close_chan, obind in H;
  simplify_eq/=; repeat (case_match; simplify_eq/=).

Lemma thread_step_flags th w th' w' new :
  thread_step th w = Next (th', w', new) → flags_le w w'.
Proof.
  intros H. unfold flags_le. thread_cases H; simpl; try done.
  all: repeat split; congruence.
Qed.

(** A step of one goroutine changes the lock as the holders change. *)
Lemma thread_step_lock th w th' w' new :
  thread_step th w = Next (th', w', new) →
  (Nat.b2n (inputLock (pl w')) + Nat.b2n (holds_lock th)
   = Nat.b2n (inputLock (pl w)) + Nat.b2n (holds_lock th') + weight holds_lock new)%nat.
Proof.
  intros H. thread_cases H; simpl; rewrite ?weight_replicate by done; try done.
  all: repeat match goal with E : inputLock _ = _ |- _ => rewrite E end; simpl; lia.
Qed.

(** It changes [shutdownOnce] as the threads inside the function of [Do]
    change. *)
Lemma thread_step_body th w th' w' new :
  thread_step th w = Next (th', w', new) →
  local_ok th w →
  (Nat.b2n (running (shutdownOnce (pl w'))) + Nat.b2n (in_body th)
   = Nat.b2n (running (shutdownOnce (pl w))) + Nat.b2n (in_body th') + weight in_body new)%nat.
Proof.
  intros H (Hb & _). thread_cases H; simpl; rewrite ?weight_replicate by done;
    try done.
  all: try (destruct Hb as [Hb _]; [done|]; simpl in Hb).
  all: repeat match goal with E : shutdownOnce _ = _ |- _ => rewrite E end; simpl; lia.
Qed.

(** A thread outside the function of [Do] leaves the shutdown sequence and
    a running [shutdownOnce] alone. *)
Lemma thread_step_outside th w th' w' new :
  thread_step th w = Next (th', w', new) →
  in_body th = false →
  sd_events (history w') = sd_events (history w)
  ∧ closed (inputQ (pl w')) = closed (inputQ (pl w))
  ∧ (shutdownOnce (pl w) = OnceRunning → shutdownOnce (pl w') = OnceRunning)
  ∧ (shutdownOnce (pl w') = OnceDone → shutdownOnce (pl w) = OnceDone).
Proof.
  intros H Hb.
  thread_cases H; simpl; rewrite ?sd_events_snoc; simpl;
    rewrite ?app_nil_r; repeat split; try done; congruence.
Qed.

Ltac use_hyps :=
  repeat match goal with
  | H : _ ∧ _ |- _ => destruct H
  | H : ?x = ?x → _ |- _ => specialize (H eq_refl)
  | H : false = true → _ |- _ => clear H
  | H : ?a = ?b → _, E : ?a = ?b |- _ => specialize (H E)
  | H : ?a = ?b → _ |- _ => (assert (a ≠ b) by (discriminate || congruence)); clear H
  end.

Ltac close_local :=
  repeat split; intros; use_hyps; simplify_eq/=; try done; try congruence.

(** The new program point and the started threads agree with the new
    shared state, and so does [shutdownOnce]. *)
Lemma thread_step_local th w th' w' new :
  thread_step th w = Next (th', w', new) →
  local_ok th w → once_ok w →
  local_ok th' w' ∧ Forall (λ n, local_ok n w') new ∧ once_ok w'.
Proof.
  intros H Hl Ho. unfold local_ok, once_ok in *.
  thread_cases H; simpl in *.
  all: rewrite ?sd_events_snoc; simpl; rewrite ?app_nil_r.
  all: split; [|split];
    [| repeat constructor; simpl; try done; try (apply Forall_replicate; simpl; done) |].
  all: close_local.
  all: by repeat match goal with E : sd_events _ = _ |- _ => rewrite E end.
Qed.

(** A thread that agreed with the shared state still does after the step of
    another, unless both are inside the function of [Do]. *)
Lemma thread_step_frame th w th' w' new x :
  thread_step th w = Next (th', w', new) →
  local_ok x w →
  in_body th && in_body x = false →
  local_ok x w'.
Proof.
  intros H (Hb & Hd & Hc & Hn) Hxy.
  destruct (thread_step_flags _ _ _ _ _ H) as (Fc & Fn & Fd & _).
  split; [|split; [|split]]; [|by auto..].
  intros Hx. rewrite Hx, andb_true_r in Hxy.
  destruct (thread_step_outside _ _ _ _ _ H Hxy) as (-> & _ & Hr & _).
  destruct (Hb Hx) as [??]. by auto.
Qed.

(** No goroutine is started at [RunDone]. *)
Lemma thread_step_new th w th' w' new :
  thread_step th w = Next (th', w', new) → RunDone ∉ new.
Proof.
  intros H. thread_cases H; try (by intros ?%elem_of_nil).
  all: intros Hin; repeat (apply elem_of_cons in Hin as [?|Hin]; [done|]);
    try (by apply elem_of_nil in Hin).
  by apply elem_of_replicate in Hin as [? _].
Qed.

(** Only [Run] ends in [RunDone], and it has started the lobby. *)
Lemma thread_step_RunDone th w w' new :
  thread_step th w = Next (RunDone, w', new) →
  th = RunSpawn ∧ ∃ l, new = LobbyStart :: l.
Proof. intros H. thread_cases H. eauto. Qed.

(** While its channel is open the lobby stays in its loop. *)
Lemma thread_step_lobby th w th' w' new :
  thread_step th w = Next (th', w', new) →
  lobby_live th = true → closed (inputQ (pl w')) = false →
  lobby_live th' = true.
Proof. intros H. thread_cases H; simpl; congruence. Qed.

(** *** Meetings on a channel *)

Ltac sync_cases H :=
  match type of H with sync_step ?a ?b _ = _ => destruct a, b end;
  simpl in H; simplify_eq/=; repeat (case_match; simplify_eq/=).

Lemma sync_step_facts a b w a' b' w' :
  sync_step a b w = Next (a', b', w') →
  sd_events (history w') = sd_events (history w)
  ∧ shutdownOnce (pl w') = shutdownOnce (pl w)
  ∧ closed (inputQ (pl w')) = closed (inputQ (pl w))
  ∧ inputQ_nil (pl w') = inputQ_nil (pl w)
  ∧ inputLock (pl w') = inputLock (pl w)
  ∧ holds_lock a' = holds_lock a ∧ holds_lock b' = holds_lock b
  ∧ in_body a = false ∧ in_body b = false
  ∧ in_body a' = false ∧ in_body b' = false
  ∧ after_close a' = false ∧ after_close b' = false
  ∧ after_nil a' = false ∧ after_nil b' = false
  ∧ a' ≠ SdDone ∧ b' ≠ SdDone ∧ a' ≠ RunDone ∧ b' ≠ RunDone
  ∧ a ≠ RunDone ∧ b ≠ RunDone
  ∧ (lobby_live a = true → lobby_live a' = true)
  ∧ (lobby_live b = true → lobby_live b' = true).
Proof.
  intros H. sync_cases H; simpl; rewrite ?sd_events_snoc; simpl;
    rewrite ?app_nil_r; repeat split; done.
Qed.

(** *** The worker's iteration *)

(** The two steps a worker takes on a task it has received are one
    [attempt]: the task is left as [attempt] leaves it, and the goroutine the
    worker starts is the hand-off [attempt]'s routing asks for. *)
Lemma worker_iteration t w tk :
  tasks w !! t = Some tk →
  ∃ e w1,
    thread_step (WorkerExec t) w = Next (WorkerRoute t e, w1, [])
    ∧ ctx_done (pl w1) = ctx_done (pl w) ∧ cfg (pl w1) = cfg (pl w)
    ∧ tasks w1 !! t = Some (attempt (cfg (pl w)) (ctx_done (pl w)) tk).1
    ∧ ∀ w2 new,
        thread_step (WorkerRoute t e) w1 = Next (WorkerRecv, w2, new) →
        tasks w2 = tasks w1
        ∧ new = match (attempt (cfg (pl w)) (ctx_done (pl w)) tk).2 with
                | ToErrCh => [ErrSend t]
                | Retry => [RetrySend t]
                | _ => []
                end.
Proof.
  intros Ht. pose proof (lookup_lt_Some _ _ _ Ht) as Hlt.
  unfold attempt. simpl. rewrite Ht.
  destruct (execute (cfg (pl w)) tk) as [tk' e] eqn:E.
  eexists _, _. split; [done|]. simpl.
  rewrite list_lookup_insert_eq by done.
  split; [done|]. split; [done|]. split; [done|].
  intros w2 new H. unfold task_done, wg_add, obind in H.
  destruct (route (cfg (pl w)) (ctx_done (pl w)) tk' e);
    simplify_eq/=; repeat (case_match; simplify_eq/=); done.
Qed.

(** *** The invariant *)

Lemma local_ok_ext x w w' :
  shutdownOnce (pl w') = shutdownOnce (pl w) →
  sd_events (history w') = sd_events (history w) →
  closed (inputQ (pl w')) = closed (inputQ (pl w)) →
  inputQ_nil (pl w') = inputQ_nil (pl w) →
  local_ok x w → local_ok x w'.
Proof. unfold local_ok. by intros -> -> -> ->. Qed.

Lemma once_ok_ext w w' :
  shutdownOnce (pl w') = shutdownOnce (pl w) →
  sd_events (history w') = sd_events (history w) →
  closed (inputQ (pl w')) = closed (inputQ (pl w)) →
  inputQ_nil (pl w') = inputQ_nil (pl w) →
  once_ok w → once_ok w'.
Proof. unfold once_ok. by intros -> -> -> ->. Qed.

Lemma local_ok_plain x w :
  in_body x = false → x ≠ SdDone → after_close x = false → after_nil x = false →
  local_ok x w.
Proof. intros H1 H2 H3 H4. unfold local_ok. rewrite H1, H3, H4. by repeat split. Qed.

Lemma entry_plain m :
  holds_lock (entry m) = false ∧ in_body (entry m) = false
  ∧ entry m ≠ SdDone ∧ after_close (entry m) = false
  ∧ after_nil (entry m) = false ∧ entry m ≠ RunDone.
Proof. by destruct m. Qed.

Lemma inv_init rt c (p : pool U) : NewPool rt c = Next p → inv (init p).
Proof.
  intros Hp. destruct (NewPool_inv _ _ _ Hp)
    as (_ & _ & _ & _ & HQ & _ & _ & Hn & _ & Hl & Ho & _).
  split; simpl.
  - by rewrite Hl.
  - by rewrite Ho.
  - intros i th Hi. by rewrite lookup_nil in Hi.
  - split; simpl; rewrite Ho, ?HQ; [done | discriminate].
  - intros [r Hr]. by rewrite lookup_nil in Hr.
Qed.

Lemma inv_step_Call m s s' : inv s → step (Call m) s = Next s' → inv s'.
Proof.
  intros [Hlk Hbd Hloc Hon Hlb] ->%step_Call_inv.
  destruct (entry_plain m) as (E1 & E2 & E3 & E4 & E5 & E6).
  split; simpl.
  - rewrite weight_app. simpl. rewrite E1. simpl. lia.
  - rewrite weight_app. simpl. rewrite E2. simpl. lia.
  - intros i th [Hi|[_ Hi]]%lookup_app_Some; [by eauto|].
    apply list_lookup_singleton_Some in Hi as [_ <-]. by apply local_ok_plain.
  - done.
  - intros [r Hr] Hc. destruct Hlb as (j & th & Hj & Hlive); [|done|].
    + apply lookup_app_Some in Hr as [Hr|[_ Hr]]; [by eauto|].
      by apply list_lookup_singleton_Some in Hr as [_ ?].
    + exists j, th. split; [by apply lookup_app_l_Some | done].
Qed.

Lemma inv_step_world s w' :
  inv s →
  shutdownOnce (pl w') = shutdownOnce (pl (wd s)) →
  sd_events (history w') = sd_events (history (wd s)) →
  closed (inputQ (pl w')) = closed (inputQ (pl (wd s))) →
  inputQ_nil (pl w') = inputQ_nil (pl (wd s)) →
  inputLock (pl w') = inputLock (pl (wd s)) →
  inv {| wd := w'; threads := threads s |}.
Proof.
  intros [Hlk Hbd Hloc Hon Hlb] E1 E2 E3 E4 E5. split; simpl.
  - by rewrite E5.
  - by rewrite E1.
  - intros i th Hi. eapply local_ok_ext; eauto.
  - eapply once_ok_ext; eauto.
  - rewrite E3. done.
Qed.

Lemma inv_step_Go i s s' : inv s → step (Go i) s = Next s' → inv s'.
Proof.
  intros [Hlk Hbd Hloc Hon Hlb] (th & th' & w' & new & Hi & Hst & ->)%step_Go_inv.
  pose proof (Hloc _ _ Hi) as Hth.
  destruct (thread_step_local _ _ _ _ _ Hst Hth Hon) as (Hth' & Hnew & Hon').
  split; simpl.
  - rewrite weight_app.
    pose proof (weight_insert holds_lock _ _ _ th' Hi).
    pose proof (thread_step_lock _ _ _ _ _ Hst). lia.
  - rewrite weight_app.
    pose proof (weight_insert in_body _ _ _ th' Hi).
    pose proof (thread_step_body _ _ _ _ _ Hst Hth). lia.
  - intros k x [[-> ->]|[[Hne Hk]|Hin]]%lookup_go; [done| |].
    + eapply thread_step_frame; [done | by eauto |].
      destruct (in_body th) eqn:Eth, (in_body x) eqn:Ex; try done.
      pose proof (weight_two in_body _ _ _ _ _ Hne Hk Hi Ex Eth).
      destruct (running _); simpl in *; lia.
    + by eapply Forall_forall in Hnew.
  - done.
  - intros [r Hr] Hc.
    destruct (thread_step_flags _ _ _ _ _ Hst) as (Fc & _).
    assert (closed (inputQ (pl (wd s))) = false) as Hc0
        by (destruct (closed (inputQ (pl (wd s)))); [by rewrite Fc in Hc | done]).
    apply lookup_go in Hr as [[-> Heq]|[[Hne Hr]|Hin]].
    + subst th'. destruct (thread_step_RunDone _ _ _ _ Hst) as (_ & l & ->).
      exists (length (<[i := RunDone]> (threads s))), LobbyStart.
      split; [|done]. by rewrite lookup_app_r, Nat.sub_diag.
    + destruct Hlb as (j & x & Hj & Hlive); [by eauto | done |].
      destruct (decide (j = i)) as [->|Hji].
      * assert (x = th) as -> by congruence.
        exists i, th'. split; [by eapply lookup_go_self|].
        by eapply thread_step_lobby.
      * exists j, x. split; [by apply lookup_go_old | done].
    + by apply thread_step_new in Hst.
Qed.

Lemma inv_step_Sync i j s s' : inv s → step (Sync i j) s = Next s' → inv s'.
Proof.
  intros Hinv (Hij & a & b & a' & b' & w' & Hi & Hj & Hst & ->)%step_Sync_inv.
  destruct (sync_step_facts _ _ _ _ _ _ Hst) as
    (E1 & E2 & E3 & E4 & E5 & La & Lb & Ba & Bb & Ba' & Bb' & Ca & Cb & Na & Nb
     & Da & Db & Ra & Rb & Ra0 & Rb0 & Va & Vb).
  destruct (inv_step_world s w' Hinv E2 E1 E3 E4 E5) as [Hlk Hbd Hloc Hon Hlb].
  simpl in *.
  assert (<[i := a']> (threads s) !! j = Some b) as Hj'
      by by rewrite list_lookup_insert_ne.
  split; simpl.
  - pose proof (weight_insert holds_lock _ _ _ a' Hi).
    pose proof (weight_insert holds_lock _ _ _ b' Hj').
    rewrite La, Lb in *. lia.
  - pose proof (weight_insert in_body _ _ _ a' Hi).
    pose proof (weight_insert in_body _ _ _ b' Hj').
    rewrite Ba, Bb, Ba', Bb' in *. simpl in *. lia.
  - intros k x [[-> ->]|[[-> ->]|(? & ? & Hk)]]%lookup_sync;
      [by apply local_ok_plain..|by eauto].
  - done.
  - intros [r Hr] Hc. apply lookup_sync in Hr as [[-> ?]|[[-> ?]|(? & ? & Hr)]];
      [done..|].
    destruct Hlb as (k & x & Hk & Hlive); [by eauto | done |].
    destruct (decide (k = j)) as [->|Hkj].
    + assert (x = b) as -> by congruence.
      exists j, b'. split; [by eapply lookup_sync_rcv | by auto].
    + destruct (decide (k = i)) as [->|Hki].
      * assert (x = a) as -> by congruence.
        exists i, a'. split; [by eapply lookup_sync_snd | by auto].
      * exists k, x. split; [by apply lookup_sync_old | done].
Qed.

Lemma inv_step a s s' : inv s → step a s = Next s' → inv s'.
Proof.
  destruct a as [m|u| |i|i j].
  - apply inv_step_Call.
  - intros Hinv [= <-]. by apply inv_step_world.
  - intros Hinv [= <-]. by apply inv_step_world.
  - apply inv_step_Go.
  - apply inv_step_Sync.
Qed.

Lemma reachable_inv rt c (p : pool U) s :
  NewPool rt c = Next p → reachable p s → inv s.
Proof.
  intros Hp. induction 1 as [|a s s' _ IH Hst]; [by eapply inv_init|].
  by eapply inv_step.
Qed.

(** *** Schedules *)

Lemma run_app acts1 acts2 s :
  run (acts1 ++ acts2) s = (s1 ←! run acts1 s; run acts2 s1).
Proof.
  revert s. induction acts1 as [|a acts1 IH]; intros s; simpl; [done|].
  destruct (step a s); simpl; [apply IH | done..].
Qed.

Lemma run_reachable (p : pool U) acts : ∀ s s',
  reachable p s → run acts s = Next s' → reachable p s'.
Proof.
  induction acts as [|a acts IH]; intros s s' Hs; simpl; [by intros [= <-]|].
  destruct (step a s) as [s1| |] eqn:E; simpl; [|done..].
  apply IH. by eapply reach_step.
Qed.

Lemma step_flags a s s' : step a s = Next s' → flags_le (wd s) (wd s').
Proof.
  destruct a as [m|u| |i|i j].
  - by intros ->%step_Call_inv.
  - by intros [= <-].
  - by intros [= <-].
  - intros (th & th' & w' & new & _ & Hst & ->)%step_Go_inv.
    by eapply thread_step_flags.
  - intros (_ & a & b & a' & b' & w' & _ & _ & Hst & ->)%step_Sync_inv.
    destruct (sync_step_facts _ _ _ _ _ _ Hst) as (_ & E2 & E3 & E4 & _).
    unfold flags_le. simpl. by rewrite E2, E3, E4.
Qed.

Lemma run_flags acts : ∀ s s', run acts s = Next s' → flags_le (wd s) (wd s').
Proof.
  induction acts as [|a acts IH]; intros s s'; simpl.
  - intros [= <-]. by unfold flags_le.
  - destruct (step a s) as [s1| |] eqn:E; simpl; [|done..]. intros Hr.
    destruct (step_flags _ _ _ E) as (A1 & A2 & A3 & A4).
    destruct (IH _ _ Hr) as (B1 & B2 & B3 & B4).
    unfold flags_le. repeat split; intros; auto.
Qed.

(** A thread that cannot step and does not take part in a meeting stays
    where it is. *)
Lemma sync_step_parties a b w r :
  sync_step a b w = Next r →
  is_wait a = false ∧ is_wait b = false ∧ a ≠ RunDone ∧ b ≠ RunDone.
Proof. destruct a, b; simpl; try done. Qed.

Lemma step_keeps_blocked a s s' i th :
  step a s = Next s' →
  threads s !! i = Some th →
  step (Go i) s = Blocked →
  is_wait th = true ∨ th = RunDone →
  threads s' !! i = Some th.
Proof.
  intros Hst Hi Hblk Hth. destruct a as [m|u| |k|k j].
  - apply step_Call_inv in Hst as ->. by apply lookup_app_l_Some.
  - by injection Hst as <-.
  - by injection Hst as <-.
  - destruct (decide (k = i)) as [->|Hne]; [congruence|].
    apply step_Go_inv in Hst as (? & ? & ? & ? & _ & _ & ->).
    by apply lookup_go_old.
  - apply step_Sync_inv in Hst as (Hkj & a & b & a' & b' & w' & Hk & Hj & Hst & ->).
    simpl. destruct (sync_step_parties _ _ _ _ Hst) as (Wa & Wb & Ra & Rb).
    apply lookup_sync_old; [done|..]; intros ->; simplify_eq;
      destruct Hth; congruence.
Qed.

Lemma RunDone_blocked s r :
  threads s !! r = Some RunDone → step (Go r) s = Blocked.
Proof. intros H. simpl. by rewrite H. Qed.

(** *** The input lock after [Run] *)

(** After [Run] has returned and until the admission queue is closed, the
    lobby holds the input lock. *)
Lemma lock_held_after_Run s :
  inv s →
  (∃ r, threads s !! r = Some RunDone) →
  closed (inputQ (pl (wd s))) = false →
  inputLock (pl (wd s)) = true
  ∧ ∀ i th, threads s !! i = Some th → is_wait th = true →
      th = WaitDone ∨ (th = WaitLock ∧ step (Go i) s = Blocked).
Proof.
  intros [Hlk _ _ _ Hlb] Hrun Hc.
  destruct (Hlb Hrun Hc) as (j & x & Hj & Hlive).
  assert (holds_lock x = true) as Hx by by destruct x.
  pose proof (weight_lookup holds_lock _ _ _ Hj Hx) as Hw.
  assert (inputLock (pl (wd s)) = true) as Hlock.
  { destruct (inputLock (pl (wd s))); [done|]. simpl in Hlk. lia. }
  split; [done|]. intros i th Hi Hwt.
  assert (holds_lock th = false) as Hth.
  { destruct (holds_lock th) eqn:E; [|done].
    assert (i ≠ j) as Hne by (intros ->; simplify_eq; by destruct x).
    pose proof (weight_two holds_lock _ _ _ _ _ Hne Hi Hj E Hx).
    rewrite Hlock in Hlk. simpl in Hlk. lia. }
  destruct th; try discriminate; [right | by left].
  split; [done|]. unfold step. rewrite Hi. simpl. by rewrite Hlock.
Qed.

(** What a step of [Wait] changes: the lock and nothing else. *)
Lemma on_pool_set_inputLock_id w :
  on_pool (set_inputLock (inputLock (pl w))) w = w.
Proof. by destruct w as [[] ? ?]. Qed.

Lemma Wait_step_frame th w th' w' new :
  is_wait th = true →
  thread_step th w = Next (th', w', new) →
  new = [] ∧ is_wait th' = true
  ∧ w' = on_pool (set_inputLock (inputLock (pl w'))) w
  ∧ (th = WaitWG → inflightWG (pl w) = 0)
  ∧ (th' = WaitDone → th = WaitUnlock)
  ∧ (th' = WaitUnlock → th = WaitWG).
Proof.
  intros Hw H. thread_cases H; simpl; rewrite ?on_pool_set_inputLock_id;
    repeat split; try done; lia.
Qed.

Lemma wait_stays_pending rt c (p : pool U) acts : ∀ s s' i,
  NewPool rt c = Next p → reachable p s →
  (∃ r, threads s !! r = Some RunDone) →
  threads s !! i = Some WaitLock →
  run acts s = Next s' →
  shutdownOnce (pl (wd s')) = OnceIdle →
  threads s' !! i = Some WaitLock.
Proof.
  induction acts as [|a acts IH]; intros s s' i Hp Hs [r Hr] Hi; simpl.
  - by intros [= <-].
  - destruct (step a s) as [s1| |] eqn:E; simpl; [|done..]. intros Hrun Hidle.
    pose proof (reachable_inv _ _ _ _ Hp Hs) as Hinv.
    destruct (run_flags _ _ _ Hrun) as (_ & _ & _ & Hi1).
    destruct (step_flags _ _ _ E) as (_ & _ & _ & Hi0).
    destruct (inv_once _ Hinv) as [Hopen _].
    destruct (Hopen (Hi0 (Hi1 Hidle))) as [_ Hc].
    destruct (lock_held_after_Run s Hinv (ex_intro _ r Hr) Hc) as [_ Hblk].
    destruct (Hblk _ _ Hi eq_refl) as [|[_ Hb]]; [done|].
    eapply IH; [done | by eapply reach_step | | | done..].
    + exists r. eapply step_keeps_blocked; [done..| by apply RunDone_blocked | by right].
    + eapply step_keeps_blocked; [done..| by left].
Qed.

(** *** The claims on the lifecycle *)

(** C4 (as amended).  [Wait] touches nothing but the input lock: it closes
    no channel, and it gets past its [inflightWG.Wait()] only at zero in
    flight.  But it first needs the input lock, which [Run] takes and the
    lobby gives back only after the admission queue has been closed, and
    that is done by [Shutdown] alone.  So after [Run] has returned and until
    [Shutdown] has closed the admission queue, the lock is held, every call
    of [Wait] that has not already returned is blocked at its [Lock],
    whatever the in-flight counter, and it stays there in every continuation
    in which no [Shutdown] has begun. *)
Theorem Wait_blocked_until_Shutdown rt c (p : pool U) s :
  NewPool rt c = Next p → reachable p s →
  (shutdownOnce (pl (wd s)) = OnceIdle → closed (inputQ (pl (wd s))) = false)
  ∧ ((∃ r, threads s !! r = Some RunDone) →
     closed (inputQ (pl (wd s))) = false →
     inputLock (pl (wd s)) = true
     ∧ ∀ i th, threads s !! i = Some th → is_wait th = true →
         th = WaitDone ∨ (th = WaitLock ∧ step (Go i) s = Blocked))
  ∧ ((∃ r, threads s !! r = Some RunDone) →
     ∀ i acts s', threads s !! i = Some WaitLock →
       run acts s = Next s' → shutdownOnce (pl (wd s')) = OnceIdle →
       threads s' !! i = Some WaitLock)
  ∧ (∀ i th s', threads s !! i = Some th → is_wait th = true →
       step (Go i) s = Next s' →
       wd s' = on_pool (set_inputLock (inputLock (pl (wd s')))) (wd s)
       ∧ (th = WaitWG → inflightWG (pl (wd s)) = 0)
       ∧ (threads s' !! i = Some WaitDone → th = WaitUnlock)).
Proof.
  intros Hp Hs. pose proof (reachable_inv _ _ _ _ Hp Hs) as Hinv.
  split; [|split; [|split]].
  - intros Hidle. by destruct (inv_once _ Hinv) as [[_ ?] _].
  - by apply lock_held_after_Run.
  - intros Hrun i acts s' Hi Hacts Hidle. by eapply wait_stays_pending.
  - intros i th s' Hi Hw (th0 & th' & w' & new & Hi' & Hst & ->)%step_Go_inv.
    assert (th0 = th) as -> by congruence.
    destruct (Wait_step_frame _ _ _ _ _ Hw Hst) as (-> & _ & Hwd & Hz & Hd & _).
    simpl. split; [done|]. split; [done|].
    rewrite (lookup_go_self _ _ _ _ _ Hi). intros [= ->]. by apply Hd.
Qed.

(** C5.  However many calls of [Shutdown] there are, the statements of its
    drain-and-close sequence execute at most once each and in order, and
    when a call has returned the whole sequence has executed, exactly
    once. *)
Theorem Shutdown_runs_once rt c (p : pool U) s :
  NewPool rt c = Next p → reachable p s →
  sd_events (history (wd s)) `prefix_of` shutdown_body
  ∧ ∀ i, threads s !! i = Some SdDone →
      sd_events (history (wd s)) = shutdown_body
      ∧ shutdownOnce (pl (wd s)) = OnceDone.
Proof.
  intros Hp Hs. destruct (reachable_inv _ _ _ _ Hp Hs) as [_ Hbd Hloc [Hidle Hdone] _].
  split.
  - destruct (shutdownOnce (pl (wd s))) eqn:E.
    + destruct Hidle as [-> _]; [done|]. apply prefix_nil.
    + destruct (weight_pos in_body (threads s)) as (i & th & Hi & Hth);
        [rewrite Hbd; simpl; lia|].
      destruct (Hloc _ _ Hi) as [Hb _]. destruct (Hb Hth) as [_ ->].
      destruct th; try discriminate; simpl; unfold shutdown_body;
        solve [ by eexists | done ].
    + by destruct Hdone as [-> _].
  - intros i Hi. destruct (Hloc _ _ Hi) as (_ & Hd & _).
    specialize (Hd eq_refl). split; [|done]. by destruct Hdone.
Qed.

(** C7.  Once a call of [Shutdown] has closed the admission queue and set
    [p.inputQ] to nil, every call of [Queue] that makes its check from then
    on returns at once: no panic, and the shared state (counters, waitgroup,
    channels, tasks) is left as it was. *)
Theorem Queue_after_Shutdown_noop rt c (p : pool U) s :
  NewPool rt c = Next p → reachable p s → admission_shut s →
  ∀ acts s' i t,
    run acts s = Next s' →
    threads s' !! i = Some (QueueCheck t) →
    inputQ_nil (pl (wd s')) = true
    ∧ step (Go i) s' = Next {| wd := wd s'; threads := <[i := QueueDone]> (threads s') |}.
Proof.
  intros Hp Hs Hshut acts s' i t Hrun Hi.
  destruct (reachable_inv _ _ _ _ Hp Hs) as [_ _ Hloc [_ Hdone] _].
  assert (inputQ_nil (pl (wd s)) = true) as Hnil.
  { destruct Hshut as [Hd|(j & th & Hj & Hth)].
    - by destruct (Hdone Hd) as (_ & _ & ?).
    - destruct (Hloc _ _ Hj) as (_ & _ & _ & Hn). by apply Hn. }
  destruct (run_flags _ _ _ Hrun) as (_ & Hmono & _).
  specialize (Hmono Hnil). split; [done|].
  unfold step. rewrite Hi. simpl. rewrite Hmono. simpl. by rewrite app_nil_r.
Qed.

End Steps.

(** ** The pool and the life of a task *)

Lemma count_ev_snoc f h e :
  count_ev f (h ++ [e]) = (count_ev f h + Nat.b2n (f e))%nat.
Proof.
  unfold count_ev. rewrite filter_app, length_app. f_equal.
  destruct (f e) eqn:E.
  - by rewrite filter_cons_True.
  - rewrite filter_cons_False; [done | congruence].
Qed.

Lemma in_chan_pop t x l c :
  buf c = x :: l →
  in_chan t c = (Nat.b2n (bool_decide (x = t)) + in_chan t (with_buf l c))%nat.
Proof.
  intros H. unfold in_chan. rewrite H. simpl. case_bool_decide.
  - by rewrite filter_cons_True.
  - by rewrite filter_cons_False.
Qed.

Lemma in_chan_push t x c :
  in_chan t (with_buf (buf c ++ [x]) c)
  = (in_chan t c + Nat.b2n (bool_decide (x = t)))%nat.
Proof.
  unfold in_chan. simpl. rewrite filter_app, length_app. f_equal.
  case_bool_decide.
  - by rewrite filter_cons_True.
  - by rewrite filter_cons_False.
Qed.

Section Life.
Context {U : Type}.
Implicit Types (w : world U) (s : state U) (th : pc) (c : PoolConfig U).

Ltac thread_cases H :=
  match type of H with thread_step ?th _ = _ => destruct th end;
  simpl in H; unfold task_done, wg_add, close_chan, obind in H;
  simplify_eq/=; repeat (case_match; simplify_eq/=).

Lemma thread_step_cfg th w th' w' new :
  thread_step th w = Next (th', w', new) → cfg (pl w') = cfg (pl w).
Proof. intros H. by thread_cases H. Qed.

(** Tokens are not created by a step. *)
Lemma thread_step_tokens t th w th' w' new :
  thread_step th w = Next (th', w', new) →
  (Nat.b2n (carries t th') + weight (carries t) new + wtok t w'
   ≤ Nat.b2n (carries t th) + wtok t w)%nat.
Proof.
  intros H. unfold wtok.
  thread_cases H; simpl; rewrite ?weight_replicate by done;
    rewrite ?count_ev_snoc; simpl; try lia.
  - erewrite (in_chan_pop t _ _ (inputQ (pl w))) by done. lia.
  - rewrite in_chan_push. lia.
  - unfold in_chan. simpl. lia.
Qed.

Lemma thread_step_executions t th w th' w' new :
  thread_step th w = Next (th', w', new) →
  executions t w'
  = (executions t w
     + Nat.b2n (match th with WorkerExec t' => bool_decide (t' = t) | _ => false end))%nat.
Proof.
  intros H. unfold executions.
  thread_cases H; simpl; rewrite ?count_ev_snoc; simpl; lia.
Qed.

Lemma iter_task_S c u n : iter_task c u (S n) = (execute c (iter_task c u n)).1.
Proof. done. Qed.

Lemma route_uncancelled c b (tk : task U) e r :
  route c b tk e = r → r = ToErrCh ∨ r = Retry ∨ r = Finished →
  route c false tk e = r.
Proof.
  unfold route. destruct e, b; intros <-; try done. intros [|[|]]; done.
Qed.

Lemma nth_route_eq c u m :
  nth_route c u m
  = route c false (iter_task c u (S m)) (execute c (iter_task c u m)).2.
Proof.
  unfold nth_route, attempt. rewrite iter_task_S.
  by destruct (execute c (iter_task c u m)).
Qed.

Lemma retried_S c u m : retried c u m → nth_route c u m = Retry → retried c u (S m).
Proof.
  intros Hr Hm j Hj. destruct (decide (j = m)) as [->|]; [done|].
  apply Hr. lia.
Qed.

Lemma thread_step_task c u t th w th' w' new :
  thread_step th w = Next (th', w', new) →
  cfg (pl w) = c →
  tasks w !! t = Some (iter_task c u (executions t w)) →
  tasks w' !! t = Some (iter_task c u (executions t w')).
Proof.
  intros H Hc Ht. rewrite (thread_step_executions _ _ _ _ _ _ H).
  thread_cases H; simpl; rewrite ?Nat.add_0_r; try done.
  case_bool_decide as E; simpl.
  - subst. rewrite Nat.add_1_r, iter_task_S.
    rewrite list_lookup_insert_eq by (by eapply lookup_lt_Some).
    simplify_eq.
    by match goal with E : execute _ _ = _ |- _ => rewrite E end.
  - rewrite Nat.add_0_r. by rewrite list_lookup_insert_ne.
Qed.
Lemma count_ev_elem f h e : e ∈ h → f e = true → (1 ≤ count_ev f h)%nat.
Proof.
  intros Hin Hf. unfold count_ev.
  assert (e ∈ filter (λ e, f e = true) h) as Hin' by by apply list_elem_of_filter.
  destruct (filter (λ e, f e = true) h); [by apply elem_of_nil in Hin'|].
  simpl. lia.
Qed.

(** Where the thread that stepped and the threads it started stand in the
    life of the task. *)
Lemma thread_step_stage c u t th w th' w' new :
  thread_step th w = Next (th', w', new) →
  cfg (pl w) = c →
  tasks w !! t = Some (iter_task c u (executions t w)) →
  (carries t th = true → stage_ok c u (executions t w) th) →
  ((1 ≤ in_chan t (inputQ (pl w)))%nat → executions t w = O) →
  (carries t th' = true → stage_ok c u (executions t w') th')
  ∧ Forall (λ x, carries t x = true → stage_ok c u (executions t w') x) new.
Proof.
  intros H Hc Ht Hst Hbuf. rewrite (thread_step_executions _ _ _ _ _ _ H).
  thread_cases H; simpl in *; rewrite ?Nat.add_0_r;
    (split; [| repeat constructor; try (apply Forall_replicate; done)]);
    try done; simpl; intros Ecar; try (specialize (Hst Ecar)); try done.
  - apply Hbuf. erewrite in_chan_pop by done.
    rewrite Ecar. simpl. lia.
  - apply bool_decide_eq_true in Ecar as ->. rewrite bool_decide_true by done.
    exists (executions t w). split; [simpl; lia|]. split; [done|].
    simplify_eq. by match goal with E : execute _ _ = _ |- _ => rewrite E end.
  - apply bool_decide_eq_true in Ecar as ->. simplify_eq.
    destruct Hst as (m & Hn & Hr & ->). exists m. rewrite Hn in *.
    split; [done|]. split; [done|]. rewrite nth_route_eq.
    eapply route_uncancelled; eauto.
  - apply bool_decide_eq_true in Ecar as ->. simplify_eq.
    destruct Hst as (m & Hn & Hr & ->). rewrite Hn in *.
    apply retried_S; [done|]. rewrite nth_route_eq.
    eapply route_uncancelled; eauto.
Qed.
Lemma thread_step_in_buf c u t th w th' w' new :
  thread_step th w = Next (th', w', new) →
  (carries t th = true → stage_ok c u (executions t w) th) →
  (carries t th = true → wtok t w = O) →
  ((1 ≤ in_chan t (inputQ (pl w)))%nat → executions t w = O) →
  (1 ≤ in_chan t (inputQ (pl w')))%nat → executions t w' = O.
Proof.
  intros H Hst Huniq Hbuf. rewrite (thread_step_executions _ _ _ _ _ _ H).
  unfold wtok in Huniq.
  thread_cases H; simpl in *; rewrite ?Nat.add_0_r; try done.
  - erewrite (in_chan_pop t _ _ (inputQ (pl w))) in Hbuf by done.
    intros. apply Hbuf. lia.
  - case_bool_decide; simpl; [|rewrite Nat.add_0_r; done].
    intros. specialize (Huniq eq_refl). lia.
  - rewrite in_chan_push. case_bool_decide; simpl.
    + intros _. by apply Hst.
    + rewrite Nat.add_0_r. done.
Qed.

Lemma thread_step_hist c u t th w th' w' new :
  thread_step th w = Next (th', w', new) →
  cfg (pl w) = c →
  tasks w !! t = Some (iter_task c u (executions t w)) →
  (carries t th = true → stage_ok c u (executions t w) th) →
  (carries t th = true → wtok t w = O) →
  (∀ e, e ∈ history w → ev_ended t e = true → ended_ok c u (executions t w) e) →
  ∀ e, e ∈ history w' → ev_ended t e = true → ended_ok c u (executions t w') e.
Proof.
  intros H Hc Ht Hst Huniq Hh. rewrite (thread_step_executions _ _ _ _ _ _ H).
  unfold wtok in Huniq.
  thread_cases H; simpl in *; rewrite ?Nat.add_0_r; try done.
  all: intros ev Hin He; try (apply elem_of_app in Hin as [Hin|Hin]);
    try (apply list_elem_of_singleton in Hin as ->); simpl in *; try done;
    try (by apply Hh).
  - case_bool_decide; simpl; [|rewrite Nat.add_0_r; by apply Hh].
    specialize (Huniq eq_refl).
    pose proof (count_ev_elem _ _ _ Hin He). lia.
  - apply bool_decide_eq_true in He as ->. simplify_eq.
    rewrite bool_decide_true in Hst by done.
    destruct (Hst eq_refl) as (m & Hn & Hr & ->). exists m.
    split; [done|]. split; [done|]. split; [|by rewrite Hn].
    rewrite nth_route_eq. rewrite Hn in *.
    eapply route_uncancelled; eauto.
Qed.

(** *** Meetings *)

Ltac sync_cases H :=
  match type of H with sync_step ?a ?b _ = _ => destruct a, b end;
  simpl in H; simplify_eq/=; repeat (case_match; simplify_eq/=).

Lemma sync_step_frame t a b w a' b' w' :
  sync_step a b w = Next (a', b', w') →
  cfg (pl w') = cfg (pl w)
  ∧ tasks w' = tasks w
  ∧ executions t w' = executions t w
  ∧ (Nat.b2n (carries t a') + Nat.b2n (carries t b') + wtok t w'
     ≤ Nat.b2n (carries t a) + Nat.b2n (carries t b) + wtok t w)%nat.
Proof.
  intros H. unfold wtok, executions in *.
  sync_cases H; simpl in *; rewrite ?count_ev_snoc; simpl;
    rewrite ?Nat.add_0_r; repeat split; try done; lia.
Qed.

Lemma thread_step_tasks_length th w th' w' new :
  thread_step th w = Next (th', w', new) → length (tasks w') = length (tasks w).
Proof. intros H. thread_cases H; simpl; by rewrite ?length_insert. Qed.

Lemma sync_step_life c u t a b w a' b' w' :
  sync_step a b w = Next (a', b', w') →
  tasks w !! t = Some (iter_task c u (executions t w)) →
  (carries t a = true → stage_ok c u (executions t w) a) →
  (∀ e, e ∈ history w → ev_ended t e = true → ended_ok c u (executions t w) e) →
  cfg (pl w') = cfg (pl w)
  ∧ tasks w' = tasks w
  ∧ executions t w' = executions t w
  ∧ in_chan t (inputQ (pl w')) = in_chan t (inputQ (pl w))
  ∧ (Nat.b2n (carries t a') + Nat.b2n (carries t b') + wtok t w'
     ≤ Nat.b2n (carries t a) + Nat.b2n (carries t b) + wtok t w)%nat
  ∧ carries t a' = false
  ∧ (carries t b' = true → stage_ok c u (executions t w) b')
  ∧ (∀ e, e ∈ history w' → ev_ended t e = true → ended_ok c u (executions t w) e).
Proof.
  intros H Ht Hst Hh. unfold wtok, executions in *.
  sync_cases H; simpl in *; rewrite ?count_ev_snoc; simpl;
    rewrite ?Nat.add_0_r; repeat split; try done; try lia.
  - intros E. rewrite (Hst E). intros j Hj. lia.
  - intros ev [Hin| ->%list_elem_of_singleton]%elem_of_app He; [by apply Hh|].
    simpl in He. apply bool_decide_eq_true in He as ->.
    rewrite bool_decide_true in Hst by done.
    destruct (Hst eq_refl) as (m & Hn & Hr & Hroute). exists m.
    split; [done|]. split; [done|]. split; [done|]. by simplify_eq.
Qed.
(** *** The invariant of a task's life *)

Lemma carries_executes t th :
  carries t th = false →
  match th with WorkerExec t' => bool_decide (t' = t) | _ => false end = false.
Proof. by destruct th. Qed.

Lemma entry_carries t (m : method) : carries t (entry m) = is_call (U:=U) t (Call m).
Proof. by destruct m. Qed.

Lemma calls_cons t (a : action U) acts :
  calls t (a :: acts) = (Nat.b2n (is_call t a) + calls t acts)%nat.
Proof.
  unfold calls. destruct (is_call t a) eqn:E.
  - by rewrite filter_cons_True.
  - rewrite filter_cons_False; [done | congruence].
Qed.

Lemma life_step_Go c u t k i s s' :
  (k ≤ 1)%nat → life_inv c u t k s → step (Go i) s = Next s' → life_inv c u t k s'.
Proof.
  intros Hk [Hcfg Htok Htask Hfresh Hloc Hbuf Hhist Hret]
    (th & th' & w' & new & Hi & Hst & ->)%step_Go_inv.
  unfold tokens in Htok.
  assert (carries t th = true → wtok t (wd s) = O) as Huniq.
  { intros E. pose proof (weight_lookup _ _ _ _ Hi E). lia. }
  pose proof (thread_step_executions t _ _ _ _ _ Hst) as Hex.
  assert (carries t th = false → executions t w' = executions t (wd s)) as Hsame.
  { intros E. rewrite Hex, (carries_executes _ _ E). simpl. lia. }
  pose proof (λ E, Hloc _ _ Hi E) as Hth.
  destruct (thread_step_stage c u t _ _ _ _ _ Hst Hcfg Htask Hth Hbuf) as [Hth' Hnew].
  split; simpl.
  - by rewrite (thread_step_cfg _ _ _ _ _ Hst).
  - unfold tokens. simpl. rewrite weight_app.
    pose proof (weight_insert (carries t) _ _ _ th' Hi).
    pose proof (thread_step_tokens t _ _ _ _ _ Hst). lia.
  - by eapply thread_step_task.
  - intros ->. rewrite Hsame; [by apply Hfresh|].
    destruct (carries t th) eqn:E; [|done].
    pose proof (weight_lookup _ _ _ _ Hi E). lia.
  - intros j x [[-> ->]|[[Hne Hj]|Hin]]%lookup_go Hx; [by apply Hth'| |].
    + destruct (carries t th) eqn:E.
      * pose proof (weight_two (carries t) _ _ _ _ _ Hne Hj Hi Hx E). lia.
      * rewrite Hsame by done. by eapply Hloc.
    + eapply Forall_forall in Hnew; [by apply Hnew | done].
  - by eapply thread_step_in_buf.
  - by eapply thread_step_hist.
  - rewrite Hex. destruct th; simpl in *; rewrite ?Nat.add_0_r; try done.
    case_bool_decide; simpl; [|by rewrite Nat.add_0_r].
    rewrite Nat.add_1_r. simpl. by apply Hth.
Qed.

Lemma life_step_Sync c u t k i j s s' :
  (k ≤ 1)%nat → life_inv c u t k s → step (Sync i j) s = Next s' →
  life_inv c u t k s'.
Proof.
  intros Hk [Hcfg Htok Htask Hfresh Hloc Hbuf Hhist Hret]
    (Hij & a & b & a' & b' & w' & Hi & Hj & Hst & ->)%step_Sync_inv.
  unfold tokens in Htok.
  pose proof (λ E, Hloc _ _ Hi E) as Ha.
  destruct (sync_step_life c u t _ _ _ _ _ _ Hst Htask Ha Hhist)
    as (Ec & Et & En & Eb & Htk & Ca' & Sb' & Hh').
  assert (<[i := a']> (threads s) !! j = Some b) as Hj'
      by by rewrite list_lookup_insert_ne.
  split; simpl; rewrite ?En, ?Eb, ?Et, ?Ec; try done.
  - unfold tokens. simpl.
    pose proof (weight_insert (carries t) _ _ _ a' Hi).
    pose proof (weight_insert (carries t) _ _ _ b' Hj'). lia.
  - intros x y [[-> ->]|[[-> ->]|(? & ? & Hx)]]%lookup_sync Hy;
      [by apply Sb' | congruence | by eapply Hloc].
Qed.

Lemma life_step_Call c u t k m s s' :
  (k + Nat.b2n (is_call t (Call m : action U)) ≤ 1)%nat →
  life_inv c u t k s → step (Call m) s = Next s' →
  life_inv c u t (k + Nat.b2n (is_call t (Call m : action U))) s'.
Proof.
  intros Hk [Hcfg Htok Htask Hfresh Hloc Hbuf Hhist Hret] ->%step_Call_inv.
  unfold tokens in Htok. split; simpl; try done.
  - unfold tokens. simpl. rewrite weight_app. simpl.
    rewrite entry_carries. simpl. lia.
  - intros E. apply Hfresh. lia.
  - intros j x [Hx|[_ Hx]]%lookup_app_Some Hc; [by eapply Hloc|].
    apply list_lookup_singleton_Some in Hx as [_ <-].
    rewrite entry_carries in Hc. rewrite Hc in Hk. simpl in Hk.
    destruct m; try done. simpl. apply Hfresh. lia.
Qed.

Lemma life_step c u t k a s s' :
  (k + Nat.b2n (is_call t a) ≤ 1)%nat →
  life_inv c u t k s → step a s = Next s' →
  life_inv c u t (k + Nat.b2n (is_call t a)) s'.
Proof.
  destruct a as [m|x| |i|i j]; intros Hk Hinv Hst.
  - by eapply life_step_Call.
  - simpl in *. rewrite Nat.add_0_r. injection Hst as <-.
    destruct Hinv as [Hcfg Htok Htask Hfresh Hloc Hbuf Hhist Hret].
    split; simpl; try done. by apply lookup_app_l_Some.
  - simpl in *. rewrite Nat.add_0_r. injection Hst as <-.
    by destruct Hinv as [Hcfg Htok Htask Hfresh Hloc Hbuf Hhist Hret].
  - simpl in *. rewrite Nat.add_0_r in *. by eapply life_step_Go.
  - simpl in *. rewrite Nat.add_0_r in *. by eapply life_step_Sync.
Qed.

Lemma life_run c u t acts : ∀ k s s',
  (k + calls t acts ≤ 1)%nat →
  life_inv c u t k s → run acts s = Next s' →
  life_inv c u t (k + calls t acts) s'.
Proof.
  induction acts as [|a acts IH]; intros k s s' Hk Hinv; simpl.
  - intros [= <-]. unfold calls. simpl. by rewrite Nat.add_0_r.
  - destruct (step a s) as [s1| |] eqn:E; simpl; [|done..]. intros Hrun.
    rewrite calls_cons in *. rewrite Nat.add_assoc in *.
    eapply IH; [done | | done]. eapply life_step; [lia | done..].
Qed.

(** *** The life of a task as a list *)

Lemma attempt_fst c b (tk : task U) : (attempt c b tk).1 = (execute c tk).1.
Proof. unfold attempt. by destruct (execute c tk). Qed.

Lemma task_life_Retry c n (tk : task U) :
  (attempt c false tk).2 = Retry →
  task_life c (S n) tk = ((execute c tk).1, Retry) :: task_life c n (execute c tk).1.
Proof.
  intros H. pose proof (attempt_fst c false tk) as Hf. simpl.
  destruct (attempt c false tk) as [t' r]. simpl in *. by subst.
Qed.

Lemma task_life_stop c n (tk : task U) r :
  (attempt c false tk).2 = r → r ≠ Retry →
  task_life c (S n) tk = [((execute c tk).1, r)].
Proof.
  intros H Hne. pose proof (attempt_fst c false tk) as Hf. simpl.
  destruct (attempt c false tk) as [t' r']. simpl in *. subst. by destruct r.
Qed.

Lemma task_life_ended c : ∀ (m : nat) (tk0 : task U) r,
  (∀ j, (j < m)%nat →
        (attempt c false (Nat.iter j (λ tk, (execute c tk).1) tk0)).2 = Retry) →
  (attempt c false (Nat.iter m (λ tk, (execute c tk).1) tk0)).2 = r →
  r ≠ Retry →
  (∀ k, task_life c (S m + k) tk0 = task_life c (S m) tk0)
  ∧ length (task_life c (S m) tk0) = S m
  ∧ last (task_life c (S m) tk0)
    = Some (Nat.iter (S m) (λ tk, (execute c tk).1) tk0, r).
Proof.
  induction m as [|m IH]; intros tk0 r Hret Hr Hne.
  - simpl in Hr. split; [|split].
    + intros k. simpl "+". by rewrite !(task_life_stop _ _ _ _ Hr Hne).
    + by rewrite (task_life_stop _ _ _ _ Hr Hne).
    + by rewrite (task_life_stop _ _ _ _ Hr Hne).
  - pose proof (Hret O ltac:(lia)) as H0. simpl in H0.
    destruct (IH (execute c tk0).1 r) as (E1 & E2 & E3); [| |done|].
    + intros j Hj. specialize (Hret (S j) ltac:(lia)).
      by rewrite Nat.iter_succ_r in Hret.
    + by rewrite Nat.iter_succ_r in Hr.
    + split; [|split].
      * intros k. change (S (S m) + k)%nat with (S (S m + k)).
        rewrite !(task_life_Retry _ _ _ H0). by rewrite E1.
      * rewrite (task_life_Retry _ _ _ H0). cbn [length]. by rewrite E2.
      * rewrite (task_life_Retry _ _ _ H0).
        rewrite (Nat.iter_succ_r (S m)), <- E3.
        destruct (task_life c (S m) (execute c tk0).1); [done|]. done.
Qed.

(** What the stage of a task says about its life as [task_life] has it. *)
Lemma life_of_stage c u m r :
  retried c u m → nth_route c u m = r → r ≠ Retry →
  (∀ k, task_life c (S m + k) (newTask u) = task_life c (S m) (newTask u))
  ∧ length (task_life c (S m) (newTask u)) = S m
  ∧ last (task_life c (S m) (newTask u)) = Some (iter_task c u (S m), r).
Proof. intros Hret Hr Hne. by apply task_life_ended. Qed.
(** *** Tasks not yet allocated *)

Lemma reachable_cfg (p : pool U) s : reachable p s → cfg (pl (wd s)) = cfg p.
Proof.
  induction 1 as [|a s s' _ IH Hst]; [done|].
  destruct a as [m|x| |i|i j].
  - by apply step_Call_inv in Hst as ->.
  - by injection Hst as <-.
  - by injection Hst as <-.
  - apply step_Go_inv in Hst as (th & th' & w' & new & _ & Hst & ->).
    simpl. by rewrite (thread_step_cfg _ _ _ _ _ Hst).
  - apply step_Sync_inv in Hst as (_ & a & b & a' & b' & w' & _ & _ & Hst & ->).
    destruct (sync_step_frame O _ _ _ _ _ _ Hst) as (E & _). simpl. by rewrite E.
Qed.

(** No thread, buffer or event refers to a task that has not been
    allocated. *)
Lemma unused_ids rt c0 (p : pool U) s :
  NewPool rt c0 = Next p → reachable p s →
  ∀ t, (length (tasks (wd s)) ≤ t)%nat →
       tokens t s = O ∧ executions t (wd s) = O.
Proof.
  intros Hp. induction 1 as [|a s s' _ IH Hst]; intros t Ht.
  - destruct (NewPool_inv _ _ _ Hp) as (_ & _ & _ & _ & HQ & _).
    unfold tokens, wtok, in_chan, executions. simpl. by rewrite HQ.
  - destruct a as [m|x| |i|i j].
    + pose proof Hst as Hst'. apply step_Call_inv in Hst' as ->. simpl in *.
      destruct (IH t Ht) as [Htok Hex]. split; [|done].
      unfold tokens in *. simpl. rewrite weight_app. simpl.
      assert (carries t (entry m) = false) as ->; [|simpl; lia].
      destruct m; try done. simpl in *. case_decide; [|done].
      apply bool_decide_eq_false. lia.
    + injection Hst as <-. simpl in *. rewrite length_app in Ht. simpl in Ht.
      apply IH. lia.
    + injection Hst as <-. simpl in *. by apply IH.
    + apply step_Go_inv in Hst as (th & th' & w' & new & Hi & Hst & ->).
      simpl in *. rewrite (thread_step_tasks_length _ _ _ _ _ Hst) in Ht.
      destruct (IH t Ht) as [Htok Hex]. unfold tokens in *. simpl.
      rewrite weight_app.
      pose proof (weight_insert (carries t) _ _ _ th' Hi).
      pose proof (thread_step_tokens t _ _ _ _ _ Hst).
      split; [lia|].
      rewrite (thread_step_executions _ _ _ _ _ _ Hst), carries_executes;
        [simpl; lia|].
      destruct (carries t th) eqn:E; [|done].
      pose proof (weight_lookup _ _ _ _ Hi E). lia.
    + apply step_Sync_inv in Hst
        as (Hij & a & b & a' & b' & w' & Hi & Hj & Hst & ->).
      destruct (sync_step_frame t _ _ _ _ _ _ Hst) as (_ & Et & En & Htk).
      simpl in *. rewrite Et in Ht. destruct (IH t Ht) as [Htok Hex].
      unfold tokens in *. simpl. split; [|by rewrite En].
      assert (<[i := a']> (threads s) !! j = Some b) as Hj'
          by by rewrite list_lookup_insert_ne.
      pose proof (weight_insert (carries t) _ _ _ a' Hi).
      pose proof (weight_insert (carries t) _ _ _ b' Hj'). lia.
Qed.

Lemma weight_zero f (l : list pc) i x :
  weight f l = O → l !! i = Some x → f x = false.
Proof.
  intros Hw Hi. destruct (f x) eqn:E; [|done].
  pose proof (weight_lookup _ _ _ _ Hi E). lia.
Qed.

(** A task just allocated starts its life. *)
Lemma life_inv_alloc rt c0 (p : pool U) s u :
  NewPool rt c0 = Next p → reachable p s →
  life_inv (cfg p) u (length (tasks (wd s))) O
    {| wd := alloc (newTask u) (wd s); threads := threads s |}.
Proof.
  intros Hp Hs.
  destruct (unused_ids _ _ _ _ Hp Hs (length (tasks (wd s))) ltac:(lia))
    as [Htok Hex].
  unfold tokens, wtok, executions in *.
  split; simpl; unfold tokens, wtok, executions; simpl.
  - by apply reachable_cfg.
  - lia.
  - rewrite Hex. simpl. by rewrite lookup_app_r, Nat.sub_diag.
  - done.
  - intros i th Hi Hc. assert (carries (length (tasks (wd s))) th = false) as E
        by (eapply weight_zero; [|done]; lia).
    congruence.
  - lia.
  - intros e Hin He. pose proof (count_ev_elem _ _ _ Hin He). lia.
  - rewrite Hex. intros j Hj. simpl in Hj. lia.
Qed.

(** *** The pool refines the life of a task *)

(** For a task allocated in a reachable state and queued at most once
    afterwards: at most one terminal event is recorded for it, all its
    executions but the last were routed to a retry, and a terminal event is
    the end of its life as [task_life] computes it. *)
Theorem pool_refines_task_life rt c0 (p : pool U) s u acts s' :
  NewPool rt c0 = Next p → reachable p s →
  run (NewTask u :: acts) s = Next s' →
  (calls (length (tasks (wd s))) acts ≤ 1)%nat →
  let t := length (tasks (wd s)) in
  let n := executions t (wd s') in
  (count_ev (ev_ended t) (history (wd s')) ≤ 1)%nat
  ∧ retried (cfg p) u (pred n)
  ∧ ∀ e, e ∈ history (wd s') → ev_ended t e = true →
      ∃ tk r,
        (∀ k, task_life (cfg p) (n + k) (newTask u) = task_life (cfg p) n (newTask u))
        ∧ length (task_life (cfg p) n (newTask u)) = n
        ∧ last (task_life (cfg p) n (newTask u)) = Some (tk, r)
        ∧ nth_route (cfg p) u (pred n) = r
        ∧ tk = iter_task (cfg p) u n
        ∧ ((r = ToErrCh ∧ e = EvDelivered t (ErrorCount (header tk)))
           ∨ (r = Finished ∧ e = EvFinished t (ErrorCount (header tk)))).
Proof.
  intros Hp Hs Hrun Hcalls t n. simpl in Hrun.
  pose proof (life_inv_alloc _ _ _ _ u Hp Hs) as Hinv.
  pose proof (life_run _ _ _ _ O _ _ Hcalls Hinv Hrun)
    as [_ Htok _ _ _ _ Hhist Hret].
  unfold tokens, wtok in Htok. simpl in Htok. fold t in Htok, Hhist, Hret, Hcalls.
  split; [lia|]. split; [done|].
  intros e Hin He. destruct (Hhist e Hin He) as (m & Hn & Hr & Hev).
  fold n in Hn. assert (∃ r, nth_route (cfg p) u m = r ∧ r ≠ Retry
    ∧ ((r = ToErrCh ∧ e = EvDelivered t (ErrorCount (header (iter_task (cfg p) u n))))
       ∨ (r = Finished ∧ e = EvFinished t (ErrorCount (header (iter_task (cfg p) u n))))))
    as (r & Hroute & Hne & Hcase).
  { destruct e; simpl in He; try done; apply bool_decide_eq_true in He as ->;
      destruct Hev as [Hroute ->]; fold n; eexists; (split; [exact Hroute|]);
      (split; [done|]); [right | left]; done. }
  destruct (life_of_stage _ _ _ _ Hr Hroute Hne) as (E1 & E2 & E3).
  exists (iter_task (cfg p) u n), r. clear Hev. clearbody n. subst n.
  simpl pred. done.
Qed.
(** *** The routes of particular tasks *)

Lemma iter_task_header c u n :
  header (iter_task c u (S n))
  = SetError (execute c (iter_task c u n)).2 (header (iter_task c u n)).
Proof.
  rewrite iter_task_S. unfold execute.
  by destruct (Func c (body (iter_task c u n))).
Qed.

Lemma execute_snd c (tk : task U) : (execute c tk).2 = (Func c (body tk)).2.
Proof. unfold execute. by destruct (Func c (body tk)). Qed.

Lemma execute_body c (tk : task U) : body (execute c tk).1 = (Func c (body tk)).1.
Proof. unfold execute. by destruct (Func c (body tk)). Qed.

Lemma nth_call_iter c : ∀ n (tk : task U),
  nth_call c n (body tk)
  = (execute c (Nat.iter n (λ tk, (execute c tk).1) tk)).2.
Proof.
  induction n as [|n IH]; intros tk; simpl.
  - by rewrite execute_snd.
  - rewrite <- execute_body, IH.
    pose proof (Nat.iter_succ_r n (λ tk, (execute c tk).1) tk) as E.
    simpl in E. by rewrite <- E.
Qed.

(** A task whose function always fails: its first executions are retried,
    the one that brings the error count to max(1, R) goes to the error
    queue. *)
Lemma failing_routes c u :
  always_fails c → Retries c ≤ max_int →
  ∀ j, Z.of_nat j < Z.max 1 (Retries c) →
    ErrorCount (header (iter_task c u j)) = Z.of_nat j
    ∧ ErrorCount (header (iter_task c u (S j))) = Z.of_nat (S j)
    ∧ nth_route c u j
      = if decide (Z.of_nat (S j) = Z.max 1 (Retries c)) then ToErrCh else Retry.
Proof.
  intros Hf Hmax.
  assert (∀ j, Z.of_nat j ≤ Z.max 1 (Retries c) →
               ErrorCount (header (iter_task c u j)) = Z.of_nat j) as Hcount.
  { induction j as [|j IH]; intros Hj; [done|].
    rewrite iter_task_header. specialize (Hf (body (iter_task c u j))).
    rewrite <- execute_snd in Hf.
    destruct (execute c (iter_task c u j)).2 as [x|]; [|done].
    rewrite SetError_count_succ; rewrite IH; int_lia. }
  intros j Hj. split; [apply Hcount; lia|]. split; [apply Hcount; lia|].
  rewrite nth_route_eq. specialize (Hf (body (iter_task c u j))).
  rewrite <- execute_snd in Hf.
  destruct (execute c (iter_task c u j)).2 as [x|]; [|done].
  unfold route. rewrite Hcount by lia.
  case_decide; [rewrite (proj2 (Z.leb_le _ _)) | rewrite (proj2 (Z.leb_gt _ _))];
    (done || lia).
Qed.

(** A task whose function fails K times and then succeeds, under a ceiling
    above K: K retries, then completion with error count K. *)
Lemma retried_routes c u (K : nat) :
  fails_then_succeeds c K u →
  K = O ∨ Z.of_nat K < Retries c →
  Retries c ≤ max_int →
  (∀ j, (j < K)%nat → nth_route c u j = Retry)
  ∧ nth_route c u K = Finished
  ∧ ErrorCount (header (iter_task c u (S K))) = Z.of_nat K.
Proof.
  intros [Hfail Hok] HR Hmax.
  assert (∀ j, nth_call c j u = (execute c (iter_task c u j)).2) as Hcall
      by (intros j; apply (nth_call_iter c j (newTask u))).
  assert (∀ j, (j ≤ K)%nat →
               ErrorCount (header (iter_task c u j)) = Z.of_nat j) as Hcount.
  { induction j as [|j IH]; intros Hj; [done|].
    rewrite iter_task_header. specialize (Hfail j ltac:(lia)).
    rewrite Hcall in Hfail.
    destruct (execute c (iter_task c u j)).2 as [x|]; [|done].
    rewrite SetError_count_succ; rewrite IH; int_lia. }
  split; [|split].
  - intros j Hj. rewrite nth_route_eq. specialize (Hfail j Hj).
    rewrite Hcall in Hfail.
    destruct (execute c (iter_task c u j)).2 as [x|]; [|done].
    unfold route. rewrite Hcount by lia.
    rewrite (proj2 (Z.leb_gt _ _)); [done | lia].
  - rewrite nth_route_eq. rewrite Hcall in Hok. by rewrite Hok.
  - rewrite iter_task_header. rewrite Hcall in Hok. rewrite Hok.
    rewrite SetError_count_nil. by apply Hcount.
Qed.

(** Under a ceiling of -1 the first execution is the last. *)
Lemma negative_routes c u :
  Retries c = -1 →
  (nth_route c u O = Finished
   ∧ ErrorCount (header (iter_task c u 1)) = 0)
  ∨ (nth_route c u O = ToErrCh
     ∧ ErrorCount (header (iter_task c u 1)) = 1).
Proof.
  intros HR. rewrite nth_route_eq. unfold route. rewrite !iter_task_header.
  destruct (execute c (iter_task c u 0)).2 as [x|]; [right | by left].
  rewrite HR. by split.
Qed.

(** *** Particular tasks in the pool *)

Lemma failing_task_in_pool rt c0 (p : pool U) s u acts s' :
  NewPool rt c0 = Next p →
  always_fails (cfg p) → 0 ≤ Retries (cfg p) ≤ max_int →
  reachable p s →
  run (NewTask u :: acts) s = Next s' →
  (calls (length (tasks (wd s))) acts ≤ 1)%nat →
  (count_ev (ev_ended (length (tasks (wd s)))) (history (wd s')) ≤ 1)%nat
  ∧ Z.of_nat (executions (length (tasks (wd s))) (wd s')) ≤ Z.max 1 (Retries (cfg p))
  ∧ ∀ e, e ∈ history (wd s') → ev_ended (length (tasks (wd s))) e = true →
      e = EvDelivered (length (tasks (wd s))) (Z.max 1 (Retries (cfg p)))
      ∧ Z.of_nat (executions (length (tasks (wd s))) (wd s'))
        = Z.max 1 (Retries (cfg p)).
Proof.
  intros Hp Hf [HR0 HRmax] Hs Hrun Hcalls.
  destruct (pool_refines_task_life _ _ _ _ _ _ _ Hp Hs Hrun Hcalls)
    as (Hone & Hret & Hend).
  set (t := length (tasks (wd s))) in *.
  set (n := executions t (wd s')) in *.
  set (M := Z.max 1 (Retries (cfg p))) in *.
  pose proof (failing_routes (cfg p) u Hf HRmax) as Hroutes. fold M in Hroutes.
  assert (Z.of_nat n ≤ M) as Hn.
  { destruct (decide (Z.of_nat n ≤ M)) as [|Hgt]; [done|]. exfalso.
    specialize (Hret (Z.to_nat (M - 1)) ltac:(lia)).
    destruct (Hroutes (Z.to_nat (M - 1)) ltac:(lia)) as (_ & _ & Hr).
    rewrite Hret in Hr. rewrite decide_True in Hr by lia. done. }
  split; [done|]. split; [done|].
  intros e Hin He.
  destruct (Hend e Hin He) as (tk & r & _ & Hlen & Hlast & Hr & -> & Hcase).
  assert (n ≠ O) as Hn0.
  { intros E. rewrite E in Hlast. done. }
  destruct (Hroutes (pred n) ltac:(lia)) as (_ & Hc & Hr').
  rewrite Hr in Hr'. replace (S (pred n)) with n in * by lia.
  case_decide as HnM.
  - destruct Hcase as [[_ ->]|[-> _]]; [|done]. by rewrite Hc, HnM.
  - destruct Hcase as [[-> _]|[-> _]]; done.
Qed.

Lemma retried_task_in_pool rt c0 (p : pool U) s u (K : nat) acts s' :
  NewPool rt c0 = Next p →
  fails_then_succeeds (cfg p) K u →
  K = O ∨ Z.of_nat K < Retries (cfg p) →
  Retries (cfg p) ≤ max_int →
  reachable p s →
  run (NewTask u :: acts) s = Next s' →
  (calls (length (tasks (wd s))) acts ≤ 1)%nat →
  (count_ev (ev_ended (length (tasks (wd s)))) (history (wd s')) ≤ 1)%nat
  ∧ (executions (length (tasks (wd s))) (wd s') ≤ S K)%nat
  ∧ ∀ e, e ∈ history (wd s') → ev_ended (length (tasks (wd s))) e = true →
      e = EvFinished (length (tasks (wd s))) (Z.of_nat K)
      ∧ executions (length (tasks (wd s))) (wd s') = S K.
Proof.
  intros Hp HK HR HRmax Hs Hrun Hcalls.
  destruct (pool_refines_task_life _ _ _ _ _ _ _ Hp Hs Hrun Hcalls)
    as (Hone & Hret & Hend).
  set (t := length (tasks (wd s))) in *.
  set (n := executions t (wd s')) in *.
  destruct (retried_routes _ _ _ HK HR HRmax) as (Hre & Hfin & Hc).
  assert (n ≤ S K)%nat as Hn.
  { destruct (decide (n ≤ S K)%nat) as [|Hgt]; [done|]. exfalso.
    specialize (Hret K ltac:(lia)). congruence. }
  split; [done|]. split; [done|].
  intros e Hin He.
  destruct (Hend e Hin He) as (tk & r & _ & Hlen & Hlast & Hr & -> & Hcase).
  assert (n ≠ O) as Hn0.
  { intros E. rewrite E in Hlast. done. }
  destruct (decide (n = S K)) as [E|Hne].
  - rewrite E in *. simpl in Hr. rewrite Hfin in Hr. subst r.
    destruct Hcase as [[? _]|[_ ->]]; [done|]. by rewrite Hc.
  - specialize (Hre (pred n) ltac:(lia)). rewrite Hr in Hre. subst r.
    destruct Hcase as [[? _]|[? _]]; done.
Qed.

Lemma negative_ceiling_in_pool rt c0 (p : pool U) s u acts s' :
  NewPool rt c0 = Next p →
  Retries c0 ≤ -1 →
  reachable p s →
  run (NewTask u :: acts) s = Next s' →
  (calls (length (tasks (wd s))) acts ≤ 1)%nat →
  (count_ev (ev_ended (length (tasks (wd s)))) (history (wd s')) ≤ 1)%nat
  ∧ (executions (length (tasks (wd s))) (wd s') ≤ 1)%nat
  ∧ ∀ e, e ∈ history (wd s') → ev_ended (length (tasks (wd s))) e = true →
      e = EvDelivered (length (tasks (wd s))) 1
      ∨ e = EvFinished (length (tasks (wd s))) 0.
Proof.
  intros Hp HR Hs Hrun Hcalls.
  destruct (NewPool_inv _ _ _ Hp) as (_ & _ & HR' & _).
  assert (Retries (cfg p) = -1) as HRp.
  { rewrite HR'. case_match eqn:E; [done|]. apply Z.ltb_ge in E. lia. }
  destruct (pool_refines_task_life _ _ _ _ _ _ _ Hp Hs Hrun Hcalls)
    as (Hone & Hret & Hend).
  set (t := length (tasks (wd s))) in *.
  set (n := executions t (wd s')) in *.
  pose proof (negative_routes (cfg p) u HRp) as Hfirst.
  assert (n ≤ 1)%nat as Hn.
  { destruct (decide (n ≤ 1)%nat) as [|Hgt]; [done|]. exfalso.
    specialize (Hret O ltac:(lia)). destruct Hfirst as [[? _]|[? _]]; congruence. }
  split; [done|]. split; [done|].
  intros e Hin He.
  destruct (Hend e Hin He) as (tk & r & _ & Hlen & Hlast & Hr & -> & Hcase).
  assert (n = 1%nat) as E.
  { destruct n as [|[|]]; [done | done | lia]. }
  rewrite E in *. simpl in Hr.
  destruct Hfirst as [[Hf Hc]|[Hf Hc]]; rewrite Hf in Hr; subst r;
    destruct Hcase as [[? ->]|[? ->]]; try done; rewrite Hc; auto.
Qed.
(** *** The claims on retries *)

(** C1 (as amended).  A fresh task whose function always fails, in a pool
    with retry ceiling R, 0 <= R.  Its life: max(1, R) executions, exactly
    one hand-off to the error queue, at the last of them and with error
    count max(1, R), and no completion; for R = 0 that is after one
    execution.  And in the pool, under every schedule in which the task is
    passed to [Queue] at most once: it is executed at most max(1, R) times,
    at most one terminal event is recorded for it, and that event is its
    reception from the error queue with error count max(1, R), after
    max(1, R) executions. *)
Theorem always_failing_delivered rt c0 (p : pool U) (u : U) :
  NewPool rt c0 = Next p →
  always_fails (cfg p) → 0 ≤ Retries (cfg p) ≤ max_int →
  (∀ fuel, (Z.to_nat (Z.max 1 (Retries (cfg p))) ≤ fuel)%nat →
     ∃ t', deliveries (task_life (cfg p) fuel (newTask u)) = [t']
           ∧ last (task_life (cfg p) fuel (newTask u)) = Some (t', ToErrCh)
           ∧ ErrorCount (header t') = Z.max 1 (Retries (cfg p))
           ∧ Z.of_nat (length (task_life (cfg p) fuel (newTask u)))
             = Z.max 1 (Retries (cfg p))
           ∧ completions (task_life (cfg p) fuel (newTask u)) = [])
  ∧ (∀ s acts s',
       reachable p s →
       run (NewTask u :: acts) s = Next s' →
       (calls (length (tasks (wd s))) acts ≤ 1)%nat →
       (count_ev (ev_ended (length (tasks (wd s)))) (history (wd s')) ≤ 1)%nat
       ∧ Z.of_nat (executions (length (tasks (wd s))) (wd s'))
         ≤ Z.max 1 (Retries (cfg p))
       ∧ ∀ e, e ∈ history (wd s') →
              ev_ended (length (tasks (wd s))) e = true →
              e = EvDelivered (length (tasks (wd s))) (Z.max 1 (Retries (cfg p)))
              ∧ Z.of_nat (executions (length (tasks (wd s))) (wd s'))
                = Z.max 1 (Retries (cfg p))).
Proof.
  intros Hp Hf HR. split.
  - intros fuel Hfuel. by apply failing_task_life.
  - intros s acts s' Hs Hrun Hcalls. by eapply failing_task_in_pool.
Qed.

(** C2 (as amended).  A fresh task whose function fails exactly K times and
    then succeeds, in a pool with a retry ceiling above K (or any ceiling
    when K = 0).  Its life: no hand-off to the error queue, and completion
    at the (K+1)-th execution with error count K.  And in the pool, under
    every schedule in which the task is passed to [Queue] at most once: it
    is executed at most K+1 times, at most one terminal event is recorded
    for it, and that event is its completion with error count K; it is never
    received from the error queue. *)
Theorem retried_task_completes rt c0 (p : pool U) (K : nat) (u : U) :
  NewPool rt c0 = Next p →
  fails_then_succeeds (cfg p) K u →
  K = O ∨ Z.of_nat K < Retries (cfg p) →
  Retries (cfg p) ≤ max_int →
  (∀ fuel, (K < fuel)%nat →
     deliveries (task_life (cfg p) fuel (newTask u)) = []
     ∧ ∃ t', completions (task_life (cfg p) fuel (newTask u)) = [t']
             ∧ last (task_life (cfg p) fuel (newTask u)) = Some (t', Finished)
             ∧ ErrorCount (header t') = Z.of_nat K
             ∧ length (task_life (cfg p) fuel (newTask u)) = S K)
  ∧ (∀ s acts s',
       reachable p s →
       run (NewTask u :: acts) s = Next s' →
       (calls (length (tasks (wd s))) acts ≤ 1)%nat →
       (count_ev (ev_ended (length (tasks (wd s)))) (history (wd s')) ≤ 1)%nat
       ∧ (executions (length (tasks (wd s))) (wd s') ≤ S K)%nat
       ∧ ∀ e, e ∈ history (wd s') →
              ev_ended (length (tasks (wd s))) e = true →
              e = EvFinished (length (tasks (wd s))) (Z.of_nat K)
              ∧ executions (length (tasks (wd s))) (wd s') = S K).
Proof.
  intros Hp HK HR Hmax. split.
  - intros fuel Hfuel. by apply retried_task_life.
  - intros s acts s' Hs Hrun Hcalls. by eapply retried_task_in_pool.
Qed.

(** C3 (as amended).  A retry ceiling of -1 or below is stored as -1, and
    then there are no retries.  A failed execution of a task (error count
    not overflowing, context not done) is routed to the error queue at once,
    so its life is that one execution.  And in the pool, under every
    schedule in which a task is passed to [Queue] at most once: it is
    executed at most once (it is not put back on the workers' queue), and
    the one terminal event it can have is its reception from the error queue
    with error count 1, or its completion. *)
Theorem negative_ceiling_delivers rt c0 (p : pool U) :
  Retries c0 ≤ -1 →
  NewPool rt c0 = Next p →
  Retries (cfg p) = -1
  ∧ (∀ t fuel,
       0 ≤ ErrorCount (header t) < max_int →
       snd (Func c0 (body t)) ≠ None →
       snd (attempt (cfg p) false t) = ToErrCh
       ∧ ErrorCount (header (fst (attempt (cfg p) false t)))
         = ErrorCount (header t) + 1
       ∧ task_life (cfg p) (S fuel) t = [(fst (attempt (cfg p) false t), ToErrCh)])
  ∧ (∀ s u acts s',
       reachable p s →
       run (NewTask u :: acts) s = Next s' →
       (calls (length (tasks (wd s))) acts ≤ 1)%nat →
       (count_ev (ev_ended (length (tasks (wd s)))) (history (wd s')) ≤ 1)%nat
       ∧ (executions (length (tasks (wd s))) (wd s') ≤ 1)%nat
       ∧ ∀ e, e ∈ history (wd s') →
              ev_ended (length (tasks (wd s))) e = true →
              e = EvDelivered (length (tasks (wd s))) 1
              ∨ e = EvFinished (length (tasks (wd s))) 0).
Proof.
  intros HR Hp.
  destruct (NewPool_inv _ _ _ Hp) as (_ & _ & HR' & _).
  assert (Retries (cfg p) = -1) as HRp.
  { rewrite HR'. case_match eqn:E; [done|]. apply Z.ltb_ge in E. lia. }
  split; [done|]. split.
  - intros t fuel Hc Hfail.
    by destruct (negative_ceiling_attempt rt c0 p t fuel HR Hp Hc Hfail)
      as (_ & ? & ? & ?).
  - intros s u acts s' Hs Hrun Hcalls. by eapply negative_ceiling_in_pool.
Qed.

End Life.

(** ** The example schedules, and the claims at concrete inputs *)

Lemma run_sched_wait : run sched_wait (init (pool_test countdown)) = Next state_wait.
Proof. vm_compute. reflexivity. Qed.

Lemma run_sched_shutdown_twice :
  run sched_shutdown_twice (init (pool_test countdown)) = Next state_shutdown_twice.
Proof. vm_compute. reflexivity. Qed.

Lemma run_sched_queue_late :
  run sched_queue_late (init (pool_test countdown)) = Next state_queue_late.
Proof. vm_compute. reflexivity. Qed.

(** The always-failing task of the tests in the pool itself: under
    [Retries: 2] it is executed twice and received from the error queue with
    error count 2, which brings the in-flight counter back to zero. *)
Lemma run_sched_failing :
  run sched_failing (init (pool_test failing)) = Next state_failing
  ∧ history (wd state_failing)
    = [EvExecuted 0 (Some "failed"%string); EvExecuted 0 (Some "failed"%string);
       EvDelivered 0 2]
  ∧ threads state_failing !! 7%nat = Some (ErrDone (Some O))
  ∧ inflightWG (pl (wd state_failing)) = 0.
Proof. split; [vm_compute; reflexivity|]. repeat split. Qed.

Lemma Wait_blocked_until_Shutdown_witness :
  inflightWG (pl (wd state_wait)) = 0
  ∧ inputLock (pl (wd state_wait)) = true
  ∧ threads state_wait !! 6%nat = Some WaitLock
  ∧ step (Go 6) state_wait = Blocked.
Proof.
  destruct (Wait_blocked_until_Shutdown rt64 (cfg_test countdown)
              (pool_test countdown) state_wait (NewPool_test countdown))
    as (_ & Hblk & _).
  - eapply run_reachable; [apply reach_init | apply run_sched_wait].
  - destruct Hblk as [Hlock Hw]; [exists O; reflexivity | reflexivity |].
    split; [reflexivity|]. split; [exact Hlock|]. split; [reflexivity|].
    destruct (Hw 6%nat WaitLock eq_refl eq_refl) as [|[_ ?]]; [discriminate | done].
Defined.

(** C4, as stated, fails: [Run] has returned, the one task admitted has
    completed and the in-flight counter is zero, no [Shutdown] has been
    called, and yet the call of [Wait] cannot take its lock; it has not
    returned in any continuation in which no [Shutdown] has begun. *)
Lemma Wait_does_not_return :
  run sched_wait (init (pool_test countdown)) = Next state_wait
  ∧ threads state_wait !! 0%nat = Some RunDone
  ∧ history (wd state_wait)
    = [EvExecuted 0 (Some "retry"%string); EvExecuted 0 None; EvFinished 0 1]
  ∧ inflightWG (pl (wd state_wait)) = 0
  ∧ inFlight (pl (wd state_wait)) = 0
  ∧ shutdownOnce (pl (wd state_wait)) = OnceIdle
  ∧ threads state_wait !! 6%nat = Some WaitLock
  ∧ step (Go 6) state_wait = Blocked
  ∧ ∀ acts s', run acts state_wait = Next s' →
      shutdownOnce (pl (wd s')) = OnceIdle →
      threads s' !! 6%nat = Some WaitLock.
Proof.
  split; [apply run_sched_wait|]. repeat (split; [reflexivity|]).
  intros acts s' Hrun Hidle.
  apply (wait_stays_pending rt64 (cfg_test countdown) (pool_test countdown)
           acts state_wait s' 6%nat);
    [apply NewPool_test | | exists O; reflexivity | reflexivity | exact Hrun | exact Hidle].
  eapply run_reachable; [apply reach_init | apply run_sched_wait].
Qed.

Lemma Shutdown_runs_once_witness :
  threads state_shutdown_twice !! 4%nat = Some SdDone
  ∧ threads state_shutdown_twice !! 5%nat = Some SdDone
  ∧ sd_events (history (wd state_shutdown_twice)) = shutdown_body.
Proof.
  destruct (Shutdown_runs_once rt64 (cfg_test countdown)
              (pool_test countdown) state_shutdown_twice (NewPool_test countdown))
    as [_ Hdone].
  - eapply run_reachable; [apply reach_init | apply run_sched_shutdown_twice].
  - split; [reflexivity|]. split; [reflexivity|].
    destruct (Hdone 4%nat eq_refl) as [Hb _]. exact Hb.
Defined.

Lemma Queue_after_Shutdown_noop_witness :
  threads state_queue_late !! 5%nat = Some (QueueCheck 0)
  ∧ step (Go 5) state_queue_late
    = Next {| wd := wd state_queue_late;
              threads := <[5%nat := QueueDone]> (threads state_queue_late) |}.
Proof.
  split; [reflexivity|].
  eapply (Queue_after_Shutdown_noop rt64 (cfg_test countdown) (pool_test countdown)
            state_queue_late (NewPool_test countdown)) with (acts := []) (t := O).
  - eapply run_reachable; [apply reach_init | apply run_sched_queue_late].
  - right. exists 4%nat, SdWait. split; reflexivity.
  - reflexivity.
  - reflexivity.
Defined.

(** The example schedules run, and lead to the states above. *)
Lemma run_sched_setup f :
  run sched_setup (init (pool_test f)) = Next (state_setup f).
Proof. reflexivity. Qed.

Lemma run_sched_setup_negative :
  run sched_setup (init pool_negative) = Next state_setup_negative.
Proof. reflexivity. Qed.

Lemma NewPool_negative : NewPool rt64 cfg_negative = Next pool_negative.
Proof. reflexivity. Qed.

Lemma run_sched_retry2 :
  run sched_retry2 (init (pool_test countdown)) = Next state_retry2
  ∧ history (wd state_retry2)
    = [EvExecuted 0 (Some "retry"%string); EvExecuted 0 (Some "retry"%string);
       EvDelivered 0 2].
Proof. split; [vm_compute; reflexivity | reflexivity]. Qed.

Lemma run_sched_negative :
  run sched_negative (init pool_negative) = Next state_negative
  ∧ history (wd state_negative)
    = [EvExecuted 0 (Some "failed"%string); EvDelivered 0 1].
Proof. split; [vm_compute; reflexivity | reflexivity]. Qed.

Lemma always_failing_delivered_witness :
  (∃ t', deliveries (task_life (cfg_test failing) 5 (newTask O)) = [t']
         ∧ ErrorCount (header t') = 2)
  ∧ ∀ e, e ∈ history (wd state_failing) → ev_ended 0 e = true →
         e = EvDelivered 0 2.
Proof.
  destruct (always_failing_delivered rt64 (cfg_test failing) (pool_test failing) O
              (NewPool_test failing)) as [Hlife Hpool].
  - intros u. discriminate.
  - unfold max_int. simpl. lia.
  - split.
    + destruct (Hlife 5%nat) as (t' & Hd & _ & Hc & _); [vm_compute; lia|].
      exists t'. split; [exact Hd | exact Hc].
    + intros e Hin He.
      destruct (Hpool (state_setup failing) sched_delivery state_failing)
        as (_ & _ & Hev).
      * eapply run_reachable; [apply reach_init | apply run_sched_setup].
      * vm_compute. reflexivity.
      * vm_compute. lia.
      * destruct (Hev e Hin He) as [-> _]. reflexivity.
Defined.

(** C1, as stated, fails for the configuration of the tests: with
    [Retries: 2] the always-failing task is handed to the error queue at its
    second execution, with error count 2 and not 2 + 1; in the pool it is
    received from the error queue with that count. *)
Lemma always_failing_not_R_plus_1 :
  task_life (cfg_test failing) 5 (newTask O)
  = [ ({| header := {| retries := 1; err := Some "failed"%string |}; body := 1%nat |}, Retry);
      ({| header := {| retries := 2; err := Some "failed"%string |}; body := 2%nat |}, ToErrCh) ]
  ∧ ¬ (∃ t', deliveries (task_life (cfg_test failing) 5 (newTask O)) = [t']
             ∧ ErrorCount (header t') = Retries (cfg_test failing) + 1)
  ∧ run sched_failing (init (pool_test failing)) = Next state_failing
  ∧ history (wd state_failing)
    = [EvExecuted 0 (Some "failed"%string); EvExecuted 0 (Some "failed"%string);
       EvDelivered 0 2].
Proof.
  split; [reflexivity|]. split; [|split; [vm_compute; reflexivity | reflexivity]].
  intros (t' & Hd & Hc).
  vm_compute in Hd. injection Hd as <-. vm_compute in Hc. discriminate.
Qed.

Lemma retried_task_completes_witness :
  (deliveries (task_life (cfg_test countdown) 5 (newTask 1%nat)) = []
   ∧ ∃ t', completions (task_life (cfg_test countdown) 5 (newTask 1%nat)) = [t']
           ∧ ErrorCount (header t') = 1)
  ∧ ∀ e, e ∈ history (wd state_wait) → ev_ended 0 e = true →
         e = EvFinished 0 1.
Proof.
  destruct (retried_task_completes rt64 (cfg_test countdown) (pool_test countdown)
              1 1%nat (NewPool_test countdown)) as [Hlife Hpool].
  - split; [|reflexivity]. intros n Hn. assert (n = O) as -> by lia. discriminate.
  - right. simpl. lia.
  - unfold max_int. simpl. lia.
  - split.
    + destruct (Hlife 5%nat) as (Hd & t' & Hc & _ & Hn & _); [lia|].
      split; [exact Hd|]. exists t'. split; [exact Hc | exact Hn].
    + intros e Hin He.
      destruct (Hpool (state_setup countdown) (sched_two_executions ++ [Call MWait])
                  state_wait) as (_ & _ & Hev).
      * eapply run_reachable; [apply reach_init | apply run_sched_setup].
      * vm_compute. reflexivity.
      * vm_compute. lia.
      * destruct (Hev e Hin He) as [-> _]. reflexivity.
Defined.

(** C2, as stated, fails when the ceiling equals K: under [Retries: 2] a task
    that fails twice and would then succeed is handed to the error queue at
    its second failure and never completes; in the pool it is received from
    the error queue. *)
Lemma retried_at_ceiling_delivered :
  fails_then_succeeds (cfg_test countdown) 2 2%nat
  ∧ Z.of_nat 2 ≤ Retries (cfg_test countdown)
  ∧ deliveries (task_life (cfg_test countdown) 5 (newTask 2%nat))
    = [ {| header := {| retries := 2; err := Some "retry"%string |}; body := O |} ]
  ∧ completions (task_life (cfg_test countdown) 5 (newTask 2%nat)) = []
  ∧ run sched_retry2 (init (pool_test countdown)) = Next state_retry2
  ∧ history (wd state_retry2)
    = [EvExecuted 0 (Some "retry"%string); EvExecuted 0 (Some "retry"%string);
       EvDelivered 0 2].
Proof.
  split; [|split; [simpl; lia | split; [reflexivity | split; [reflexivity|]]]].
  - split; [|reflexivity]. intros n Hn.
    destruct n as [|[|n]]; [discriminate | discriminate | lia].
  - split; [vm_compute; reflexivity | reflexivity].
Qed.

Lemma negative_ceiling_delivers_witness :
  Retries (cfg pool_negative) = -1
  ∧ snd (attempt (cfg pool_negative) false (newTask O)) = ToErrCh
  ∧ ∀ e, e ∈ history (wd state_negative) → ev_ended 0 e = true →
         e = EvDelivered 0 1 ∨ e = EvFinished 0 0.
Proof.
  destruct (negative_ceiling_delivers rt64 cfg_negative pool_negative)
    as (HR & Hlife & Hpool).
  - simpl. lia.
  - apply NewPool_negative.
  - split; [exact HR|]. split.
    + destruct (Hlife (newTask O) O) as (Ha & _).
      * unfold max_int. simpl. lia.
      * discriminate.
      * exact Ha.
    + intros e Hin He.
      destruct (Hpool state_setup_negative O sched_negative_task state_negative)
        as (_ & _ & Hev).
      * eapply run_reachable; [apply reach_init | apply run_sched_setup_negative].
      * vm_compute. reflexivity.
      * vm_compute. lia.
      * exact (Hev e Hin He).
Defined.

(** C3, as stated, fails: [Retries: -5] is stored as -1, and the first
    failure of a task is routed to the error queue, not back to the workers'
    queue; the task's life has one delivery and no retry, and in the pool the
    task is received from the error queue after its first execution. *)
Lemma negative_ceiling_not_unbounded :
  NewPool rt64 cfg_negative = Next pool_negative
  ∧ Retries (cfg pool_negative) = -1
  ∧ route (cfg pool_negative) false
          (fst (execute (cfg pool_negative) (newTask O)))
          (snd (execute (cfg pool_negative) (newTask O))) = ToErrCh
  ∧ task_life (cfg pool_negative) 5 (newTask O)
    = [ ({| header := {| retries := 1; err := Some "failed"%string |}; body := 1%nat |},
         ToErrCh) ]
  ∧ run sched_negative (init pool_negative) = Next state_negative
  ∧ history (wd state_negative)
    = [EvExecuted 0 (Some "failed"%string); EvDelivered 0 1].
Proof.
  repeat (split; [reflexivity|]). reflexivity.
Qed.

(** * Further properties of the pool *)

(** ** The counters of the pool *)

Lemma weight_replicate_true f n x : f x = true → weight f (replicate n x) = n.
Proof. intros H. induction n as [|n IH]; simpl; [done|]. by rewrite H, IH. Qed.

Lemma weight_le f g l :
  (∀ x, f x = true → g x = true) → (weight f l ≤ weight g l)%nat.
Proof.
  intros H. induction l as [|x l IH]; simpl; [done|].
  specialize (H x). destruct (f x), (g x); simpl; try lia.
  all: by specialize (H eq_refl).
Qed.

Section Acct.

Context {U : Type}.
Implicit Types (w : world U) (s : state U) (th : pc).

Ltac thread_cases H :=
  match type of H with thread_step ?th _ = _ => destruct th end;
  simpl in H; unfold task_done, wg_add, close_chan, obind in H;
  simplify_eq/=; repeat (case_match; simplify_eq/=).

Ltac sync_cases H :=
  match type of H with sync_step ?a ?b _ = _ => destruct a, b end;
  simpl in H; simplify_eq/=; repeat (case_match; simplify_eq/=).

Ltac buf_facts :=
  repeat match goal with
  | E : buf _ = _ |- _ => rewrite E in *; clear E
  | E : ctx_done _ = _ |- _ => rewrite E in *; clear E
  end; simpl in *.

(** A step of a goroutine keeps the balance between [inflightWG] and the
    tasks pending or abandoned: a task leaves the count only with a [Done],
    except where the context is done. *)
Lemma thread_step_inflight th w th' w' new :
  thread_step th w = Next (th', w', new) →
  (Z.of_nat (Nat.b2n (counted th') + weight counted new
             + length (buf (inputQ (pl w'))) + abandoned w')
   - inflightWG (pl w')
   ≤ Z.of_nat (Nat.b2n (counted th) + length (buf (inputQ (pl w))) + abandoned w)
     - inflightWG (pl w))
  ∧ (ctx_done (pl w') = false →
     ctx_done (pl w) = false
     ∧ Z.of_nat (Nat.b2n (counted th') + weight counted new
                 + length (buf (inputQ (pl w'))))
       - inflightWG (pl w')
       = Z.of_nat (Nat.b2n (counted th) + length (buf (inputQ (pl w))))
         - inflightWG (pl w))
  ∧ (abandoned w ≤ abandoned w')%nat
  ∧ (inner th = false → abandoned w' = abandoned w).
Proof.
  intros H. unfold abandoned.
  thread_cases H; simpl; rewrite ?weight_replicate by done;
    rewrite ?count_ev_snoc, ?length_app; simpl;
    repeat split; try done; try lia.
  all: try (intros; buf_facts; first [done | lia]).
  all: buf_facts; try lia.
  all: unfold route in *; repeat case_match; simplify_eq.
Qed.

(** [workersWG] changes as the worker goroutines come and go. *)
Lemma thread_step_workers th w th' w' new :
  thread_step th w = Next (th', w', new) →
  workersWG (pl w') - Z.of_nat (Nat.b2n (is_worker th') + weight is_worker new)
  = workersWG (pl w) - Z.of_nat (Nat.b2n (is_worker th)).
Proof.
  intros H.
  thread_cases H; simpl; rewrite ?weight_replicate_true by done;
    rewrite ?weight_replicate by done; lia.
Qed.

(** Every [Run] starts [Size] workers, and none of them returns while the
    workers' queue is open. *)
Lemma thread_step_size th w th' w' new :
  thread_step th w = Next (th', w', new) →
  closed (workersQ (pl w')) = false →
  closed (workersQ (pl w)) = false
  ∧ weight run_done new = O
  ∧ (Nat.b2n (is_worker th') + weight is_worker new
     + Nat.b2n (run_done th) * Z.to_nat (Size (cfg (pl w)))
     = Nat.b2n (is_worker th)
       + Nat.b2n (run_done th') * Z.to_nat (Size (cfg (pl w))))%nat.
Proof.
  intros H.
  thread_cases H; simpl; rewrite ?(weight_replicate_true is_worker) by done;
    rewrite ?(weight_replicate run_done) by done; intros Hc;
    first [congruence | split; [done | split; [done | lia]]].
Qed.

(** The flags follow the sequence of [Shutdown]. *)
Lemma thread_step_flags_ok th w th' w' new :
  thread_step th w = Next (th', w', new) →
  local_ok th w → flags_ok w →
  flags_ok w' ∧ (sd_len w ≤ sd_len w')%nat.
Proof.
  intros H (Hb & _ & Hc & Hn) [F1 F2 F3 F4 F5 F6]. unfold sd_len in *.
  thread_cases H; simpl in *.
  all: try (destruct Hb as [_ Hb]; [done|]; simpl in Hb).
  all: try (specialize (Hc eq_refl)); try (specialize (Hn eq_refl)).
  all: (split; [split|]); unfold sd_len; simpl;
    rewrite ?sd_events_snoc; simpl; rewrite ?app_nil_r, ?length_app; simpl.
  all: try (rewrite Hb in *; simpl in * ).
  all: try done; try lia.
  all: try (intuition (first [lia | congruence])).
  split; [lia | intros _; apply F2; lia].
Qed.

(** Once the field [inputQ] is nil nothing gets past the send of [Queue]. *)
Lemma thread_step_inner th w th' w' new :
  thread_step th w = Next (th', w', new) →
  inputQ_nil (pl w) = true →
  (Nat.b2n (inner th') + weight inner new + length (buf (inputQ (pl w')))
   ≤ Nat.b2n (inner th) + length (buf (inputQ (pl w))))%nat.
Proof.
  intros H Hn.
  thread_cases H; simpl; rewrite ?weight_replicate by done; buf_facts;
    first [lia | congruence].
Qed.

(** The wait of [Shutdown] is the one step that takes the sequence to its
    second statement, and it needs [inflightWG] at zero. *)
Lemma thread_step_drain th w th' w' new :
  thread_step th w = Next (th', w', new) →
  local_ok th w →
  (sd_len w < 2)%nat → (2 ≤ sd_len w')%nat →
  inflightWG (pl w) = 0 ∧ new = [] ∧ inner th = false ∧ inner th' = false
  ∧ buf (inputQ (pl w')) = buf (inputQ (pl w)).
Proof.
  intros H (Hb & _). unfold sd_len.
  thread_cases H; simpl in *.
  all: try (destruct Hb as [_ Hb]; [done|]; simpl in Hb).
  all: rewrite ?sd_events_snoc; simpl; rewrite ?app_nil_r, ?length_app; simpl.
  all: try (rewrite Hb; simpl).
  all: try lia.
  intros _ _. repeat split; try done. lia.
Qed.

(** [ErroredTask] gets nil only from the closed error queue. *)
Lemma thread_step_nil_result th w th' w' new :
  thread_step th w = Next (th', w', new) →
  (th' = ErrDone None → closed (errCh (pl w')) = true)
  ∧ ErrDone None ∉ new.
Proof.
  intros H.
  thread_cases H; (split; [done|]); try (by intros ?%elem_of_nil).
  all: intros Hin; repeat (apply elem_of_cons in Hin as [?|Hin]; [done|]);
    try (by apply elem_of_nil in Hin).
  by apply elem_of_replicate in Hin as [? _].
Qed.

(** *** Meetings *)

Lemma sync_step_acct a b w a' b' w' :
  sync_step a b w = Next (a', b', w') →
  inflightWG (pl w') = inflightWG (pl w)
  ∧ workersWG (pl w') = workersWG (pl w)
  ∧ ctx_done (pl w') = ctx_done (pl w)
  ∧ cfg (pl w') = cfg (pl w)
  ∧ buf (inputQ (pl w')) = buf (inputQ (pl w))
  ∧ closed (workersQ (pl w')) = closed (workersQ (pl w))
  ∧ closed (errCh (pl w')) = closed (errCh (pl w))
  ∧ workersQ_nil (pl w') = workersQ_nil (pl w)
  ∧ abandoned w' = abandoned w
  ∧ (Nat.b2n (counted a') + Nat.b2n (counted b')
     = Nat.b2n (counted a) + Nat.b2n (counted b))%nat
  ∧ (Nat.b2n (is_worker a') + Nat.b2n (is_worker b')
     = Nat.b2n (is_worker a) + Nat.b2n (is_worker b))%nat
  ∧ run_done a = false ∧ run_done b = false
  ∧ run_done a' = false ∧ run_done b' = false
  ∧ a' ≠ ErrDone None ∧ b' ≠ ErrDone None
  ∧ (inputQ_nil (pl w) = true →
     (Nat.b2n (inner a') + Nat.b2n (inner b')
      ≤ Nat.b2n (inner a) + Nat.b2n (inner b))%nat).
Proof.
  intros H. unfold abandoned.
  sync_cases H; simpl in *; rewrite ?count_ev_snoc; simpl;
    rewrite ?Nat.add_0_r; repeat split; try done; try lia.
  intros E. rewrite E in *. done.
Qed.

(** *** The invariant of the counters *)

Lemma entry_acct m :
  counted (entry m) = false ∧ inner (entry m) = false
  ∧ is_worker (entry m) = false ∧ run_done (entry m) = false
  ∧ entry m ≠ ErrDone None.
Proof. by destruct m. Qed.

Lemma acct_init rt c (p : pool U) : NewPool rt c = Next p → acct (init p).
Proof.
  intros Hp. destruct (NewPool_inv _ _ _ Hp)
    as (_ & _ & _ & _ & HQ & HW & HE & Hn & Hwn & _ & _ & Hctx & Hwg & Hwwg & _).
  split; unfold pending, inside, abandoned, sd_len, count_ev; simpl;
    rewrite ?HQ, ?HW, ?HE, ?Hwg, ?Hwwg; simpl; try done; try lia.
  split; unfold sd_len; simpl; rewrite ?HQ, ?HW, ?HE, ?Hn, ?Hwn; simpl;
    try (split; intros; first [done | lia]); intros; first [done | lia].
Qed.

Lemma acct_step_Call m s s' : acct s → step (Call m) s = Next s' → acct s'.
Proof.
  intros [A1 A2 A3 A4 A5 A6 A7] ->%step_Call_inv.
  destruct (entry_acct m) as (E1 & E2 & E3 & E4 & E5).
  unfold pending, inside in *.
  split; unfold pending, inside; simpl; rewrite ?weight_app; simpl;
    rewrite ?E1, ?E2, ?E3, ?E4; simpl; rewrite ?Nat.add_0_r; try done.
  intros i [Hi|[_ Hi]]%lookup_app_Some; [by eauto|].
  by apply list_lookup_singleton_Some in Hi as [_ ?].
Qed.

Lemma acct_step_Go i s s' : inv s → acct s → step (Go i) s = Next s' → acct s'.
Proof.
  intros Hinv [A1 A2 A3 A4 A5 A6 A7]
    (th & th' & w' & new & Hi & Hst & ->)%step_Go_inv.
  pose proof (inv_local _ Hinv _ _ Hi) as Hth.
  destruct (thread_step_inflight _ _ _ _ _ Hst) as (I1 & I2 & I3 & I4).
  pose proof (thread_step_workers _ _ _ _ _ Hst) as HW.
  destruct (thread_step_flags_ok _ _ _ _ _ Hst Hth A5) as [F Hmono].
  destruct (thread_step_nil_result _ _ _ _ _ Hst) as [N1 N2].
  pose proof (weight_insert counted _ _ _ th' Hi) as Pc.
  pose proof (weight_insert inner _ _ _ th' Hi) as Pi.
  pose proof (weight_insert is_worker _ _ _ th' Hi) as Pw.
  pose proof (weight_insert run_done _ _ _ th' Hi) as Pr.
  unfold pending, inside in *.
  split; unfold pending, inside; simpl; rewrite ?weight_app.
  - lia.
  - intros Hc. destruct (I2 Hc) as [Hc0 I2']. specialize (A2 Hc0). lia.
  - lia.
  - intros Hc. destruct (thread_step_size _ _ _ _ _ Hst Hc) as (Hc0 & Hr & Hsz).
    specialize (A4 Hc0). rewrite (thread_step_cfg _ _ _ _ _ Hst), Hr.
    assert ((weight run_done (<[i:=th']> (threads s)) + Nat.b2n (run_done th))
            * Z.to_nat (Size (cfg (pl (wd s))))
            = (weight run_done (threads s) + Nat.b2n (run_done th'))
              * Z.to_nat (Size (cfg (pl (wd s)))))%nat as Pm by by rewrite Pr.
    rewrite !Nat.mul_add_distr_r in Pm. lia.
  - done.
  - intros H2. destruct (decide (2 ≤ sd_len (wd s))%nat) as [Hge|Hlt].
    + destruct (A6 Hge) as [Hin Hab].
      pose proof (fo_drained_nil _ A5 Hge) as Hnil.
      pose proof (thread_step_inner _ _ _ _ _ Hst Hnil).
      assert (inner th = false) as Eth by (eapply weight_zero; [|done]; lia).
      rewrite Eth in *. split; [simpl in *; lia|]. by rewrite I4.
    + destruct (thread_step_drain _ _ _ _ _ Hst Hth ltac:(lia) H2)
        as (Hz & -> & E1 & E2 & Eb).
      pose proof (weight_le inner counted (threads s)) as Hle.
      rewrite I4 by done. rewrite Eb, E1, E2 in *. simpl in *.
      assert (weight inner (threads s) ≤ weight counted (threads s))%nat
        by (apply Hle; by intros []).
      lia.
  - intros k [[-> Heq]|[[Hne Hk]|Hin]]%lookup_go.
    + apply (fo_closed_err _ F). by apply N1.
    + specialize (A7 _ Hk). lia.
    + done.
Qed.

Lemma acct_step_Sync i j s s' : acct s → step (Sync i j) s = Next s' → acct s'.
Proof.
  intros [A1 A2 A3 A4 [F1 F2 F3 F4 F5 F6] A6 A7]
    (Hij & a & b & a' & b' & w' & Hi & Hj & Hst & ->)%step_Sync_inv.
  destruct (sync_step_facts _ _ _ _ _ _ Hst) as (S1 & _ & S3 & S4 & _).
  destruct (sync_step_acct _ _ _ _ _ _ Hst)
    as (E1 & E2 & E3 & E4 & E5 & E6 & E7 & E8 & E9 & Hc & Hw
        & Ra & Rb & Ra' & Rb' & Na & Nb & Hin).
  assert (<[i := a']> (threads s) !! j = Some b) as Hj'
      by by rewrite list_lookup_insert_ne.
  pose proof (weight_insert counted _ _ _ a' Hi).
  pose proof (weight_insert counted _ _ _ b' Hj').
  pose proof (weight_insert inner _ _ _ a' Hi).
  pose proof (weight_insert inner _ _ _ b' Hj').
  pose proof (weight_insert is_worker _ _ _ a' Hi).
  pose proof (weight_insert is_worker _ _ _ b' Hj').
  pose proof (weight_insert run_done _ _ _ a' Hi).
  pose proof (weight_insert run_done _ _ _ b' Hj').
  unfold pending, inside, sd_len in *.
  split; unfold pending, inside, sd_len; simpl;
    rewrite ?E1, ?E2, ?E3, ?E4, ?E5, ?E6, ?E9, ?S1.
  - lia.
  - intros Hctx. specialize (A2 Hctx). lia.
  - lia.
  - intros Hcl. specialize (A4 Hcl). rewrite Ra, Rb, Ra', Rb' in *.
    simpl in *. replace (weight run_done (<[j:=b']> (<[i:=a']> (threads s))))
      with (weight run_done (threads s)) by lia. lia.
  - split; unfold sd_len; simpl; rewrite ?E6, ?E7, ?E8, ?S1, ?S3, ?S4; done.
  - intros Hd2. destruct (A6 Hd2) as [Hin0 Hab]. specialize (Hin (F6 Hd2)).
    split; [lia | done].
  - intros k [[-> ?]|[[-> ?]|(? & ? & Hk)]]%lookup_sync; [done..|by eauto].
Qed.

Lemma acct_step a s s' : inv s → acct s → step a s = Next s' → acct s'.
Proof.
  destruct a as [m|u| |i|i j]; intros Hinv Ha Hst.
  - by eapply acct_step_Call.
  - injection Hst as <-. destruct Ha as [A1 A2 A3 A4 [F1 F2 F3 F4 F5 F6] A6 A7].
    by split.
  - injection Hst as <-. destruct Ha as [A1 A2 A3 A4 [F1 F2 F3 F4 F5 F6] A6 A7].
    by split.
  - by eapply acct_step_Go.
  - by eapply acct_step_Sync.
Qed.

Lemma reachable_acct rt c (p : pool U) s :
  NewPool rt c = Next p → reachable p s → acct s.
Proof.
  intros Hp. induction 1 as [|a s s' Hs IH Hst]; [by eapply acct_init|].
  eapply acct_step; [by eapply reachable_inv | done..].
Qed.

(** *** How far the sequence of [Shutdown] has got *)

Lemma sd_events_take s :
  inv s → ∃ k, (k ≤ 4)%nat ∧ sd_events (history (wd s)) = take k shutdown_body.
Proof.
  intros [_ Hbd Hloc [Hidle Hdone] _].
  destruct (shutdownOnce (pl (wd s))) eqn:E.
  - destruct Hidle as [-> _]; [done|]. exists O. split; [lia | done].
  - destruct (weight_pos in_body (threads s)) as (i & th & Hi & Hth);
      [rewrite Hbd; simpl; lia|].
    destruct (Hloc _ _ Hi) as [Hb _]. destruct (Hb Hth) as [_ ->].
    destruct th; try discriminate; simpl;
      [exists O | exists 1%nat | exists 1%nat | exists 2%nat
       | exists 3%nat | exists 3%nat | exists 4%nat]; (split; [lia | done]).
  - destruct Hdone as [-> _]; [done|]. exists 4%nat. split; [lia | done].
Qed.

Lemma drained_sd_len s :
  inv s → EvDrained ∈ history (wd s) → (2 ≤ sd_len (wd s))%nat.
Proof.
  intros Hinv Hin. unfold sd_len.
  assert (EvDrained ∈ sd_events (history (wd s))) as Hsd
      by by apply list_elem_of_filter.
  destruct (sd_events_take s Hinv) as (k & Hk & E). rewrite E in *.
  destruct k as [|[|k]]; simpl in *.
  - by apply elem_of_nil in Hsd.
  - by apply list_elem_of_singleton in Hsd.
  - lia.
Qed.

(** *** What can panic *)





(** *** The in-flight counter *)

(** X2.  [inflightWG] is never below the number of tasks admitted by
    [Queue] and not yet at a terminal outcome (being sent by [Queue],
    buffered in the admission queue, with the lobby, with a worker, or with
    a goroutine handing them back or to the error queue), and as long as the
    context is not done it is exactly that number. *)
Theorem inflight_counts_pending rt c (p : pool U) s :
  NewPool rt c = Next p → reachable p s →
  Z.of_nat (pending s) ≤ inflightWG (pl (wd s))
  ∧ (ctx_done (pl (wd s)) = false → inflightWG (pl (wd s)) = Z.of_nat (pending s)).
Proof.
  intros Hp Hs. destruct (reachable_acct _ _ _ _ Hp Hs) as [A1 A2 _ _ _ _ _].
  split; [lia | done].
Qed.

(** X3.  The wait of [Shutdown] (line 189) and that of [Wait] (line 211) let
    their caller through only when no admitted task is left in the pool and
    none was dropped; and once the wait of [Shutdown] has returned, [p.inputQ]
    is nil, the admission queue is empty and no goroutine of the pool holds
    a task, in every later state. *)
Theorem Shutdown_drains rt c (p : pool U) s :
  NewPool rt c = Next p → reachable p s →
  (∀ i th s', threads s !! i = Some th → th = SdWait ∨ th = WaitWG →
     step (Go i) s = Next s' → pending s = O ∧ abandoned (wd s) = O)
  ∧ (EvDrained ∈ history (wd s) →
     inputQ_nil (pl (wd s)) = true
     ∧ buf (inputQ (pl (wd s))) = []
     ∧ ∀ i th, threads s !! i = Some th → inner th = false).
Proof.
  intros Hp Hs.
  pose proof (reachable_inv _ _ _ _ Hp Hs) as Hinv.
  destruct (reachable_acct _ _ _ _ Hp Hs) as [A1 _ _ _ F A6 _].
  split.
  - intros i th s' Hi Hth (th0 & th' & w' & new & Hi' & Hst & _)%step_Go_inv.
    assert (th0 = th) as -> by congruence.
    assert (inflightWG (pl (wd s)) = 0) as Hz.
    { destruct Hth as [-> | ->]; simpl in Hst; case_match eqn:E; try done;
        by apply Z.eqb_eq in E. }
    lia.
  - intros Hd. pose proof (drained_sd_len _ Hinv Hd) as H2.
    destruct (A6 H2) as [Hin _]. unfold inside in Hin.
    split; [by apply (fo_drained_nil _ F)|].
    split; [apply length_zero_iff_nil; lia|].
    intros i th Hi. eapply weight_zero; [|done]. lia.
Qed.

(** X4.  A failed execution that the worker drops because the context is
    done (lines 223-224) is never taken off [inflightWG]: from then on the
    counter stays above zero, the wait of [Shutdown] and the wait of [Wait]
    block, the sequence of [Shutdown] never gets past its wait and no call
    of [Shutdown] returns. *)
Theorem abandoned_task_blocks_Shutdown rt c (p : pool U) s t :
  NewPool rt c = Next p → reachable p s →
  EvAbandoned t ∈ history (wd s) →
  1 ≤ inflightWG (pl (wd s))
  ∧ (EvDrained ∉ history (wd s))
  ∧ shutdownOnce (pl (wd s)) ≠ OnceDone
  ∧ (∀ i, ¬ (threads s !! i = Some SdDone))
  ∧ ∀ i th, threads s !! i = Some th → th = SdWait ∨ th = WaitWG →
      step (Go i) s = Blocked.
Proof.
  intros Hp Hs Hab.
  pose proof (reachable_inv _ _ _ _ Hp Hs) as Hinv.
  destruct (reachable_acct _ _ _ _ Hp Hs) as [A1 _ _ _ F A6 _].
  assert (1 ≤ abandoned (wd s))%nat as Hpos by by eapply count_ev_elem.
  assert (EvDrained ∉ history (wd s)) as Hnd.
  { intros Hd. destruct (A6 (drained_sd_len _ Hinv Hd)) as [_ ?]. lia. }
  assert (shutdownOnce (pl (wd s)) ≠ OnceDone) as Hnot.
  { intros Hd. destruct (inv_once _ Hinv) as [_ Hdone].
    destruct (Hdone Hd) as (Hsd & _). apply Hnd.
    assert (EvDrained ∈ sd_events (history (wd s))) as Hin
        by (rewrite Hsd; unfold shutdown_body; do 2 constructor).
    by apply list_elem_of_filter in Hin as [_ ?]. }
  split; [lia|]. split; [done|]. split; [done|]. split.
  - intros i Hi. destruct (inv_local _ Hinv _ _ Hi) as (_ & Hd & _). by apply Hnot, Hd.
  - intros i th Hi Hth. unfold step. rewrite Hi.
    destruct Hth as [-> | ->]; simpl;
      (rewrite (proj2 (Z.eqb_neq _ _)); [done | lia]).
Qed.

(** X5.  [ErroredTask] returns nil only after the whole sequence of
    [Shutdown] has executed: the error queue is closed, and by then no task
    is left in the admission queue or with a goroutine of the pool. *)
Theorem ErroredTask_nil_after_Shutdown rt c (p : pool U) s i :
  NewPool rt c = Next p → reachable p s →
  threads s !! i = Some (ErrDone None) →
  sd_events (history (wd s)) = shutdown_body
  ∧ closed (errCh (pl (wd s))) = true
  ∧ buf (inputQ (pl (wd s))) = []
  ∧ ∀ j th, threads s !! j = Some th → inner th = false.
Proof.
  intros Hp Hs Hi.
  pose proof (reachable_inv _ _ _ _ Hp Hs) as Hinv.
  destruct (reachable_acct _ _ _ _ Hp Hs) as [_ _ _ _ F A6 A7].
  specialize (A7 _ Hi).
  destruct (sd_events_take s Hinv) as (k & Hk & E).
  assert (k = 4%nat) as ->.
  { unfold sd_len in A7. rewrite E, length_take in A7. lia. }
  destruct A6 as [Hin _]; [lia|]. unfold inside in Hin.
  split; [done|]. split; [by apply (fo_closed_err _ F)|].
  split; [apply length_zero_iff_nil; lia|].
  intros j th Hj. eapply weight_zero; [|done]. lia.
Qed.

(** X10.  [workersWG] counts the worker goroutines that have not returned,
    and until [Shutdown] closes the workers' queue there are exactly [Size]
    of them for every call of [Run] that has returned (the loop of [Run]
    taken as one step): no worker returns earlier, whatever the user
    function returns and whether or not the context is done. *)
Theorem Run_starts_Size_workers rt c (p : pool U) s :
  NewPool rt c = Next p → reachable p s →
  workersWG (pl (wd s)) = Z.of_nat (weight is_worker (threads s))
  ∧ (closed (workersQ (pl (wd s))) = false →
     weight is_worker (threads s)
     = (weight run_done (threads s) * Z.to_nat (Size (cfg p)))%nat).
Proof.
  intros Hp Hs. destruct (reachable_acct _ _ _ _ Hp Hs) as [_ _ A3 A4 _ _ _].
  split; [done|]. intros Hc. rewrite <- (reachable_cfg _ _ Hs). by apply A4.
Qed.

(** X13.  [Run] must be called once: after a call of [Run] has returned and
    until the admission queue is closed, the lobby holds the input lock and
    a further call of [Run] cannot get past its [Lock] (line 164). *)
Theorem second_Run_blocks rt c (p : pool U) s :
  NewPool rt c = Next p → reachable p s →
  (∃ r, threads s !! r = Some RunDone) →
  closed (inputQ (pl (wd s))) = false →
  inputLock (pl (wd s)) = true
  ∧ ∀ i, threads s !! i = Some RunLock → step (Go i) s = Blocked.
Proof.
  intros Hp Hs Hrun Hc. pose proof (reachable_inv _ _ _ _ Hp Hs) as Hinv.
  destruct (lock_held_after_Run s Hinv Hrun Hc) as [Hlock _].
  split; [done|]. intros i Hi. unfold step. rewrite Hi. simpl. by rewrite Hlock.
Qed.

(** X14.  Once [Shutdown] has closed the workers' queue (line 190) no worker
    is executing or routing a task, and a worker that is in its loop (line
    217) returns at its next step: it takes one off [workersWG], without a
    panic, and does nothing else. *)
Theorem workers_return_after_Shutdown rt c (p : pool U) s :
  NewPool rt c = Next p → reachable p s →
  closed (workersQ (pl (wd s))) = true →
  ∀ i th, threads s !! i = Some th → is_worker th = true →
    (th = WorkerStart ∨ th = WorkerRecv)
    ∧ (th = WorkerRecv →
       step (Go i) s
       = Next {| wd := on_pool (set_workersWG (workersWG (pl (wd s)) + -1)) (wd s);
                 threads := <[i := Exit]> (threads s) |}).
Proof.
  intros Hp Hs Hc i th Hi Hw.
  destruct (reachable_acct _ _ _ _ Hp Hs) as [_ _ A3 _ F A6 _].
  pose proof (proj1 (fo_closed_workers _ F) Hc) as H3.
  destruct A6 as [Hin _]; [lia|]. unfold inside in Hin.
  assert (inner th = false) as Hth by (eapply weight_zero; [|done]; lia).
  pose proof (weight_lookup _ _ _ _ Hi Hw) as Hpos.
  split; [destruct th; try discriminate; auto|].
  intros ->. unfold step. rewrite Hi. simpl. rewrite Hc. unfold wg_add.
  rewrite (proj2 (Z.ltb_ge _ _)) by lia. simpl. by rewrite app_nil_r.
Qed.

(** *** What [ErroredTask] returns *)

Lemma thread_step_history th w th' w' new :
  thread_step th w = Next (th', w', new) →
  (∀ e, e ∈ history w → e ∈ history w')
  ∧ (∀ t, th' ≠ ErrDone (Some t))
  ∧ ∀ t, ErrDone (Some t) ∉ new.
Proof.
  intros H.
  thread_cases H; simpl; (split; [|split]).
  all: try done.
  all: try (intros ? ?; apply elem_of_app; by left).
  all: intros t' Hin; repeat (apply elem_of_cons in Hin as [?|Hin]; [done|]);
    try (by apply elem_of_nil in Hin).
  by apply elem_of_replicate in Hin as [? _].
Qed.

Lemma sync_step_history a b w a' b' w' :
  sync_step a b w = Next (a', b', w') →
  (∀ e, e ∈ history w → e ∈ history w')
  ∧ (∀ t, a' ≠ ErrDone (Some t))
  ∧ ∀ t, b' = ErrDone (Some t) → ∃ x, EvDelivered t x ∈ history w'.
Proof.
  intros H.
  sync_cases H; simpl; (split; [|split]).
  all: try done.
  all: try (intros ? ?; apply elem_of_app; by left).
  intros t' [= <-]. eexists. apply elem_of_app. right. by constructor.
Qed.

(** A call of [ErroredTask] that returned a task received it from the
    error queue. *)
Lemma reachable_delivered (p : pool U) s :
  reachable p s →
  ∀ i t, threads s !! i = Some (ErrDone (Some t)) →
         ∃ x, EvDelivered t x ∈ history (wd s).
Proof.
  induction 1 as [|a s s' _ IH Hst]; intros k t Hk.
  - simpl in Hk. by rewrite lookup_nil in Hk.
  - destruct a as [m|u| |i|i j].
    + apply step_Call_inv in Hst as ->. simpl in *.
      apply lookup_app_Some in Hk as [Hk|[_ Hk]]; [by eauto|].
      apply list_lookup_singleton_Some in Hk as [_ Hk]. by destruct m.
    + injection Hst as <-. by eauto.
    + injection Hst as <-. by eauto.
    + apply step_Go_inv in Hst as (th & th' & w' & new & Hi & Hst & ->).
      destruct (thread_step_history _ _ _ _ _ Hst) as (Hh & Hn1 & Hn2).
      simpl in *. apply lookup_go in Hk as [[-> Heq]|[[Hne Hk]|Hin]].
      * symmetry in Heq. by apply Hn1 in Heq.
      * destruct (IH _ _ Hk) as [x Hx]. exists x. by apply Hh.
      * by apply Hn2 in Hin.
    + apply step_Sync_inv in Hst
        as (Hij & a & b & a' & b' & w' & Hi & Hj & Hst & ->).
      destruct (sync_step_history _ _ _ _ _ _ Hst) as (Hh & Hn1 & Hn2).
      simpl in *. apply lookup_sync in Hk as [[-> Heq]|[[-> Heq]|(? & ? & Hk)]].
      * by apply Hn2.
      * symmetry in Heq. by apply Hn1 in Heq.
      * destruct (IH _ _ Hk) as [x Hx]. exists x. by apply Hh.
Qed.

(** X6.  A task that a call of [ErroredTask] has returned (the task queued
    at most once since its allocation) was received from the error queue:
    its last error is not nil, its error count is at least the retry
    ceiling and is the count it was delivered with, and no goroutine of the
    pool holds it any more. *)
Theorem ErroredTask_returns_failed_task rt c0 (p : pool U) s u acts s' i :
  NewPool rt c0 = Next p → reachable p s →
  run (NewTask u :: acts) s = Next s' →
  (calls (length (tasks (wd s))) acts ≤ 1)%nat →
  threads s' !! i = Some (ErrDone (Some (length (tasks (wd s))))) →
  ∃ tk, tasks (wd s') !! length (tasks (wd s)) = Some tk
        ∧ Err (header tk) ≠ None
        ∧ Retries (cfg p) ≤ ErrorCount (header tk)
        ∧ EvDelivered (length (tasks (wd s))) (ErrorCount (header tk))
          ∈ history (wd s')
        ∧ ∀ j th, threads s' !! j = Some th →
                  carries (length (tasks (wd s))) th = false.
Proof.
  intros Hp Hs Hrun Hcalls Hi.
  assert (reachable p s') as Hs' by by eapply run_reachable.
  destruct (reachable_delivered _ _ Hs' _ _ Hi) as [x Hx].
  simpl in Hrun.
  pose proof (life_inv_alloc _ _ _ _ u Hp Hs) as Hinv.
  pose proof (life_run _ _ _ _ O _ _ Hcalls Hinv Hrun)
    as [_ Htok Htask _ _ _ Hhist _].
  set (t := length (tasks (wd s))) in *.
  destruct (Hhist _ Hx) as (m & Hn & Hr & Hroute & ->);
    [simpl; by apply bool_decide_eq_true|].
  rewrite Hn in *. exists (iter_task (cfg p) u (S m)).
  rewrite nth_route_eq in Hroute. unfold route in Hroute.
  split; [done|]. split; [|split; [|split; [done|]]].
  - rewrite iter_task_header, SetError_Err.
    by destruct (execute (cfg p) (iter_task (cfg p) u m)).2.
  - repeat case_match; try done. by apply Z.leb_le.
  - intros j th Hj. eapply weight_zero; [|done].
    assert (1 ≤ count_ev (ev_ended t) (history (wd s')))%nat
      by (eapply count_ev_elem; [done|]; simpl; by apply bool_decide_eq_true).
    unfold tokens, wtok in Htok. lia.
Qed.

(** *** One holder per task *)

(** X7.  A task passed to [Queue] at most once is held by at most one
    goroutine at a time, and while a goroutine holds it the task is neither
    in the admission queue nor at a terminal outcome: the user function is
    never run on it by two workers at once. *)
Theorem task_has_one_holder rt c0 (p : pool U) s u acts s' :
  NewPool rt c0 = Next p → reachable p s →
  run (NewTask u :: acts) s = Next s' →
  (calls (length (tasks (wd s))) acts ≤ 1)%nat →
  (∀ i j a b, threads s' !! i = Some a → threads s' !! j = Some b →
     carries (length (tasks (wd s))) a = true →
     carries (length (tasks (wd s))) b = true → i = j)
  ∧ (∀ i a, threads s' !! i = Some a →
       carries (length (tasks (wd s))) a = true →
       (length (tasks (wd s)) ∉ buf (inputQ (pl (wd s'))))
       ∧ ∀ e, e ∈ history (wd s') → ev_ended (length (tasks (wd s))) e = false).
Proof.
  intros Hp Hs Hrun Hcalls. simpl in Hrun.
  pose proof (life_inv_alloc _ _ _ _ u Hp Hs) as Hinv.
  pose proof (life_run _ _ _ _ O _ _ Hcalls Hinv Hrun) as [_ Htok _ _ _ _ _ _].
  set (t := length (tasks (wd s))) in *.
  unfold tokens, wtok in Htok. split.
  - intros i j a b Hi Hj Ha Hb. destruct (decide (i = j)) as [|Hne]; [done|].
    pose proof (weight_two _ _ _ _ _ _ Hne Hi Hj Ha Hb). lia.
  - intros i a Hi Ha. pose proof (weight_lookup _ _ _ _ Hi Ha). split.
    + intros Hin.
      assert (t ∈ filter (λ x, x = t) (buf (inputQ (pl (wd s'))))) as Hf
          by by apply list_elem_of_filter.
      unfold in_chan in Htok.
      destruct (filter (λ x, x = t) (buf (inputQ (pl (wd s')))));
        [by apply elem_of_nil in Hf | simpl in Htok; lia].
    + intros e He. destruct (ev_ended t e) eqn:E; [|done].
      pose proof (count_ev_elem _ _ _ He E). lia.
Qed.

(** *** The number of executions *)

Lemma retried_count (c : PoolConfig U) u m :
  Retries c ≤ max_int → retried c u m →
  ErrorCount (header (iter_task c u m)) = Z.of_nat m
  ∧ ((1 ≤ m)%nat → Z.of_nat m < Retries c).
Proof.
  intros Hmax. induction m as [|m IH]; intros Hr; [split; [done | lia]|].
  destruct IH as [Hc Hlt]; [intros j Hj; apply Hr; lia|].
  pose proof (Hr m ltac:(lia)) as Hroute.
  rewrite nth_route_eq in Hroute. unfold route in Hroute.
  rewrite iter_task_header in *.
  destruct (execute c (iter_task c u m)).2 as [x|]; [|done].
  assert (Z.of_nat m < max_int).
  { destruct m; [unfold max_int; simpl; lia|]. specialize (Hlt ltac:(lia)). lia. }
  rewrite SetError_count_succ in * by (rewrite Hc; unfold min_int; lia).
  split; [lia|]. intros _. repeat case_match; try done.
  match goal with E : (_ <=? _) = false |- _ => apply Z.leb_gt in E end. lia.
Qed.

(** X8.  Whatever the user function does, a task passed to [Queue] at most
    once is executed at most max(1, Retries) times, and its error count is
    the number of its executions or one less, never negative. *)
Theorem executions_bounded rt c0 (p : pool U) s u acts s' :
  NewPool rt c0 = Next p → Retries (cfg p) ≤ max_int →
  reachable p s →
  run (NewTask u :: acts) s = Next s' →
  (calls (length (tasks (wd s))) acts ≤ 1)%nat →
  Z.of_nat (executions (length (tasks (wd s))) (wd s')) ≤ Z.max 1 (Retries (cfg p))
  ∧ ∃ tk, tasks (wd s') !! length (tasks (wd s)) = Some tk
          ∧ 0 ≤ ErrorCount (header tk)
          ∧ Z.of_nat (executions (length (tasks (wd s))) (wd s')) - 1
            ≤ ErrorCount (header tk)
            ≤ Z.of_nat (executions (length (tasks (wd s))) (wd s')).
Proof.
  intros Hp Hmax Hs Hrun Hcalls. simpl in Hrun.
  pose proof (life_inv_alloc _ _ _ _ u Hp Hs) as Hinv.
  pose proof (life_run _ _ _ _ O _ _ Hcalls Hinv Hrun)
    as [_ _ Htask _ _ _ _ Hret].
  set (t := length (tasks (wd s))) in *.
  set (n := executions t (wd s')) in *.
  destruct (retried_count _ _ _ Hmax Hret) as [Hc Hlt].
  split; [lia|]. eexists. split; [exact Htask|].
  destruct n as [|m]; [simpl; lia|]. simpl in Hc, Hlt.
  rewrite iter_task_header.
  assert (Z.of_nat m < max_int).
  { destruct m; [unfold max_int; simpl; lia|]. specialize (Hlt ltac:(lia)). lia. }
  destruct (execute (cfg p) (iter_task (cfg p) u m)).2 as [x|].
  - rewrite SetError_count_succ by (rewrite Hc; unfold min_int; lia). lia.
  - rewrite SetError_count_nil. lia.
Qed.

(** *** No task is dropped while the context is not done *)

(** Without a done context a step of a goroutine past the check of [Queue]
    moves the task on and does not lose it. *)
Lemma thread_step_kept t th w th' w' new :
  thread_step th w = Next (th', w', new) →
  ctx_done (pl w') = false →
  (∀ x, th ≠ QueueCheck x) →
  (Nat.b2n (carries t th) + wtok t w
   ≤ Nat.b2n (carries t th') + weight (carries t) new + wtok t w')%nat.
Proof.
  intros H. unfold wtok.
  thread_cases H; simpl; rewrite ?weight_replicate by done;
    rewrite ?count_ev_snoc; simpl; intros Hctx Hq; try lia; try congruence.
  - erewrite (in_chan_pop t _ _ (inputQ (pl w))) by done. lia.
  - unfold route in *. repeat case_match; simplify_eq.
  - by destruct (Hq t0).
  - rewrite in_chan_push. lia.
  - unfold in_chan. simpl. lia.
Qed.

Lemma sync_step_kept t a b w a' b' w' :
  sync_step a b w = Next (a', b', w') →
  ctx_done (pl w') = ctx_done (pl w)
  ∧ (Nat.b2n (carries t a) + Nat.b2n (carries t b) + wtok t w
     ≤ Nat.b2n (carries t a') + Nat.b2n (carries t b') + wtok t w')%nat.
Proof.
  intros H. unfold wtok.
  sync_cases H; simpl in *; rewrite ?count_ev_snoc; simpl;
    rewrite ?Nat.add_0_r; split; try done; lia.
Qed.

Lemma thread_step_QueueCheck x w th' w' new :
  thread_step (QueueCheck x) w = Next (th', w', new) →
  w' = w ∧ new = [] ∧ (th' = QueueDone ∨ th' = QueueCount x).
Proof. simpl. case_match; intros [= <- <- <-]; auto. Qed.

Lemma kept_step c u t k a s s' :
  (k ≤ 1)%nat →
  life_inv c u t k s → kept t s → step a s = Next s' → kept t s'.
Proof.
  intros Hk [_ Htok _ _ Hloc _ _ _] Hkept Hst. unfold kept, tokens in *.
  destruct a as [m|x| |i|i j].
  - apply step_Call_inv in Hst as ->. simpl. rewrite weight_app.
    intros Hc He. specialize (Hkept Hc He). lia.
  - by injection Hst as <-.
  - injection Hst as <-. done.
  - apply step_Go_inv in Hst as (th & th' & w' & new & Hi & Hst & ->).
    simpl. rewrite weight_app. intros Hc He.
    pose proof (weight_insert (carries t) _ _ _ th' Hi) as Pc.
    pose proof (thread_step_executions t _ _ _ _ _ Hst) as Hex.
    assert (ctx_done (pl (wd s)) = false) as Hc0.
    { destruct (thread_step_inflight _ _ _ _ _ Hst) as (_ & I2 & _).
      by destruct (I2 Hc). }
    assert ((∃ x, th = QueueCheck x) ∨ ¬ (∃ x, th = QueueCheck x))
      as [[x ->]|Hnq].
    { destruct th; try (right; intros [??]; discriminate).
      left. by exists t0. }
    + destruct (thread_step_QueueCheck _ _ _ _ _ Hst) as (-> & -> & Hth').
      simpl in *. specialize (Hkept Hc0 He).
      case_bool_decide as Ext.
      * subst x. specialize (Hloc _ _ Hi). simpl in Hloc.
        rewrite bool_decide_true in Hloc by done. specialize (Hloc eq_refl). lia.
      * assert (carries t th' = false) as E
            by (destruct Hth' as [-> | ->]; simpl; [done|];
                by apply bool_decide_eq_false).
        rewrite E in *. simpl in *. lia.
    + assert (∀ x, th ≠ QueueCheck x) as Hq by (intros x ->; apply Hnq; eauto).
      pose proof (thread_step_kept t _ _ _ _ _ Hst Hc Hq) as Hmove.
      destruct (decide (1 ≤ executions t (wd s))%nat) as [He0|He0].
      * specialize (Hkept Hc0 He0). lia.
      * assert (th' = th' ∧ carries t th' = true) as [_ E].
        { split; [done|]. destruct th; simpl in Hex; try lia.
          case_bool_decide; simpl in Hex; [|lia]. subst.
          simpl in Hst. repeat case_match; simplify_eq/=.
          by apply bool_decide_eq_true. }
        rewrite E in *. simpl in *.
        destruct (carries t th) eqn:Eth; simpl in *; [|lia].
        pose proof (weight_lookup _ _ _ _ Hi Eth). lia.
  - apply step_Sync_inv in Hst
      as (Hij & a & b & a' & b' & w' & Hi & Hj & Hst & ->).
    destruct (sync_step_kept t _ _ _ _ _ _ Hst) as [Ec Hmove].
    destruct (sync_step_frame t _ _ _ _ _ _ Hst) as (_ & _ & En & _).
    simpl. rewrite Ec, En. intros Hc He. specialize (Hkept Hc He).
    assert (<[i := a']> (threads s) !! j = Some b) as Hj'
        by by rewrite list_lookup_insert_ne.
    pose proof (weight_insert (carries t) _ _ _ a' Hi).
    pose proof (weight_insert (carries t) _ _ _ b' Hj'). lia.
Qed.

Lemma kept_run c u t acts : ∀ k s s',
  (k + calls t acts ≤ 1)%nat →
  life_inv c u t k s → kept t s → run acts s = Next s' → kept t s'.
Proof.
  induction acts as [|a acts IH]; intros k s s' Hk Hinv Hkept; simpl.
  - by intros [= <-].
  - destruct (step a s) as [s1| |] eqn:E; simpl; [|done..]. intros Hrun.
    rewrite calls_cons in Hk. rewrite Nat.add_assoc in Hk.
    eapply (IH (k + Nat.b2n (is_call t a))%nat); [done | | | done].
    + eapply life_step; [lia | done..].
    + eapply kept_step; [| done..]. lia.
Qed.

(** X9.  Graceful shutdown: if the context is not done, then once the wait
    of [Shutdown] has returned every task that was executed (and queued at
    most once) has completed or has been received from the error queue,
    with the error count its header shows. *)
Theorem Shutdown_leaves_no_task_behind rt c0 (p : pool U) s u acts s' :
  NewPool rt c0 = Next p → reachable p s →
  run (NewTask u :: acts) s = Next s' →
  (calls (length (tasks (wd s))) acts ≤ 1)%nat →
  ctx_done (pl (wd s')) = false →
  (1 ≤ executions (length (tasks (wd s))) (wd s'))%nat →
  EvDrained ∈ history (wd s') →
  ∃ tk, tasks (wd s') !! length (tasks (wd s)) = Some tk
        ∧ (EvFinished (length (tasks (wd s))) (ErrorCount (header tk))
             ∈ history (wd s')
           ∨ EvDelivered (length (tasks (wd s))) (ErrorCount (header tk))
               ∈ history (wd s')).
Proof.
  intros Hp Hs Hrun Hcalls Hctx Hex Hd.
  assert (reachable p s') as Hs' by by eapply run_reachable.
  pose proof (reachable_inv _ _ _ _ Hp Hs') as Hinv'.
  destruct (reachable_acct _ _ _ _ Hp Hs') as [_ _ _ _ _ A6 _].
  destruct (A6 (drained_sd_len _ Hinv' Hd)) as [Hin _]. unfold inside in Hin.
  simpl in Hrun.
  pose proof (life_inv_alloc _ _ _ _ u Hp Hs) as Hinv.
  pose proof (life_run _ _ _ _ O _ _ Hcalls Hinv Hrun) as Hlife.
  assert (kept (length (tasks (wd s)))
            {| wd := alloc (newTask u) (wd s); threads := threads s |}) as Hk0.
  { intros _ He. destruct (li_fresh _ _ _ _ _ Hinv eq_refl). simpl in He. lia. }
  pose proof (kept_run _ _ _ _ O _ _ Hcalls Hinv Hk0 Hrun Hctx Hex) as Htok.
  destruct Hlife as [_ _ Htask _ Hloc _ Hhist _].
  set (t := length (tasks (wd s))) in *.
  assert (weight (carries t) (threads s') = O) as Hw.
  { destruct (weight (carries t) (threads s')) eqn:E; [done|].
    destruct (weight_pos (carries t) (threads s')) as (i & th & Hi & Hth); [lia|].
    assert (inner th = false) as Hinn by (eapply weight_zero; [|done]; lia).
    specialize (Hloc _ _ Hi Hth).
    destruct th; simpl in *; try done; lia. }
  assert (in_chan t (inputQ (pl (wd s'))) = O) as Hb.
  { unfold in_chan.
    assert (buf (inputQ (pl (wd s'))) = []) as -> by (apply length_zero_iff_nil; lia).
    done. }
  unfold tokens, wtok in Htok. rewrite Hw, Hb in Htok. simpl in Htok.
  unfold count_ev in Htok.
  destruct (filter (λ e, ev_ended t e = true) (history (wd s'))) as [|e l] eqn:E;
    [simpl in Htok; lia|].
  assert (e ∈ filter (λ e, ev_ended t e = true) (history (wd s'))) as He
      by (rewrite E; by constructor).
  apply list_elem_of_filter in He as [He Hin'].
  destruct (Hhist e Hin' He) as (m & Hn & _ & Hev).
  eexists. split; [exact Htask|].
  destruct e; simpl in He; try done; apply bool_decide_eq_true in He as ->;
    destruct Hev as [_ ->]; [left | right]; done.
Qed.

End Acct.

(** *** The error count of a header *)

(** X11.  On a fresh header, after any sequence of recordings that does not
    overflow the counter, [ErrorCount] is the number of non-nil errors
    recorded, wherever the nil ones come in between, and [Err] is the error
    recorded last. *)
Theorem ErrorCount_counts_failures (es : list (option error)) :
  non_nil es ≤ max_int →
  ErrorCount (record_all es zeroTaskHeader) = non_nil es
  ∧ Err (record_all es zeroTaskHeader) = last_recorded None es.
Proof.
  intros H. split.
  - rewrite record_all_count; simpl; unfold min_int; lia.
  - apply record_all_Err.
Qed.

(** ** The configuration a pool stores *)

Lemma NewPool_fixed {U : Type} (rt : Runtime) (c : PoolConfig U) (p : pool U) :
  1 ≤ wrap_int (GOMAXPROCS rt * 32) →
  NewPool rt c = Next p → NewPool rt (cfg p) = Next p.
Proof.
  unfold NewPool. destruct c as [l sz r f]. simpl.
  generalize (wrap_int (GOMAXPROCS rt * 32)). intros g Hg.
  destruct (Z.ltb_spec sz 1); simpl;
    (match goal with
     | |- context [g <? ?b] => destruct (Z.ltb_spec g b); simpl
     end);
    (destruct (Z.ltb_spec r (-1)); simpl);
    (destruct (make_chan rt l) as [ch| |] eqn:E4; simpl; try done);
    (destruct (make_chan rt 0) as [ch0| |] eqn:E5; simpl; try done);
    intros [= <-]; simpl;
    repeat (match goal with
            | |- context [?a <? ?b] =>
                destruct (Z.ltb_spec a b); unfold with_Size, with_Retries in *;
                simpl in *; try lia
            end);
    by rewrite ?E4, ?E5.
Qed.

(** X12.  The configuration [NewPool] stores is in normal form: the worker
    count is between 1 and 32 times [GOMAXPROCS], the retry ceiling is at
    least -1, and [NewPool] on the stored configuration builds the same pool
    again. *)
Theorem NewPool_normal_form {U : Type} (rt : Runtime) (c : PoolConfig U) (p : pool U) :
  1 ≤ GOMAXPROCS rt → GOMAXPROCS rt * 32 ≤ max_int →
  NewPool rt c = Next p →
  1 ≤ Size (cfg p) ≤ GOMAXPROCS rt * 32
  ∧ -1 ≤ Retries (cfg p)
  ∧ NewPool rt (cfg p) = Next p.
Proof.
  intros Hg Hmax Hp.
  assert (wrap_int (GOMAXPROCS rt * 32) = GOMAXPROCS rt * 32) as Hw.
  { apply wrap_int_id. unfold is_int, min_int. lia. }
  destruct (NewPool_inv _ _ _ Hp) as (_ & _ & HR & HS & _).
  rewrite Hw in HS. simpl in HS.
  split; [rewrite HS; repeat case_match; lia|].
  split; [rewrite HR; repeat case_match; lia|].
  apply (NewPool_fixed rt c); [lia | done].
Qed.

(** ** The further properties at concrete inputs *)

Lemma run_sched_queued :
  run sched_queued (init (pool_test countdown)) = Next state_queued.
Proof. vm_compute. reflexivity. Qed.


Lemma run_sched_abandoned :
  run sched_abandoned (init (pool_test countdown)) = Next state_abandoned.
Proof. vm_compute. reflexivity. Qed.

Lemma run_sched_nil_result :
  run sched_nil_result (init (pool_test countdown)) = Next state_nil_result.
Proof. vm_compute. reflexivity. Qed.

Lemma run_sched_graceful :
  run sched_graceful (init (pool_test countdown)) = Next state_graceful.
Proof. vm_compute. reflexivity. Qed.

Lemma NewPool_big : NewPool rt64 cfg_big = Next pool_clamped.
Proof. reflexivity. Qed.


Lemma inflight_counts_pending_witness :
  pending state_queued = 1%nat ∧ inflightWG (pl (wd state_queued)) = 1.
Proof.
  destruct (inflight_counts_pending rt64 (cfg_test countdown)
              (pool_test countdown) state_queued (NewPool_test countdown))
    as [_ H].
  - eapply run_reachable; [apply reach_init | apply run_sched_queued].
  - split; [reflexivity|]. rewrite H; reflexivity.
Defined.

Lemma Shutdown_drains_witness :
  inputQ_nil (pl (wd state_graceful)) = true
  ∧ buf (inputQ (pl (wd state_graceful))) = []
  ∧ ∀ i th, threads state_graceful !! i = Some th → inner th = false.
Proof.
  destruct (Shutdown_drains rt64 (cfg_test countdown)
              (pool_test countdown) state_graceful (NewPool_test countdown))
    as [_ H].
  - eapply run_reachable; [apply reach_init | apply run_sched_graceful].
  - apply H. unfold state_graceful. simpl. repeat constructor.
Defined.

Lemma abandoned_task_blocks_Shutdown_witness :
  threads state_abandoned !! 6%nat = Some SdWait
  ∧ step (Go 6) state_abandoned = Blocked
  ∧ 1 ≤ inflightWG (pl (wd state_abandoned)).
Proof.
  destruct (abandoned_task_blocks_Shutdown rt64 (cfg_test countdown)
              (pool_test countdown) state_abandoned O (NewPool_test countdown))
    as (H1 & _ & _ & _ & Hb).
  - eapply run_reachable; [apply reach_init | apply run_sched_abandoned].
  - unfold state_abandoned. simpl. repeat constructor.
  - split; [reflexivity|]. split; [|exact H1].
    apply (Hb 6%nat SdWait); [reflexivity | left; reflexivity].
Defined.

Lemma ErroredTask_nil_after_Shutdown_witness :
  sd_events (history (wd state_nil_result)) = shutdown_body
  ∧ closed (errCh (pl (wd state_nil_result))) = true
  ∧ buf (inputQ (pl (wd state_nil_result))) = []
  ∧ ∀ j th, threads state_nil_result !! j = Some th → inner th = false.
Proof.
  apply (ErroredTask_nil_after_Shutdown rt64 (cfg_test countdown)
           (pool_test countdown) state_nil_result 5%nat (NewPool_test countdown)).
  - eapply run_reachable; [apply reach_init | apply run_sched_nil_result].
  - reflexivity.
Defined.

Lemma ErroredTask_returns_failed_task_witness :
  ∃ tk, tasks (wd state_failing) !! 0%nat = Some tk
        ∧ Err (header tk) ≠ None
        ∧ Retries (cfg (pool_test failing)) ≤ ErrorCount (header tk)
        ∧ EvDelivered 0 (ErrorCount (header tk)) ∈ history (wd state_failing)
        ∧ ∀ j th, threads state_failing !! j = Some th → carries 0 th = false.
Proof.
  apply (ErroredTask_returns_failed_task rt64 (cfg_test failing)
           (pool_test failing) (state_setup failing) O sched_delivery
           state_failing 7%nat (NewPool_test failing)).
  - eapply run_reachable; [apply reach_init | apply run_sched_setup].
  - vm_compute. reflexivity.
  - vm_compute. lia.
  - reflexivity.
Defined.

Lemma task_has_one_holder_witness :
  threads state_queued !! 2%nat = Some (WorkerExec 0)
  ∧ (0%nat ∉ buf (inputQ (pl (wd state_queued))))
  ∧ ∀ e, e ∈ history (wd state_queued) → ev_ended 0 e = false.
Proof.
  destruct (task_has_one_holder rt64 (cfg_test countdown)
              (pool_test countdown) (state_setup countdown) 1%nat
              sched_queue_task state_queued (NewPool_test countdown))
    as [_ H].
  - eapply run_reachable; [apply reach_init | apply run_sched_setup].
  - vm_compute. reflexivity.
  - vm_compute. lia.
  - split; [reflexivity|].
    apply (H 2%nat (WorkerExec 0)); reflexivity.
Defined.

Lemma executions_bounded_witness :
  Z.of_nat (executions 0 (wd state_failing)) ≤ Z.max 1 2
  ∧ ∃ tk, tasks (wd state_failing) !! 0%nat = Some tk
          ∧ 0 ≤ ErrorCount (header tk)
          ∧ Z.of_nat (executions 0 (wd state_failing)) - 1
            ≤ ErrorCount (header tk)
            ≤ Z.of_nat (executions 0 (wd state_failing)).
Proof.
  apply (executions_bounded rt64 (cfg_test failing)
           (pool_test failing) (state_setup failing) O sched_delivery
           state_failing (NewPool_test failing)).
  - unfold max_int. simpl. lia.
  - eapply run_reachable; [apply reach_init | apply run_sched_setup].
  - vm_compute. reflexivity.
  - vm_compute. lia.
Defined.

Lemma Shutdown_leaves_no_task_behind_witness :
  ∃ tk, tasks (wd state_graceful) !! 0%nat = Some tk
        ∧ (EvFinished 0 (ErrorCount (header tk)) ∈ history (wd state_graceful)
           ∨ EvDelivered 0 (ErrorCount (header tk)) ∈ history (wd state_graceful)).
Proof.
  apply (Shutdown_leaves_no_task_behind rt64 (cfg_test countdown)
           (pool_test countdown) (state_setup countdown) 1%nat sched_drain
           state_graceful (NewPool_test countdown)).
  - eapply run_reachable; [apply reach_init | apply run_sched_setup].
  - vm_compute. reflexivity.
  - vm_compute. lia.
  - reflexivity.
  - vm_compute. lia.
  - unfold state_graceful. simpl. repeat constructor.
Defined.

Lemma Run_starts_Size_workers_witness :
  weight is_worker (threads (state_setup countdown)) = 2%nat
  ∧ workersWG (pl (wd (state_setup countdown))) = 2.
Proof.
  destruct (Run_starts_Size_workers rt64 (cfg_test countdown)
              (pool_test countdown) (state_setup countdown)
              (NewPool_test countdown)) as [Hw Hs].
  - eapply run_reachable; [apply reach_init | apply run_sched_setup].
  - split; [rewrite Hs; reflexivity | rewrite Hw; reflexivity].
Defined.

Lemma ErrorCount_counts_failures_witness :
  ErrorCount (record_all [Some boom; None; Some boom] zeroTaskHeader) = 2
  ∧ Err (record_all [Some boom; None; Some boom] zeroTaskHeader) = Some boom.
Proof.
  apply (ErrorCount_counts_failures [Some boom; None; Some boom]).
  vm_compute. discriminate.
Defined.

Lemma NewPool_normal_form_witness :
  1 ≤ Size (cfg pool_clamped) ≤ 4 * 32
  ∧ -1 ≤ Retries (cfg pool_clamped)
  ∧ NewPool rt64 (cfg pool_clamped) = Next pool_clamped.
Proof.
  apply (NewPool_normal_form rt64 cfg_big pool_clamped).
  - simpl. lia.
  - unfold max_int. simpl. lia.
  - apply NewPool_big.
Defined.

Lemma run_sched_run_twice :
  run sched_run_twice (init (pool_test countdown)) = Next state_run_twice.
Proof. vm_compute. reflexivity. Qed.

Lemma second_Run_blocks_witness :
  threads state_run_twice !! 4%nat = Some RunLock
  ∧ step (Go 4) state_run_twice = Blocked.
Proof.
  destruct (second_Run_blocks rt64 (cfg_test countdown)
              (pool_test countdown) state_run_twice (NewPool_test countdown))
    as [_ H].
  - eapply run_reachable; [apply reach_init | apply run_sched_run_twice].
  - exists O. reflexivity.
  - reflexivity.
  - split; [reflexivity|]. apply H. reflexivity.
Defined.

Lemma workers_return_after_Shutdown_witness :
  threads state_nil_result !! 2%nat = Some WorkerRecv
  ∧ step (Go 2) state_nil_result
    = Next {| wd := on_pool (set_workersWG 1) (wd state_nil_result);
              threads := <[2%nat := Exit]> (threads state_nil_result) |}.
Proof.
  destruct (workers_return_after_Shutdown rt64 (cfg_test countdown)
              (pool_test countdown) state_nil_result (NewPool_test countdown))
    with (i := 2%nat) (th := WorkerRecv) as [_ H].
  - eapply run_reachable; [apply reach_init | apply run_sched_nil_result].
  - reflexivity.
  - reflexivity.
  - reflexivity.
  - split; [reflexivity|]. rewrite H; reflexivity.
Defined.
